(** * cdimage: the track encoder, its interleaver and the parallel pipeline

    A shallow embedding of the Go sources of cdimage (the converter, the
    multi-threaded converter, the presets and the [burnImage] entry point)
    together with the properties of the design document that can be checked
    against them.

    Conventions of the embedding.
    - Go [int] and [byte] values are integers of [Z]; a [byte] is an integer
      in [0, 256) and conversions to [byte] are written as [mod 256].  No
      [int] of the encoder comes near the 64-bit limits.
    - Go [float64] values ([tr], [r], [c], [dr]) are exact rationals of [Q];
      [int(x)] is truncation toward zero.  The concrete runs evaluated below
      only use integers far below 2^53, on which binary64 arithmetic is exact,
      and the general statements about the values the track loops compute
      (samples per turn, sample counts, termination) are made for
      whole-number parameters below 2^52 ([whole_parameters]), on which it
      is exact as well.  The arguments of [visualizeTrack], which are only
      compared and copied, can also be an infinity or NaN ([float64_arg]).
    - Fixed-size arrays are lists; an index outside the array is a run-time
      panic, which the embedding makes explicit ([Panic]), as is the
      allocation of a buffer with a negative capacity.
    - The operating system and the image are parameters: whether a write to
      the output file succeeds, the pixel accessor, and the two pieces of
      floating-point geometry (the trigonometric pixel position and the
      luminance formula). *)

From Stdlib Require Import ZArith QArith Qround Lia Lqa.
From stdpp Require Import base option list gmap strings sorting.

Open Scope Z_scope.

(** ** Results of fallible code *)

Inductive error : Type :=
  | ErrCreate        (* "failed to create output file" *)
  | ErrWrite         (* "failed to write data" / a failed file.Write *)
  | ErrFinalWrite    (* "failed to write final buffer" *)
  | ErrCancelled     (* "conversion cancelled" *)
  | ErrContext       (* ctx.Err() *)
  | ErrInvalidDisc   (* "invalid disc type" *)
  | ErrLoadImage     (* "failed to load image" *)
  | ErrPresetUnknown (* "preset not found" *)
  | ErrPresetDisc    (* "preset is for another disc type" *)
  | ErrConversion (e : error)  (* "conversion failed: %w" *)
  | ErrNoOutput.     (* "output file was not created" *)

Inductive result (A : Type) : Type :=
  | Ok (a : A)
  | Fail (e : error)
  | Panic.

Arguments Ok {A} a.
Arguments Fail {A} e.
Arguments Panic {A}.

Definition rbind {A B : Type} (m : result A) (k : A -> result B) : result B :=
  match m with
  | Ok a => k a
  | Fail e => Fail e
  | Panic => Panic
  end.

#[global] Instance result_ret : MRet result := fun A a => Ok a.
#[global] Instance result_bind : MBind result := fun A B k m => rbind m k.

(** Reading and writing an array cell; a bad index panics. *)
Definition aget {A : Type} (a : list A) (i : Z) : result A :=
  if 0 <=? i
  then match a !! Z.to_nat i with Some x => Ok x | None => Panic end
  else Panic.

Definition aset {A : Type} (a : list A) (i : Z) (x : A) : result (list A) :=
  if (0 <=? i) && (i <? Z.of_nat (length a))
  then Ok (<[Z.to_nat i := x]> a)
  else Panic.

(** A counted loop [for i := 0; i < n; i++ { body }] that stops at the first
    error. *)
Fixpoint for_from {S : Type} (i : Z) (n : nat) (body : Z -> S -> result S)
    (s : S) : result S :=
  match n with
  | O => Ok s
  | Datatypes.S n' => s' ← body i s; for_from (i + 1) n' body s'
  end.

Definition for_range {S : Type} (n : Z) (body : Z -> S -> result S) (s : S)
    : result S :=
  for_from 0 (Z.to_nat n) body s.

(** ** Constants of the format *)

Definition D : Z := 4.
Definition SectorSize : Z := 2352.
Definition CDTotalSize : Z := 800 * 1024 * 1024.
Definition DVDTotalSize : Z := 4700 * 1024 * 1024.

Definition delays : list Z :=
  [ -24 * 3;           -24 * (1*D+2) + 1;      8 - 24 * (2*D+3);   8 - 24 * (3*D+2) + 1;
    16 - 24 * (4*D+3); 16 - 24 * (5*D+2) + 1;  2 - 24 * (6*D+3);   2 - 24 * (7*D+2) + 1;
    10 - 24 * (8*D+3); 10 - 24 * (9*D+2) + 1;  18 - 24 * (10*D+3); 18 - 24 * (11*D+2) + 1;
    4 - 24 * (16*D+1); 4 - 24 * (17*D) + 1;    12 - 24 * (18*D+1); 12 - 24 * (19*D) + 1;
    20 - 24 * (20*D+1); 20 - 24 * (21*D) + 1;  6 - 24 * (22*D+1);  6 - 24 * (23*D) + 1;
    14 - 24 * (24*D+1); 14 - 24 * (25*D) + 1;  22 - 24 * (26*D+1); 22 - 24 * (27*D) + 1 ].

(** 0x10, 0x21, 0x28, 0xAA *)
Definition palette : list Z := [16; 33; 40; 170].

(** ** The converter *)

Record Converter : Type := mkConverter {
  tr0 : Q;
  dtr : Q;
  r0 : Q;
  mixColors : bool;
  discType : string;
  (* internal state *)
  intseq : list Z;     (* [24 * 28 * D]byte *)
  nh : Z;
  pinf : Z;
  buffer : list Z;     (* [SectorSize]byte *)
  c : Z;
  (* callbacks: whether a progress callback is installed; the cancel
     callback, when installed, as the answer to its k-th call *)
  progressCallback : bool;
  cancelCallback : option (nat -> bool)
}.

Definition NewConverter (tr0 dtr r0 : Q) (mixColors : bool) (discType : string)
    : Converter :=
  {| tr0 := tr0; dtr := dtr; r0 := r0; mixColors := mixColors;
     discType := discType;
     intseq := replicate (Z.to_nat (24 * 28 * D)) 0;
     nh := 28 * D - 1;
     pinf := 0;
     buffer := replicate (Z.to_nat SectorSize) 0;
     c := 0;
     progressCallback := false;
     cancelCallback := None |}.

Definition SetProgressCallback (conv : Converter) : Converter :=
  {| tr0 := tr0 conv; dtr := dtr conv; r0 := r0 conv;
     mixColors := mixColors conv; discType := discType conv;
     intseq := intseq conv; nh := nh conv; pinf := pinf conv;
     buffer := buffer conv; c := c conv;
     progressCallback := true; cancelCallback := cancelCallback conv |}.

Definition SetCancelCallback (conv : Converter) (cb : nat -> bool) : Converter :=
  {| tr0 := tr0 conv; dtr := dtr conv; r0 := r0 conv;
     mixColors := mixColors conv; discType := discType conv;
     intseq := intseq conv; nh := nh conv; pinf := pinf conv;
     buffer := buffer conv; c := c conv;
     progressCallback := progressCallback conv; cancelCallback := Some cb |}.

(** Updates of the internal state. *)
Definition with_ring (conv : Converter) (seq' : list Z) (nh' pinf' : Z) : Converter :=
  {| tr0 := tr0 conv; dtr := dtr conv; r0 := r0 conv;
     mixColors := mixColors conv; discType := discType conv;
     intseq := seq'; nh := nh'; pinf := pinf';
     buffer := buffer conv; c := c conv;
     progressCallback := progressCallback conv;
     cancelCallback := cancelCallback conv |}.

Definition with_sector (conv : Converter) (buffer' : list Z) (c' : Z) : Converter :=
  {| tr0 := tr0 conv; dtr := dtr conv; r0 := r0 conv;
     mixColors := mixColors conv; discType := discType conv;
     intseq := intseq conv; nh := nh conv; pinf := pinf conv;
     buffer := buffer'; c := c';
     progressCallback := progressCallback conv;
     cancelCallback := cancelCallback conv |}.

(** [n2m] calculates the index in the circular buffer. *)
Definition n2m (conv : Converter) (n : Z) : Z :=
  let index := nh conv * 24 + n in
  if index >=? 28 * 4 * 24 then index - 28 * 4 * 24
  else if index <? 0 then index + 28 * 4 * 24
  else index.

(** ** The environment of a run *)

(** The image, the operating system, the random source and the cancellation
    context.  The two floating-point pieces of the geometry are kept
    abstract: [env_spiral_xy cx cy ri i itr] stands for the pair
    [(int(xi), int(yi))] computed from [alpha := 2*Pi*i/itr],
    [xi := cx + ri*cos(alpha)], [yi := cy + ri*sin(alpha)], and
    [env_luma R G B] for the integer part of
    [R*0.299 + G*0.587 + B*0.114]. *)
Record Env : Type := mkEnv {
  env_load_ok : bool;                         (* loadImage succeeds *)
  env_create_ok : bool;                       (* os.Create succeeds *)
  env_write_ok : list Z -> list Z -> bool;    (* file.Write content data succeeds *)
  env_img : Z -> Z -> Z * Z * Z * Z;          (* img.At(x, y).RGBA() *)
  env_width : Z;                              (* bounds.Dx() *)
  env_height : Z;                             (* bounds.Dy() *)
  env_spiral_xy : Q -> Q -> Q -> Z -> Z -> Z * Z;
  env_luma : Z -> Z -> Z -> Z;
  env_rand : nat -> Z;                        (* k-th value of rand.Intn(85) *)
  env_ctx_done : nat -> bool;                 (* ctx.Done() is closed at the k-th poll *)
  env_cancelled : nat -> bool;                (* burnImage's flag at the k-th call of its cancel callback *)
  env_interrupted : bool                      (* a signal had arrived when the conversion returned *)
}.

Record RGBA : Type := mkRGBA { R : Z; G : Z; B : Z; A : Z }.

(** [int(x)] on a float64: truncation toward zero. *)
Definition trunc (x : Q) : Z := Z.quot (Qnum x) (Zpos (Qden x)).

Definition Qltb (x y : Q) : bool := negb (Qle_bool y x).

(** The choice between the two neighbouring palette entries ([c1], [c2],
    [grayMod] and [cl] of the sample loops).  [draw] is the value of
    [rand.Intn(85)], only looked at when colours are mixed. *)
Definition choose_level (mix : bool) (draw grayValue zs zf : Z) : Z :=
  let c1 := grayValue / 85 in
  let c2 := (c1 + 1) mod 256 in
  let c2 := if c2 >? 3 then 3 else c2 in
  let grayMod := grayValue mod 85 in
  if mix then
    if (draw <? grayMod) || (grayMod =? 84) then c2 else c1
  else
    if (grayMod >? zs * 5 + zf) || (grayMod =? 84) then c2 else c1.

(** State of the sample loop of [Convert]: the converter, the file, the
    sample phase [zf], the number of random draws made, and a trace of the
    bytes handed to [ad] so far. *)
Record SampleState : Type := mkSample {
  ss_conv : Converter;
  ss_file : list Z;
  ss_zf : Z;
  ss_draws : nat;
  ss_fed : list Z
}.

(** State of the track loop of [Convert] at its head. *)
Record LoopState : Type := mkLoop {
  ls_conv : Converter;
  ls_file : list Z;          (* bytes written to the output file *)
  ls_reports : list Z;       (* arguments of the progress callback, oldest first *)
  ls_tr : Q;
  ls_r : Q;
  ls_c : Q;
  ls_zs : Z;
  ls_zf : Z;
  ls_track : nat;            (* iterations completed *)
  ls_draws : nat;
  ls_fed : list Z
}.

Inductive outcome : Type :=
  | Completed (st : LoopState) (file : list Z)  (* return nil *)
  | Aborted (e : error) (removed : bool) (reports : list Z)
  | Crashed.

Inductive step : Type :=
  | Continue (st : LoopState)
  | Stop (o : outcome).

(** ** The parallel pipeline: jobs, results, collector *)

Record TrackJob : Type := mkJob {
  job_trackIndex : Z;
  job_tr : Q;
  job_r : Q;
  job_rcd : Q;
  job_cx : Q;
  job_cy : Q;
  job_ir : Q;
  job_itr : Z;
  job_zs : Z;
  job_zf : Z
}.

Record TrackResult : Type := mkResult {
  res_trackIndex : Z;
  res_data : list Z;
  res_err : option error
}.

(** State of the job generator at the head of its loop. *)
Record GenState : Type := mkGen {
  gs_tr : Q;
  gs_r : Q;
  gs_c : Q;
  gs_zs : Z;
  gs_zf : Z;
  gs_trackIndex : Z;
  gs_jobs : list TrackJob;   (* jobs sent on the channel, oldest first *)
  gs_reports : list Z;
  gs_polls : nat             (* polls of ctx.Done() made by the generator *)
}.

(** State of the result collector.  [col_written] lists the successful
    Write calls, each with the track index it was issued for. *)
Record Collector : Type := mkCollector {
  trackBuffer : gmap Z (list Z);
  nextTrackToWrite : Z;
  col_file : list Z;
  col_written : list (Z * list Z)
}.

(** What the scheduler decides in a parallel run: where the worker of a
    track finds the context cancelled, which random numbers it draws, and
    whether its result is sent at all (a worker that finds the context
    cancelled may return instead of receiving the job or instead of
    sending the result). *)
Record Schedule : Type := mkSchedule {
  sch_done : Z -> Z -> bool;     (* track, sample: ctx.Done() is closed *)
  sch_rand : Z -> Z -> Z;        (* track, sample: value of rand.Intn(85) *)
  sch_dropped : Z -> bool        (* track: no result reaches the channel *)
}.

Inductive gen_step : Type :=
  | GenContinue (st : GenState)
  | GenReturn (st : GenState).

(** A parallel run that returned: the returned error, the collector and the
    generator at the end. *)
Record ParOutcome : Type := mkParOutcome {
  par_ret : option error;
  par_collector : option Collector;   (* [None] when no file was created *)
  par_jobs : list TrackJob
}.

(** How a parallel run ends: [ConvertParallel] returns, or a worker
    goroutine panics, which ends the process. *)
Inductive par_result : Type :=
  | Returned (po : ParOutcome)
  | WorkerPanic.

(** ** Presets *)

Record DiscPreset : Type := mkPreset {
  Name : string;
  DiscType : string;
  Tr0 : Q;
  Dtr : Q;
  R0 : Q
}.

Definition GetPresets : gmap string DiscPreset :=
  {[ "verbatim-cd-rw-1" :=
       {| Name := "Verbatim CD-RW Hi-Speed 8x-10x 700 MB SERL 1";
          DiscType := "cd"; Tr0 := 22951.52; Dtr := 1.3865961; R0 := 24.5 |};
     "verbatim-cd-rw-2" :=
       {| Name := "Verbatim CD-RW Hi-Speed 8x-10x 700 MB SERL 2";
          DiscType := "cd"; Tr0 := 22951.07; Dtr := 1.3865958; R0 := 24.5 |};
     "eperformance-cd-rw" :=
       {| Name := "eProformance CD-RW 4x-10x 700 MB Prodisk Technology Inc";
          DiscType := "cd"; Tr0 := 22936.085; Dtr := 1.38314; R0 := 24.5 |};
     "tdk-cd-rw" :=
       {| Name := "TDK CD-RW 4x-12x HIGH SPEED 700MB 80MIN";
          DiscType := "cd"; Tr0 := 23000.145; Dtr := 1.38659775; R0 := 24.5 |};
     "generic-dvd-r" :=
       {| Name := "Generic DVD-R 4.7GB";
          DiscType := "dvd"; Tr0 := 48000.0; Dtr := 0.74; R0 := 24.0 |};
     "generic-dvd-rw" :=
       {| Name := "Generic DVD-RW 4.7GB";
          DiscType := "dvd"; Tr0 := 48050.0; Dtr := 0.741; R0 := 24.0 |};
     "verbatim-dvd-r" :=
       {| Name := "Verbatim DVD-R 16x 4.7GB";
          DiscType := "dvd"; Tr0 := 47980.0; Dtr := 0.739; R0 := 24.0 |};
     "sony-dvd-rw" :=
       {| Name := "Sony DVD-RW 4x 4.7GB";
          DiscType := "dvd"; Tr0 := 48100.0; Dtr := 0.742; R0 := 24.0 |} ]}.

(** The zero value of [DiscPreset], which Go returns for a missing key. *)
Definition zero_preset : DiscPreset :=
  {| Name := ""; DiscType := ""; Tr0 := 0; Dtr := 0; R0 := 0 |}.

Definition GetPresetByName (name : string) : DiscPreset * bool :=
  match GetPresets !! name with
  | Some p => (p, true)
  | None => (zero_preset, false)
  end.

(** [strings.ToLower], on the ASCII letters. *)
Definition lower_ascii (a : Ascii.ascii) : Ascii.ascii :=
  let n := Ascii.nat_of_ascii a in
  if (65 <=? n)%nat && (n <=? 90)%nat then Ascii.ascii_of_nat (n + 32) else a.

Fixpoint ToLower (s : string) : string :=
  match s with
  | EmptyString => EmptyString
  | String a s' => String (lower_ascii a) (ToLower s')
  end.

Definition GetDefaultPreset (discType : string) : DiscPreset :=
  if String.eqb (ToLower discType) "dvd"
  then default zero_preset (GetPresets !! "generic-dvd-r")
  else default zero_preset (GetPresets !! "verbatim-cd-rw-1").

(** What [burnImage] did: the error it returned, and, when it got as far as
    creating a converter, the parameters it was created with. *)
Record BurnReport : Type := mkBurn {
  burn_ret : option error;
  burn_started : option (Q * Q * Q);
  burn_output : bool                 (* an output file exists on return *)
}.

Section Encoder.

Variable E : Env.

Definition file_Write (content data : list Z) : result (list Z) :=
  if env_write_ok E content data then Ok (content ++ data) else Fail ErrWrite.

(** [bw] buffers bytes and writes to the file when the buffer is full. *)
Definition bw (conv : Converter) (b : Z) (file : list Z)
    : result (Converter * list Z) :=
  buffer' ← aset (buffer conv) (c conv) b;
  let conv1 := with_sector conv buffer' (c conv + 1) in
  if c conv1 >=? SectorSize then
    file' ← file_Write file (buffer conv1);
    Ok (with_sector conv1 (buffer conv1) 0, file')
  else Ok (conv1, file).

(** [ad] processes a byte through the delay sequence. *)
Definition ad (conv : Converter) (b : Z) (file : list Z)
    : result (Converter * list Z) :=
  d ← aget delays (pinf conv);
  seq' ← aset (intseq conv) (n2m conv d) b;
  let conv1 := with_ring conv seq' (nh conv) (pinf conv + 1) in
  if pinf conv1 >=? 24 then
    let nh1 := nh conv1 + 1 in
    let conv2 := with_ring conv1 (intseq conv1)
                   (if nh1 >=? 28 * 4 then 0 else nh1) 0 in
    for_range 24
      (fun i '(cv, f) => x ← aget (intseq cv) (n2m cv i); bw cv x f)
      (conv2, file)
  else Ok (conv1, file).

(** [sampleImage] safely samples a pixel from the image. *)
Definition sampleImage (x y width height : Z) : RGBA :=
  let x := if x <? 0 then 0 else x in
  let x := if x >=? width then width - 1 else x in
  let y := if y <? 0 then 0 else y in
  let y := if y >=? height then height - 1 else y in
  let '(r, g, b, a) := env_img E x y in
  {| R := Z.shiftr r 8 mod 256; G := Z.shiftr g 8 mod 256;
     B := Z.shiftr b 8 mod 256; A := Z.shiftr a 8 mod 256 |}.

(** [rgbaToGray]: the luminance, converted to a byte. *)
Definition rgbaToGray (col : RGBA) : Z :=
  env_luma E (R col) (G col) (B col) mod 256.

(** The gray value of sample [i] of a track. *)
Definition grayAt (cx cy ri : Q) (i itr width height : Z) : Z :=
  let '(xi, yi) := env_spiral_xy E cx cy ri i itr in
  rgbaToGray (sampleImage xi yi width height).

(** One iteration of the sample loop of [Convert]. *)
Definition sample_body (mix : bool) (cx cy ri : Q) (itr width height zs : Z)
    (i : Z) (s : SampleState) : result SampleState :=
  let grayValue := grayAt cx cy ri i itr width height in
  let draw := env_rand E (ss_draws s) in
  let cl := choose_level mix draw grayValue zs (ss_zf s) in
  b ← aget palette cl;
  '(conv', file') ← ad (ss_conv s) b (ss_file s);
  let zf := ss_zf s + 1 in
  Ok {| ss_conv := conv'; ss_file := file';
        ss_zf := if zf >=? 5 then 0 else zf;
        ss_draws := if mix then S (ss_draws s) else ss_draws s;
        ss_fed := ss_fed s ++ [b] |}.

(** The filling loop [for int(c) > ic { ... ic++ ... }]; it runs at most
    [int(c) - ic] times, which is the fuel it is given. *)
Fixpoint fill_loop (fuel : nat) (cq : Q) (ic : Z) (s : SampleState)
    : result SampleState :=
  match fuel with
  | O => Ok s
  | Datatypes.S fuel' =>
    if trunc cq >? ic then
      b ← aget palette 0;
      '(conv', file') ← ad (ss_conv s) b (ss_file s);
      let zf := ss_zf s + 1 in
      fill_loop fuel' cq (ic + 1)
        {| ss_conv := conv'; ss_file := file';
           ss_zf := if zf >=? 4 then 0 else zf;
           ss_draws := ss_draws s;
           ss_fed := ss_fed s ++ [b] |}
    else Ok s
  end.

Definition totalSize_of (discType : string) : Z :=
  if String.eqb discType "dvd" then DVDTotalSize else CDTotalSize.

Definition ir : Q := 1500.
Definition rcd : Q := 575 # 10.

Definition progress_of (cq : Q) (totalSize : Z) : Z :=
  trunc (100 * cq / inject_Z totalSize).

(** The loop condition [c < float64(totalSize) - tr]. *)
Definition loop_guard (totalSize : Z) (cq tr : Q) : bool :=
  Qltb cq (inject_Z totalSize - tr).

(** One iteration of the track loop of [Convert]. *)
Definition track_body (st : LoopState) : step :=
  let conv := ls_conv st in
  let totalSize := totalSize_of (discType conv) in
  let dr := (dtr conv * r0 conv / tr0 conv)%Q in
  let cx := (inject_Z (env_width E) / 2)%Q in
  let cy := (inject_Z (env_height E) / 2)%Q in
  if match cancelCallback conv with
     | Some cb => cb (ls_track st)
     | None => false
     end
  then Stop (Aborted ErrCancelled true (ls_reports st))
  else if env_ctx_done E (ls_track st)
  then Stop (Aborted ErrContext true (ls_reports st))
  else
    let reports :=
      if progressCallback conv
      then ls_reports st ++ [progress_of (ls_c st) totalSize]
      else ls_reports st in
    let itr := trunc (ls_tr st) in
    let ri := (ir * ls_r st / rcd)%Q in
    match for_range itr
            (sample_body (mixColors conv) cx cy ri itr
               (env_width E) (env_height E) (ls_zs st))
            {| ss_conv := conv; ss_file := ls_file st; ss_zf := ls_zf st;
               ss_draws := ls_draws st; ss_fed := ls_fed st |}
    with
    | Panic => Stop Crashed
    | Fail e => Stop (Aborted e false reports)
    | Ok s1 =>
      let cq := (ls_c st + ls_tr st)%Q in
      let ic := trunc cq in
      match fill_loop (Z.to_nat (trunc cq - ic)) cq ic s1 with
      | Panic => Stop Crashed
      | Fail e => Stop (Aborted e false reports)
      | Ok s2 =>
        let zs := ls_zs st + 1 in
        Continue
          {| ls_conv := ss_conv s2; ls_file := ss_file s2;
             ls_reports := reports;
             ls_tr := (ls_tr st + dtr conv)%Q;
             ls_r := (ls_r st + dr)%Q;
             ls_c := cq;
             ls_zs := if zs >=? 17 then 0 else zs;
             ls_zf := ss_zf s2;
             ls_track := S (ls_track st);
             ls_draws := ss_draws s2;
             ls_fed := ss_fed s2 |}
      end
    end.

(** The flush of the remaining buffer after the track loop. *)
Definition final_flush (st : LoopState) : outcome :=
  let conv := ls_conv st in
  if c conv >? 0 then
    match file_Write (ls_file st) (take (Z.to_nat (c conv)) (buffer conv)) with
    | Ok file' => Completed st file'
    | Fail _ => Aborted ErrFinalWrite false (ls_reports st)
    | Panic => Crashed
    end
  else Completed st (ls_file st).

(** The track loop; [None] when the fuel runs out before the loop ends. *)
Fixpoint track_loop (fuel : nat) (st : LoopState) : option outcome :=
  match fuel with
  | O => None
  | Datatypes.S fuel' =>
    if loop_guard (totalSize_of (discType (ls_conv st))) (ls_c st) (ls_tr st)
    then match track_body st with
         | Continue st' => track_loop fuel' st'
         | Stop o => Some o
         end
    else Some (final_flush st)
  end.

(** The state in which [Convert] enters its track loop. *)
Definition initial_loop (conv : Converter) : LoopState :=
  {| ls_conv := conv; ls_file := []; ls_reports := [];
     ls_tr := tr0 conv; ls_r := r0 conv; ls_c := 0%Q;
     ls_zs := 0; ls_zf := 0; ls_track := O; ls_draws := O; ls_fed := [] |}.

(** [Convert] converts an image to an audio track file. *)
Definition Convert (fuel : nat) (conv : Converter) : option outcome :=
  if env_create_ok E
  then track_loop fuel (initial_loop conv)
  else Some (Aborted ErrCreate false []).

(** *** The parallel pipeline *)

(** One iteration of the sample loop of [processTrack]; the state is
    [localZf] and [trackData]. *)
Definition processTrack_body (sch : Schedule) (mix : bool) (job : TrackJob)
    (ri : Q) (width height : Z) (i : Z) (s : Z * list Z)
    : result (Z * list Z) :=
  let '(localZf, trackData) := s in
  if sch_done sch (job_trackIndex job) i then Fail ErrContext
  else
    let grayValue :=
      grayAt (job_cx job) (job_cy job) ri i (job_itr job) width height in
    let draw := sch_rand sch (job_trackIndex job) i in
    let cl := choose_level mix draw grayValue (job_zs job) localZf in
    b ← aget palette cl;
    let localZf := localZf + 1 in
    Ok (if localZf >=? 5 then 0 else localZf, trackData ++ [b]).

(** [processTrack] processes a single track and returns the audio data. *)
Definition processTrack (sch : Schedule) (mix : bool) (width height : Z)
    (job : TrackJob) : result (list Z) :=
  let ri := (job_ir job * job_r job / job_rcd job)%Q in
  (* make([]byte, 0, job.itr*4) panics on a negative capacity *)
  if job_itr job * 4 <? 0 then Panic
  else
    '(_, trackData) ←
      for_range (job_itr job)
        (processTrack_body sch mix job ri width height) (job_zf job, []);
    Ok trackData.

(** What [trackWorker] builds for one job. *)
Definition worker_result (sch : Schedule) (mix : bool) (job : TrackJob)
    : result TrackResult :=
  match processTrack sch mix (env_width E) (env_height E) job with
  | Ok data =>
    Ok {| res_trackIndex := job_trackIndex job; res_data := data;
          res_err := None |}
  | Fail e =>
    Ok {| res_trackIndex := job_trackIndex job; res_data := [];
          res_err := Some e |}
  | Panic => Panic
  end.

(** The inner loop of the collector: write the buffered tracks that are next
    in line.  Every round but the last removes one entry of the buffer, so
    one round more than its size is enough fuel. *)
Fixpoint drain (fuel : nat) (col : Collector) : Collector :=
  match fuel with
  | O => col
  | Datatypes.S fuel' =>
    match trackBuffer col !! nextTrackToWrite col with
    | Some data =>
      match file_Write (col_file col) data with
      | Ok file' =>
        drain fuel'
          {| trackBuffer := delete (nextTrackToWrite col) (trackBuffer col);
             nextTrackToWrite := nextTrackToWrite col + 1;
             col_file := file';
             col_written :=
               col_written col ++ [(nextTrackToWrite col, data)] |}
      | _ => col
      end
    | None => col
    end
  end.

(** The body of [for result := range mtconv.results]. *)
Definition collect_one (col : Collector) (res : TrackResult) : Collector :=
  match res_err res with
  | Some _ => col
  | None =>
    let col1 :=
      {| trackBuffer := <[res_trackIndex res := res_data res]> (trackBuffer col);
         nextTrackToWrite := nextTrackToWrite col;
         col_file := col_file col;
         col_written := col_written col |} in
    drain (Datatypes.S (size (trackBuffer col1))) col1
  end.

Definition new_collector : Collector :=
  {| trackBuffer := ∅; nextTrackToWrite := 0; col_file := [];
     col_written := [] |}.

(** The collector after the results [arrival], in their order of arrival. *)
Definition collect (arrival : list TrackResult) : Collector :=
  foldl collect_one new_collector arrival.

(** One iteration of the job generator. *)
Definition gen_body (conv : Converter) (st : GenState) : gen_step :=
  let totalSize := totalSize_of (discType conv) in
  let dr := (dtr conv * r0 conv / tr0 conv)%Q in
  let cx := (inject_Z (env_width E) / 2)%Q in
  let cy := (inject_Z (env_height E) / 2)%Q in
  if env_ctx_done E (gs_polls st) then GenReturn st
  else if match cancelCallback conv with
          | Some cb => cb (Z.to_nat (gs_trackIndex st))
          | None => false
          end
  then GenReturn st
  else
    let reports :=
      if progressCallback conv
      then gs_reports st ++ [progress_of (gs_c st) totalSize]
      else gs_reports st in
    let itr := trunc (gs_tr st) in
    let job :=
      {| job_trackIndex := gs_trackIndex st; job_tr := gs_tr st;
         job_r := gs_r st; job_rcd := rcd; job_cx := cx; job_cy := cy;
         job_ir := ir; job_itr := itr; job_zs := gs_zs st;
         job_zf := gs_zf st |} in
    if env_ctx_done E (Datatypes.S (gs_polls st))
    then GenReturn
           {| gs_tr := gs_tr st; gs_r := gs_r st; gs_c := gs_c st;
              gs_zs := gs_zs st; gs_zf := gs_zf st;
              gs_trackIndex := gs_trackIndex st; gs_jobs := gs_jobs st;
              gs_reports := reports; gs_polls := gs_polls st + 2 |}
    else
      let zs := gs_zs st + 1 in
      GenContinue
        {| gs_tr := (gs_tr st + dtr conv)%Q;
           gs_r := (gs_r st + dr)%Q;
           gs_c := (gs_c st + gs_tr st)%Q;
           gs_zs := if zs >=? 17 then 0 else zs;
           gs_zf := gs_zf st;
           gs_trackIndex := gs_trackIndex st + 1;
           gs_jobs := gs_jobs st ++ [job];
           gs_reports := reports;
           gs_polls := gs_polls st + 2 |}.

Fixpoint gen_loop (fuel : nat) (conv : Converter) (st : GenState)
    : option GenState :=
  match fuel with
  | O => None
  | Datatypes.S fuel' =>
    if loop_guard (totalSize_of (discType conv)) (gs_c st) (gs_tr st)
    then match gen_body conv st with
         | GenContinue st' => gen_loop fuel' conv st'
         | GenReturn st' => Some st'
         end
    else Some st
  end.

Definition initial_gen (conv : Converter) : GenState :=
  {| gs_tr := tr0 conv; gs_r := r0 conv; gs_c := 0%Q; gs_zs := 0; gs_zf := 0;
     gs_trackIndex := 0; gs_jobs := []; gs_reports := []; gs_polls := O |}.

(** The results that can reach the collector for a list of jobs: those of
    the workers whose result was not dropped, in any order. *)
Definition published (sch : Schedule) (mix : bool) (jobs : list TrackJob)
    : list TrackResult :=
  omap (fun job =>
          if sch_dropped sch (job_trackIndex job) then None
          else match worker_result sch mix job with
               | Ok res => Some res
               | _ => None
               end) jobs.

Definition possible_arrival (sch : Schedule) (mix : bool)
    (jobs : list TrackJob) (arrival : list TrackResult) : Prop :=
  arrival ≡ₚ published sch mix jobs.

(** Whether the worker of one of the jobs panics.  A worker goroutine has
    no [recover]: its panic ends the process. *)
Definition workers_panic (sch : Schedule) (mix : bool) (jobs : list TrackJob)
    : bool :=
  existsb (fun job =>
             negb (sch_dropped sch (job_trackIndex job)) &&
             match worker_result sch mix job with
             | Panic => true
             | _ => false
             end) jobs.

(** The jobs the generator has sent after at most [fuel] iterations. *)
Fixpoint gen_sent (fuel : nat) (conv : Converter) (st : GenState)
    : list TrackJob :=
  match fuel with
  | O => gs_jobs st
  | Datatypes.S fuel' =>
    if loop_guard (totalSize_of (discType conv)) (gs_c st) (gs_tr st)
    then match gen_body conv st with
         | GenContinue st' => gen_sent fuel' conv st'
         | GenReturn st' => gs_jobs st'
         end
    else gs_jobs st
  end.

(** [ConvertParallel], for the decisions [sch] of the scheduler and the
    results arriving in the order [arrival].  [None] when the fuel runs out
    before the generator ends and no worker has panicked. *)
Definition ConvertParallel (fuel : nat) (conv : Converter) (sch : Schedule)
    (arrival : list TrackResult) : option par_result :=
  if env_create_ok E then
    if workers_panic sch (mixColors conv) (gen_sent fuel conv (initial_gen conv))
    then Some WorkerPanic
    else
      match gen_loop fuel conv (initial_gen conv) with
      | None => None
      | Some gs =>
        Some (Returned {| par_ret := None;
                          par_collector := Some (collect arrival);
                          par_jobs := gs_jobs gs |})
      end
  else Some (Returned {| par_ret := Some ErrCreate; par_collector := None;
                         par_jobs := [] |}).

(** *** The entry point *)

(** The parameter resolution of [burnImage]: the preset to use, if any. *)
Definition choose_preset (discType : string) (tr0 dtr : Q) (preset : string)
    : error + option DiscPreset :=
  if negb (String.eqb preset "") then
    let '(discPreset, found) := GetPresetByName preset in
    if negb found then inl ErrPresetUnknown
    else if negb (String.eqb (DiscType discPreset) discType)
    then inl ErrPresetDisc
    else inr (Some discPreset)
  else if Qeq_bool tr0 0 || Qeq_bool dtr 0
  then inr (Some (GetDefaultPreset discType))
  else inr None.

Definition rejected (e : error) : BurnReport :=
  {| burn_ret := Some e; burn_started := None; burn_output := false |}.

(** [burnImage] handles the main burning logic. *)
Definition burnImage (discType : string) (tr0 dtr r0 : Q) (mixColors : bool)
    (preset : string) (useMultithread : bool)
    (fuel : nat) (sch : Schedule) (arrival : list TrackResult)
    : option (result BurnReport) :=
  let discType := ToLower discType in
  if negb (String.eqb discType "cd") && negb (String.eqb discType "dvd")
  then Some (Ok (rejected ErrInvalidDisc))
  else if negb (env_load_ok E) then Some (Ok (rejected ErrLoadImage))
  else
    match choose_preset discType tr0 dtr preset with
    | inl e => Some (Ok (rejected e))
    | inr usePreset =>
      let '(finalTr0, finalDtr, finalR0) :=
        match usePreset with
        | Some p => (Tr0 p, Dtr p, R0 p)
        | None => (tr0, dtr, r0)
        end in
      let converter :=
        SetCancelCallback
          (SetProgressCallback
             (NewConverter finalTr0 finalDtr finalR0 mixColors discType))
          (env_cancelled E) in
      let finish (convErr : option error) (output : bool) :=
        match convErr with
        | Some e =>
          if env_interrupted E
          then {| burn_ret := None;
                  burn_started := Some (finalTr0, finalDtr, finalR0);
                  burn_output := output |}
          else {| burn_ret := Some (ErrConversion e);
                  burn_started := Some (finalTr0, finalDtr, finalR0);
                  burn_output := output |}
        | None =>
          {| burn_ret := if output then None else Some ErrNoOutput;
             burn_started := Some (finalTr0, finalDtr, finalR0);
             burn_output := output |}
        end in
      if useMultithread then
        match ConvertParallel fuel converter sch arrival with
        | None => None
        | Some WorkerPanic => Some Panic
        | Some (Returned po) =>
          Some (Ok (finish (par_ret po)
                      (match par_collector po with
                       | Some _ => true
                       | None => false
                       end)))
        end
      else
        match Convert fuel converter with
        | None => None
        | Some (Completed _ _) => Some (Ok (finish None true))
        | Some (Aborted e removed _) =>
          Some (Ok (finish (Some e)
                      (match e with
                       | ErrCreate => false
                       | _ => negb removed
                       end)))
        | Some Crashed => Some Panic
        end
    end.

End Encoder.

(** ** Runs, reachable states and the vocabulary of the properties *)

(** Feeding a list of bytes to the interleaver, one [ad] call each. *)
Fixpoint feed (E : Env) (conv : Converter) (file : list Z) (l : list Z)
    : result (Converter * list Z) :=
  match l with
  | [] => Ok (conv, file)
  | b :: l' => '(conv', file') ← ad E conv b file; feed E conv' file' l'
  end.

(** The bytes that left the interleaver so far, in order: those already
    written to the file and those waiting in the sector buffer. *)
Definition emitted (conv : Converter) (file : list Z) : list Z :=
  file ++ take (Z.to_nat (c conv)) (buffer conv).

(** The shape of the internal state of a converter in use. *)
Definition ring_ok (conv : Converter) : Prop :=
  0 <= pinf conv < 24 /\ 0 <= nh conv < 112 /\
  length (intseq conv) = 2688%nat /\
  0 <= c conv < 2352 /\ length (buffer conv) = 2352%nat.

(** The converters a run of the sequential encoder can hold between two
    calls of [ad]: a new converter, with or without callbacks, after any
    number of bytes. *)
Inductive encoder_state (E : Env) : Converter -> Prop :=
  | es_new tr0 dtr r0 mix disc :
      encoder_state E (NewConverter tr0 dtr r0 mix disc)
  | es_progress conv :
      encoder_state E conv -> encoder_state E (SetProgressCallback conv)
  | es_cancel conv cb :
      encoder_state E conv -> encoder_state E (SetCancelCallback conv cb)
  | es_ad conv b file conv' file' :
      encoder_state E conv -> ad E conv b file = Ok (conv', file') ->
      encoder_state E conv'.

(** The states in which the track loop of [Convert] can be at its head. *)
Inductive loop_reach (E : Env) (conv : Converter) : LoopState -> Prop :=
  | lr_init : loop_reach E conv (initial_loop conv)
  | lr_step st st' :
      loop_reach E conv st ->
      loop_guard (totalSize_of (discType (ls_conv st))) (ls_c st) (ls_tr st) = true ->
      track_body E st = Continue st' ->
      loop_reach E conv st'.

(** The states in which the job generator can be at the head of its loop. *)
Inductive gen_reach (E : Env) (conv : Converter) : GenState -> Prop :=
  | gr_init : gen_reach E conv (initial_gen conv)
  | gr_step st st' :
      gen_reach E conv st ->
      loop_guard (totalSize_of (discType conv)) (gs_c st) (gs_tr st) = true ->
      gen_body E conv st = GenContinue st' ->
      gen_reach E conv st'.

(** Position, in the emitted stream, of the [k]-th byte fed to the
    interleaver: 111 frames later than its own frame, moved by its delay. *)
Definition out_pos (k : nat) : Z :=
  24 * (Z.of_nat k / 24) + 24 * 111 + default 0 (delays !! (k mod 24)%nat).

(** De-interleaving: read the first [n] input positions back from an
    emitted stream. *)
Definition deinterleave (out : list Z) (n : nat) : list Z :=
  (fun k => default 0 (out !! Z.to_nat (out_pos k))) <$> seq 0 n.

(** An environment in which nothing goes wrong: writes succeed and nobody
    cancels. *)
Definition quiet (E : Env) : Prop :=
  (forall content data, env_write_ok E content data = true) /\
  (forall k, env_ctx_done E k = false) /\
  (forall k, 0 <= env_rand E k < 85).

(** An image of a single colour. *)
Definition flat_image (E : Env) (px : Z * Z * Z * Z) : Prop :=
  forall x y, env_img E x y = px.

(** No two neighbours of a list are equal. *)
Fixpoint no_repeat (l : list Z) : Prop :=
  match l with
  | x :: (y :: _) as l' => x <> y /\ no_repeat l'
  | _ => True
  end.

(** A concrete environment for evaluation: a single-colour image whose
    luminance is [g], writes that succeed, nobody cancels. *)
Definition flat_env (g : Z) : Env :=
  {| env_load_ok := true; env_create_ok := true;
     env_write_ok := fun _ _ => true;
     env_img := fun _ _ => (0, 0, 0, 0);
     env_width := 100; env_height := 100;
     env_spiral_xy := fun _ _ _ _ _ => (0, 0);
     env_luma := fun _ _ _ => g;
     env_rand := fun _ => 0;
     env_ctx_done := fun _ => false;
     env_cancelled := fun _ => false;
     env_interrupted := false |}.

(** What a result of [bw], [ad] or [feed] can be from a well-shaped
    converter: never a panic, an error only when a write failed, and
    otherwise a well-shaped converter with [more] appended to the emitted
    bytes and the parameters and callbacks untouched. *)
Definition same_setup (conv conv' : Converter) : Prop :=
  tr0 conv' = tr0 conv /\ dtr conv' = dtr conv /\ r0 conv' = r0 conv /\
  mixColors conv' = mixColors conv /\ discType conv' = discType conv /\
  progressCallback conv' = progressCallback conv /\
  cancelCallback conv' = cancelCallback conv.

Definition sound_step (E : Env) (conv : Converter) (file : list Z)
    (more : list Z) (r : result (Converter * list Z)) : Prop :=
  match r with
  | Ok (conv', file') =>
      ring_ok conv' /\ emitted conv' file' = emitted conv file ++ more /\
      same_setup conv conv'
  | Fail e =>
      e = ErrWrite /\ exists content data, env_write_ok E content data = false
  | Panic => False
  end.

(** The sample phase after one more sample. *)
Definition next_zf (zf : Z) : Z := if zf + 1 >=? 5 then 0 else zf + 1.

(** The bytes the sample loop of a track hands to [ad], for [n] samples
    starting at sample [i] with phase [zf] and [draws] random draws made. *)
Fixpoint track_symbols (E : Env) (mix : bool) (cx cy ri : Q)
    (itr width height zs : Z) (n : nat) (i zf : Z) (draws : nat) : list Z :=
  match n with
  | O => []
  | Datatypes.S n' =>
    let cl := choose_level mix (env_rand E draws)
                (grayAt E cx cy ri i itr width height) zs zf in
    default 0 (palette !! Z.to_nat cl)
    :: track_symbols E mix cx cy ri itr width height zs n' (i + 1)
         (next_zf zf) (if mix then Datatypes.S draws else draws)
  end.

(** The sample phase after [n] samples. *)
Fixpoint phase_after (n : nat) (zf : Z) : Z :=
  match n with
  | O => zf
  | Datatypes.S n' => phase_after n' (next_zf zf)
  end.

(** The bytes the track loop hands to [ad] in the iteration that starts in
    state [st]. *)
Definition symbols_of_track (E : Env) (st : LoopState) : list Z :=
  let itr := trunc (ls_tr st) in
  track_symbols E (mixColors (ls_conv st))
    (inject_Z (env_width E) / 2)%Q (inject_Z (env_height E) / 2)%Q
    (ir * ls_r st / rcd)%Q itr (env_width E) (env_height E) (ls_zs st)
    (Z.to_nat itr) 0 (ls_zf st) (ls_draws st).

(** The reports after the progress call of an iteration. *)
Definition reports_after (st : LoopState) : list Z :=
  if progressCallback (ls_conv st)
  then ls_reports st ++
       [progress_of (ls_c st) (totalSize_of (discType (ls_conv st)))]
  else ls_reports st.

(** The state at the head of the next iteration, when the track of [st] left
    the converter as [conv'] and the file as [file']. *)
Definition next_loop_state (E : Env) (st : LoopState) (conv' : Converter)
    (file' : list Z) : LoopState :=
  let conv := ls_conv st in
  let itr := trunc (ls_tr st) in
  {| ls_conv := conv'; ls_file := file';
     ls_reports := reports_after st;
     ls_tr := (ls_tr st + dtr conv)%Q;
     ls_r := (ls_r st + dtr conv * r0 conv / tr0 conv)%Q;
     ls_c := (ls_c st + ls_tr st)%Q;
     ls_zs := if ls_zs st + 1 >=? 17 then 0 else ls_zs st + 1;
     ls_zf := phase_after (Z.to_nat itr) (ls_zf st);
     ls_track := S (ls_track st);
     ls_draws := if mixColors conv
                 then (Z.to_nat itr + ls_draws st)%nat else ls_draws st;
     ls_fed := ls_fed st ++ symbols_of_track E st |}.

(** Whether the polls at the head of an iteration find the run cancelled. *)
Definition cancel_seen (E : Env) (st : LoopState) : bool :=
  match cancelCallback (ls_conv st) with
  | Some cb => cb (ls_track st)
  | None => false
  end || env_ctx_done E (ls_track st).

(** [n] iterations of the track loop from [st], when each of them is entered
    and continues. *)
Fixpoint run_tracks (E : Env) (n : nat) (st : LoopState) : option LoopState :=
  match n with
  | O => Some st
  | Datatypes.S n' =>
    if loop_guard (totalSize_of (discType (ls_conv st))) (ls_c st) (ls_tr st)
    then match track_body E st with
         | Continue st' => run_tracks E n' st'
         | Stop _ => None
         end
    else None
  end.

(** The gray value of a pixel, as [sampleImage] and [rgbaToGray] compute it
    from the four 16-bit channels. *)
Definition gray_of_pixel (E : Env) (px : Z * Z * Z * Z) : Z :=
  let '(r, g, b, a) := px in
  rgbaToGray E {| R := Z.shiftr r 8 mod 256; G := Z.shiftr g 8 mod 256;
                  B := Z.shiftr b 8 mod 256; A := Z.shiftr a 8 mod 256 |}.

(** The palette byte of a level. *)
Definition palette_byte (level : Z) : Z := default 0 (palette !! Z.to_nat level).

(** What links a fed stream [l] to the converter it leaves behind and to the
    bytes [out] emitted so far: bytes whose position has been reached are in
    [out], the others wait in the ring at their position modulo its size,
    and the first positions, which no byte is ever sent to, read as the
    zeros the ring starts with. *)
Definition interleaver_inv (l : list Z) (conv : Converter) (out : list Z) : Prop :=
  let n := Z.of_nat (length l) in
  let emitted_len := Z.of_nat (length out) in
  pinf conv = n mod 24 /\
  nh conv = (111 + n / 24) mod 112 /\
  emitted_len = 24 * (n / 24) /\
  (forall k x, l !! k = Some x -> out_pos k < emitted_len ->
     out !! Z.to_nat (out_pos k) = Some x) /\
  (forall p, 0 <= p < 95 -> p < emitted_len -> out !! Z.to_nat p = Some 0) /\
  (forall k x, l !! k = Some x -> emitted_len <= out_pos k ->
     intseq conv !! Z.to_nat (out_pos k mod 2688) = Some x) /\
  (forall s, emitted_len <= s < 95 -> intseq conv !! Z.to_nat s = Some 0).

(** A converter as [NewConverter] leaves it, whatever its parameters and
    callbacks. *)
Definition fresh (conv : Converter) : Prop :=
  intseq conv = replicate 2688 0 /\ nh conv = 111 /\ pinf conv = 0 /\
  c conv = 0 /\ length (buffer conv) = 2352%nat.

(** Converters for the concrete runs below. *)
Definition reporting_converter : Converter :=
  SetProgressCallback (NewConverter 10 1 1 false "cd").

(** ** Vocabulary of the collector *)

(** Track [i] with data [d] came in with one of the results [seen], without
    an error. *)
Definition from_result (seen : list TrackResult) (i : Z) (d : list Z) : Prop :=
  exists r, r ∈ seen /\ res_err r = None /\
            res_trackIndex r = i /\ res_data r = d.

(** What holds of the collector after the results [seen], in any order and
    whatever the writes do: the tracks written are 0, 1, ... up to the next
    track to write, the file is their data in that order, and what was
    written or is buffered came in with a result. *)
Definition collector_log_ok (seen : list TrackResult) (col : Collector) : Prop :=
  0 <= nextTrackToWrite col /\
  (col_written col).*1 = seqZ 0 (nextTrackToWrite col) /\
  col_file col = concat (col_written col).*2 /\
  Forall (fun w => from_result seen w.1 w.2) (col_written col) /\
  (forall i d, trackBuffer col !! i = Some d -> from_result seen i d).

(** The data that came in, by track index. *)
Definition arrived (seen : list TrackResult) : gmap Z (list Z) :=
  list_to_map ((fun r => (res_trackIndex r, res_data r)) <$> seen).

(** What holds of the collector, between two results, when the tracks [M]
    came in, each once, none with an error, and no write failed: the tracks
    below the next one are written with their data, the others are buffered,
    and the next one has not come in yet. *)
Definition collector_inv (M : gmap Z (list Z)) (col : Collector) : Prop :=
  0 <= nextTrackToWrite col /\
  (forall i, 0 <= i < nextTrackToWrite col -> is_Some (M !! i)) /\
  (forall i, trackBuffer col !! i =
             if decide (0 <= i < nextTrackToWrite col) then None else M !! i) /\
  col_written col =
    (fun i => (i, default [] (M !! i))) <$> seqZ 0 (nextTrackToWrite col) /\
  col_file col = concat (col_written col).*2.

(** [n] iterations of the job generator from [st], when each of them is
    entered and sends its job. *)
Fixpoint run_gen (E : Env) (n : nat) (conv : Converter) (st : GenState)
    : option GenState :=
  match n with
  | O => Some st
  | Datatypes.S n' =>
    if loop_guard (totalSize_of (discType conv)) (gs_c st) (gs_tr st)
    then match gen_body E conv st with
         | GenContinue st' => run_gen E n' conv st'
         | GenReturn _ => None
         end
    else None
  end.

(** A schedule in which no worker sees a cancellation and every result is
    sent. *)
Definition quiet_schedule : Schedule :=
  {| sch_done := fun _ _ => false;
     sch_rand := fun _ _ => 0;
     sch_dropped := fun _ => false |}.

(** The converter of the concrete comparison of the sample phases. *)
Definition phase_converter : Converter := NewConverter 48 1 1 false "cd".

(** The worker-failure scenario: the context is cancelled when ten jobs have
    been sent, and the worker of track 5 finds it cancelled at its fourth
    sample. *)
Definition cancel_env : Env :=
  {| env_load_ok := true; env_create_ok := true;
     env_write_ok := fun _ _ => true;
     env_img := fun _ _ => (0, 0, 0, 0);
     env_width := 100; env_height := 100;
     env_spiral_xy := fun _ _ _ _ _ => (0, 0);
     env_luma := fun _ _ _ => 7;
     env_rand := fun _ => 0;
     env_ctx_done := fun k => (20 <=? k)%nat;
     env_cancelled := fun _ => false;
     env_interrupted := true |}.

Definition failing_schedule : Schedule :=
  {| sch_done := fun track i => (track =? 5) && (3 <=? i);
     sch_rand := fun _ _ => 0;
     sch_dropped := fun _ => false |}.

Definition small_converter : Converter := NewConverter 10 1 1 false "cd".

(** The converter of the concrete flat-gray case: [tr0 = 1000], [dtr = 0],
    [r0 = 24.5], disc type cd. *)
Definition flat_converter (mix : bool) : Converter :=
  NewConverter 1000 0 24.5 mix "cd".

(** The number of tracks of that case: [floor (800 * 1024 * 1024 / 1000)]. *)
Definition flat_tracks : nat := Z.to_nat (CDTotalSize / 1000).

(** What holds at the head of the track loop in that case. *)
Definition flat_state (E : Env) (mix : bool) (st : LoopState) : Prop :=
  loop_reach E (flat_converter mix) st /\
  ls_tr st = 1000%Q /\
  ls_c st = inject_Z (1000 * Z.of_nat (ls_track st)).

(** An environment in which [burnImage]'s cancel flag is already set at the
    first poll. *)
Definition interrupted_env : Env :=
  {| env_load_ok := true; env_create_ok := true;
     env_write_ok := fun _ _ => true;
     env_img := fun _ _ => (0, 0, 0, 0);
     env_width := 100; env_height := 100;
     env_spiral_xy := fun _ _ _ _ _ => (0, 0);
     env_luma := fun _ _ _ => 0;
     env_rand := fun _ => 0;
     env_ctx_done := fun _ => false;
     env_cancelled := fun _ => true;
     env_interrupted := true |}.

(** The parallel pipeline with interleaving added, as the design document
    asks for it (this is not in the code): the reassembled tracks are handed
    to [ad] byte by byte, in the order of the tracks, by a converter of
    their own, and what is left in the sector buffer is flushed at the
    end. *)
Definition interleave_tracks (E : Env) (conv : Converter)
    (tracks : list (list Z)) : result (list Z) :=
  '(conv', file') ← feed E conv [] (concat tracks);
  Ok (emitted conv' file').

(** The concrete comparison of the two drivers: a single-colour image of
    gray value 6 and the valid parameters [tr0 = 3001], [dtr = 1],
    [r0 = 1]. *)
Definition divergence_converter : Converter := NewConverter 3001 1 1 false "cd".


(** ** The multi-threaded converter's configuration *)

(** [MultiThreadedConverter]: the embedded converter, the number of workers
    and the capacities the two channels were made with. *)
Record MultiThreadedConverter : Type := mkMultiThreaded {
  mt_Converter : Converter;
  numWorkers : Z;
  jobs_cap : Z;        (* cap(mtconv.jobs) *)
  results_cap : Z      (* cap(mtconv.results) *)
}.

(** [NewMultiThreadedConverter]; [numCPU] is the value of
    [runtime.NumCPU()]. *)
Definition NewMultiThreadedConverter (numCPU : Z) (tr0 dtr r0 : Q)
    (mixColors : bool) (discType : string) : MultiThreadedConverter :=
  let numWorkers := numCPU in
  let numWorkers := if numWorkers >? 8 then 8 else numWorkers in
  {| mt_Converter := NewConverter tr0 dtr r0 mixColors discType;
     numWorkers := numWorkers;
     jobs_cap := numWorkers * 2;
     results_cap := numWorkers * 2 |}.

(** [SetNumWorkers] allows customizing the number of worker goroutines. *)
Definition SetNumWorkers (mtconv : MultiThreadedConverter) (n : Z)
    : MultiThreadedConverter :=
  if (n >? 0) && (n <=? 16)
  then {| mt_Converter := mt_Converter mtconv; numWorkers := n;
          jobs_cap := jobs_cap mtconv; results_cap := results_cap mtconv |}
  else mtconv.

(** ** The entry point of the visualizer *)

(** A [float64] argument as the command line delivers it: a number, an
    infinity or NaN (the flag parser accepts "NaN" and "Inf").  A number is
    the rational it denotes; [visualizeTrack] only compares and copies its
    arguments. *)
Inductive float64_arg : Type :=
  | Finite (q : Q)
  | PlusInf
  | MinusInf
  | NaN.

(** [x == 0] and [x <= 0]; every comparison with NaN is false. *)
Definition arg_eq_zero (x : float64_arg) : bool :=
  match x with
  | Finite q => Qeq_bool q 0
  | _ => false
  end.

Definition arg_le_zero (x : float64_arg) : bool :=
  match x with
  | Finite q => Qle_bool q 0
  | MinusInf => true
  | PlusInf | NaN => false
  end.

Inductive vis_error : Type :=
  | VisNoTrackFile       (* "track file is required" *)
  | VisDiscType          (* "disc type must be 'cd' or 'dvd'" *)
  | VisPresetUnknown     (* "preset not found" *)
  | VisInvalidParameters (* "invalid parameters ... (all must be > 0)" *)
  | VisFailed.           (* "visualization failed: %w" *)

(** What [visualizeTrack] did: the error it returned and, when it got as far
    as creating a visualizer, the arguments of [NewTrackVisualizer]. *)
Record VisReport : Type := mkVis {
  vis_ret : option vis_error;
  vis_started : option (float64_arg * float64_arg * float64_arg * string)
}.

Definition vis_rejected (e : vis_error) : VisReport :=
  {| vis_ret := Some e; vis_started := None |}.

(** [visualizeTrack] creates a visual representation of a raw track file.
    [run_ok] says whether [visualizer.VisualizeTrack] succeeds. *)
Definition visualizeTrack (run_ok : bool) (trackFile discType : string)
    (tr0 dtr r0 : float64_arg) (preset : string) : VisReport :=
  if String.eqb trackFile "" then vis_rejected VisNoTrackFile
  else
    let discType := ToLower discType in
    if negb (String.eqb discType "cd") && negb (String.eqb discType "dvd")
    then vis_rejected VisDiscType
    else
      let resolved : vis_error + float64_arg * float64_arg :=
        if negb (String.eqb preset "") then
          let '(presetData, found) := GetPresetByName preset in
          if negb found then inl VisPresetUnknown
          else
            let tr0 := if arg_eq_zero tr0 then Finite (Tr0 presetData) else tr0 in
            let dtr := if arg_eq_zero dtr then Finite (Dtr presetData) else dtr in
            inr (tr0, dtr)
        else if arg_eq_zero tr0 || arg_eq_zero dtr then
          let defaultKey :=
            if String.eqb discType "cd" then "verbatim-cd-rw-1"
            else "generic-dvd-r" in
          match GetPresets !! defaultKey with
          | Some defaultPreset =>
            let tr0 :=
              if arg_eq_zero tr0 then Finite (Tr0 defaultPreset) else tr0 in
            let dtr :=
              if arg_eq_zero dtr then Finite (Dtr defaultPreset) else dtr in
            inr (tr0, dtr)
          | None => inr (tr0, dtr)
          end
        else inr (tr0, dtr) in
      match resolved with
      | inl e => vis_rejected e
      | inr (tr0, dtr) =>
        if arg_le_zero tr0 || arg_le_zero dtr || arg_le_zero r0
        then vis_rejected VisInvalidParameters
        else {| vis_ret := if run_ok then None else Some VisFailed;
                vis_started := Some (tr0, dtr, r0, discType) |}
      end.

(** ** Vocabulary of the further properties *)

(** What a run of the track loop may return from a well-shaped converter:
    a completed run ends in a reachable state in which the loop condition
    is false, and its file holds every byte that left the interleaver; an
    aborted run removed its file exactly when it was cancelled; nothing
    else. *)
Definition outcome_ok (E : Env) (conv : Converter) (o : outcome) : Prop :=
  match o with
  | Completed st file =>
      loop_reach E conv st /\
      loop_guard (totalSize_of (discType (ls_conv st))) (ls_c st) (ls_tr st)
      = false /\
      file = emitted (ls_conv st) (ls_file st)
  | Aborted e removed reps =>
      ((e = ErrCancelled \/ e = ErrContext) /\ removed = true) \/
      ((e = ErrWrite \/ e = ErrFinalWrite) /\ removed = false /\
       exists content data, env_write_ok E content data = false)
  | Crashed => False
  end.

(** The variables of a track loop after [n] iterations, computed by the
    additions both drivers make: the samples per turn, the radius, the
    accumulated sample count and the ring phase. *)
Record Spiral : Type := mkSpiral {
  sp_tr : Q;
  sp_r : Q;
  sp_c : Q;
  sp_zs : Z
}.

Fixpoint spiral_at (conv : Converter) (n : nat) : Spiral :=
  match n with
  | O => {| sp_tr := tr0 conv; sp_r := r0 conv; sp_c := 0%Q; sp_zs := 0 |}
  | Datatypes.S n' =>
    let s := spiral_at conv n' in
    {| sp_tr := (sp_tr s + dtr conv)%Q;
       sp_r := (sp_r s + dtr conv * r0 conv / tr0 conv)%Q;
       sp_c := (sp_c s + sp_tr s)%Q;
       sp_zs := if sp_zs s + 1 >=? 17 then 0 else sp_zs s + 1 |}
  end.

(** The job the generator builds in iteration [n], from these values. *)
Definition job_at (E : Env) (conv : Converter) (n : nat) : TrackJob :=
  let s := spiral_at conv n in
  {| job_trackIndex := Z.of_nat n; job_tr := sp_tr s; job_r := sp_r s;
     job_rcd := rcd;
     job_cx := (inject_Z (env_width E) / 2)%Q;
     job_cy := (inject_Z (env_height E) / 2)%Q;
     job_ir := ir; job_itr := trunc (sp_tr s);
     job_zs := sp_zs s; job_zf := 0 |}.

(** The file holds whole sectors only. *)
Definition sector_aligned (file : list Z) : Prop :=
  (SectorSize | Z.of_nat (length file)).

(** A schedule in which the worker of a job never finds the context
    cancelled. *)
Definition undisturbed (sch : Schedule) (job : TrackJob) : Prop :=
  forall i, sch_done sch (job_trackIndex job) i = false.

(** A converter whose cancel callback answers true from its third call
    on. *)
Definition cancelling_converter : Converter :=
  SetCancelCallback (SetProgressCallback (NewConverter 10 1 1 false "cd"))
    (fun k => (2 <=? k)%nat).


(** The number of samples of the tracks before track [n]. *)
Fixpoint samples_before (conv : Converter) (n : nat) : nat :=
  match n with
  | O => O
  | Datatypes.S n' =>
    (samples_before conv n' + Z.to_nat (trunc (sp_tr (spiral_at conv n'))))%nat
  end.

(** The loop condition of both drivers at the head of iteration [n]. *)
Definition guard_at (conv : Converter) (n : nat) : bool :=
  loop_guard (totalSize_of (discType conv))
    (sp_c (spiral_at conv n)) (sp_tr (spiral_at conv n)).

(** The keys of the presets. *)
Definition preset_names : list string :=
  [ "verbatim-cd-rw-1"; "verbatim-cd-rw-2"; "eperformance-cd-rw"; "tdk-cd-rw";
    "generic-dvd-r"; "generic-dvd-rw"; "verbatim-dvd-r"; "sony-dvd-rw" ].

(** A preset a conversion can run with. *)
Definition preset_ok (p : DiscPreset) : Prop :=
  (0 < Tr0 p)%Q /\ (0 < Dtr p)%Q /\ (0 < R0 p)%Q /\
  (DiscType p = "cd" \/ DiscType p = "dvd").

(** A disc type [burnImage] and [visualizeTrack] accept. *)
Definition valid_disc (discType : string) : Prop :=
  ToLower discType = "cd" \/ ToLower discType = "dvd".

(** An argument of [visualizeTrack] that is below zero, and one that gets
    past the check [x <= 0]: a positive number, plus infinity or NaN. *)
Definition arg_negative (x : float64_arg) : Prop :=
  match x with
  | Finite q => (q < 0)%Q
  | MinusInf => True
  | PlusInf | NaN => False
  end.

Definition arg_passes (x : float64_arg) : Prop :=
  match x with
  | Finite q => (0 < q)%Q
  | PlusInf | NaN => True
  | MinusInf => False
  end.

(** Parameters on which the arithmetic of the track loops is exact in
    binary64: [tr0 = a] and [dtr = b] are whole numbers below 2^52, so that
    every [tr] and [c] the loops compute is a whole number below 2^53, and
    sums, comparisons and [int(tr)] are computed without rounding. *)
Definition whole_parameters (conv : Converter) (a b : Z) : Prop :=
  tr0 conv = inject_Z a /\ dtr conv = inject_Z b /\
  0 < a < 2 ^ 52 /\ 0 <= b < 2 ^ 52.

(** The samples of the first [n] tracks for such parameters:
    [n * a + b * (0 + 1 + ... + (n - 1))]. *)
Definition whole_samples (a b : Z) (n : nat) : Z :=
  Z.of_nat n * a + b * (Z.of_nat n * (Z.of_nat n - 1) / 2).


(** * Properties *)

(** ** Arrays and counted loops *)

Lemma aget_ok {A : Type} (a : list A) (i : Z) (x : A) :
  0 <= i -> a !! Z.to_nat i = Some x -> aget a i = Ok x.
Proof.
  intros Hi Hx. unfold aget.
  destruct (Z.leb_spec 0 i); [|lia]. by rewrite Hx.
Qed.

Lemma aset_ok {A : Type} (a : list A) (i : Z) (x : A) :
  0 <= i < Z.of_nat (length a) -> aset a i x = Ok (<[Z.to_nat i := x]> a).
Proof.
  intros Hi. unfold aset.
  destruct (Z.leb_spec 0 i); [|lia].
  destruct (Z.ltb_spec i (Z.of_nat (length a))); [done|lia].
Qed.

Lemma rbind_Ok {A B : Type} (m : result A) (k : A -> result B) (b : B) :
  (x ← m; k x) = Ok b -> exists a, m = Ok a /\ k a = Ok b.
Proof. destruct m; simpl; intros H; try discriminate. eauto. Qed.

(** ** The sector buffer *)

Section Interleaver.

Variable E : Env.

Lemma bw_sound conv b file :
  ring_ok conv ->
  sound_step E conv file [b] (bw E conv b file) /\
  match bw E conv b file with
  | Ok (conv', _) =>
      intseq conv' = intseq conv /\ nh conv' = nh conv /\ pinf conv' = pinf conv
  | _ => True
  end.
Proof.
  intros (Hp & Hn & Hl & Hc & Hb). unfold bw.
  rewrite aset_ok by lia. simpl.
  assert (Hlen : length (<[Z.to_nat (c conv) := b]> (buffer conv)) = 2352%nat)
    by (by rewrite length_insert).
  assert (Htake : take (S (Z.to_nat (c conv))) (<[Z.to_nat (c conv) := b]> (buffer conv))
                  = take (Z.to_nat (c conv)) (buffer conv) ++ [b]).
  { erewrite take_S_r; [|apply list_lookup_insert_eq; lia].
    by rewrite take_insert_ge by lia. }
  destruct (Z.geb_spec (c conv + 1) SectorSize) as [Hfull|Hroom].
  - unfold SectorSize in Hfull. assert (Hc' : c conv = 2351) by lia.
    unfold file_Write.
    destruct (env_write_ok E file _) eqn:Hw; simpl.
    + split; [|done]. unfold sound_step, ring_ok, emitted; simpl.
      repeat split; try done; try lia.
      change (Z.to_nat 0) with 0%nat. rewrite take_0, app_nil_r.
      rewrite <- (assoc_L (++)). f_equal.
      rewrite <- Htake. rewrite take_ge; [done|lia].
    + split; [|done]. split; eauto.
  - unfold SectorSize in Hroom. split; [|done].
    unfold sound_step, ring_ok, emitted; simpl.
    repeat split; try done; try lia.
    rewrite <- (assoc_L (++)). f_equal.
    replace (Z.to_nat (c conv + 1)) with (S (Z.to_nat (c conv))) by lia.
    done.
Qed.


Lemma sound_step_trans conv file m1 conv1 file1 m2 r :
  sound_step E conv file m1 (Ok (conv1, file1)) ->
  sound_step E conv1 file1 m2 r ->
  sound_step E conv file (m1 ++ m2) r.
Proof.
  intros (Hok & Hem & Heqs) Hr. destruct r as [[conv2 file2]|e|]; simpl in *; try done.
  destruct Hr as (Hok2 & Hem2 & Heqs2).
  split; [done|]. split; [by rewrite Hem2, Hem, (assoc_L (++))|].
  unfold same_setup in *. destruct_and!. repeat split; congruence.
Qed.

Lemma sound_step_refl conv file : ring_ok conv -> sound_step E conv file [] (Ok (conv, file)).
Proof. intros H; simpl. rewrite app_nil_r. done. Qed.

Lemma n2m_read conv i :
  0 <= nh conv < 112 -> 0 <= i < 24 ->
  n2m conv i = nh conv * 24 + i /\ 0 <= n2m conv i < 2688 /\
  n2m conv i = (nh conv * 24 + i) mod 2688.
Proof.
  intros Hn Hi. unfold n2m. simpl.
  destruct (Z.geb_spec (nh conv * 24 + i) (28 * 4 * 24)); [lia|].
  destruct (Z.ltb_spec (nh conv * 24 + i) 0); [lia|].
  rewrite Z.mod_small by lia. lia.
Qed.

Lemma delays_range : Forall (fun d => -2569 <= d <= -72) delays.
Proof.
  unfold delays, D.
  repeat (apply Forall_cons_2; [lia|]). apply Forall_nil_2.
Qed.

Lemma delays_lookup p :
  0 <= p < 24 -> exists d, delays !! Z.to_nat p = Some d /\ -2569 <= d <= -72.
Proof.
  intros Hp.
  destruct (lookup_lt_is_Some_2 delays (Z.to_nat p)) as [d Hd].
  { change (length delays) with 24%nat. lia. }
  exists d. split; [done|].
  exact (proj1 (Forall_lookup _ _) delays_range _ _ Hd).
Qed.

Lemma n2m_write conv d :
  0 <= nh conv < 112 -> -2569 <= d <= -72 ->
  (0 <= n2m conv d < 2688) /\ n2m conv d = (nh conv * 24 + d) mod 2688.
Proof.
  intros Hn Hd. unfold n2m. simpl.
  destruct (Z.geb_spec (nh conv * 24 + d) (28 * 4 * 24)); [lia|].
  destruct (Z.ltb_spec (nh conv * 24 + d) 0).
  - split; [lia|].
    rewrite <- (Z.mod_small (nh conv * 24 + d + 28 * 4 * 24) 2688) by lia.
    change (28 * 4 * 24) with (1 * 2688). by rewrite Z.mod_add by lia.
  - rewrite Z.mod_small by lia. lia.
Qed.

(** The 24 reads that follow a frame advance. *)
Lemma read_loop_sound (n : nat) : forall i cv f,
  ring_ok cv -> 0 <= i -> i + Z.of_nat n <= 24 ->
  let r := for_from i n
             (fun i '(cv, f) => x ← aget (intseq cv) (n2m cv i); bw E cv x f)
             (cv, f) in
  sound_step E cv f (take n (drop (Z.to_nat (nh cv * 24 + i)) (intseq cv))) r /\
  match r with
  | Ok (cv', _) =>
      intseq cv' = intseq cv /\ nh cv' = nh cv /\ pinf cv' = pinf cv
  | _ => True
  end.
Proof.
  induction n as [|n IH]; intros i cv f Hok Hi Hn; simpl.
  - split; [|done]. rewrite app_nil_r. done.
  - destruct (n2m_read cv i) as (Hidx & Hrange & _); [unfold ring_ok in Hok; lia..|].
    destruct (lookup_lt_is_Some_2 (intseq cv) (Z.to_nat (nh cv * 24 + i))) as [x Hx].
    { unfold ring_ok in Hok. lia. }
    rewrite Hidx. rewrite (aget_ok _ _ x) by (done || lia). simpl.
    destruct (bw_sound cv x f Hok) as [Hs Hring].
    destruct (bw E cv x f) as [[cv1 f1]|e|] eqn:Hbw; simpl in *; try done.
    destruct Hring as (Hseq & Hnh & Hpinf).
    specialize (IH (i + 1) cv1 f1 (proj1 Hs) ltac:(lia) ltac:(lia)).
    simpl in IH. destruct IH as [IH1 IH2].
    rewrite (drop_S _ x _ Hx). simpl.
    split.
    + eapply (sound_step_trans cv f [x]); [exact Hs|].
      rewrite Hseq, Hnh in IH1.
      replace (S (Z.to_nat (nh cv * 24 + i))) with (Z.to_nat (nh cv * 24 + (i + 1))) by lia.
      exact IH1.
    + destruct (for_from _ _ _ _) as [[cv2 f2]|?|]; try done.
      destruct IH2 as (-> & -> & ->). done.
Qed.


(** [ad] on a well-shaped converter: the byte goes to its delayed slot, and
    the 24th byte of a frame advances the frame and emits one row. *)
Lemma ad_sound conv b file :
  ring_ok conv ->
  exists d, delays !! Z.to_nat (pinf conv) = Some d /\
  let slot := (nh conv * 24 + d) mod 2688 in
  let seq' := <[Z.to_nat slot := b]> (intseq conv) in
  let last := bool_decide (pinf conv = 23) in
  let nh' := if last then (nh conv + 1) mod 112 else nh conv in
  let more := if last then take 24 (drop (Z.to_nat (nh' * 24)) seq') else [] in
  sound_step E conv file more (ad E conv b file) /\
  match ad E conv b file with
  | Ok (conv', _) =>
      intseq conv' = seq' /\ nh conv' = nh' /\
      pinf conv' = (if last then 0 else pinf conv + 1)
  | _ => True
  end.
Proof.
  intros Hok. pose proof Hok as (Hp & Hn & Hl & Hc & Hb).
  destruct (delays_lookup (pinf conv) Hp) as (d & Hd & Hdr).
  exists d. split; [done|]. simpl.
  destruct (n2m_write conv d Hn Hdr) as [Hrange Hmod].
  unfold ad. rewrite (aget_ok _ _ d) by (done || lia). simpl.
  rewrite aset_ok by lia. simpl. rewrite Hmod.
  set (seq' := <[Z.to_nat ((nh conv * 24 + d) mod 2688) := b]> (intseq conv)).
  assert (Hl' : length seq' = 2688%nat) by (unfold seq'; by rewrite length_insert).
  destruct (Z.geb_spec (pinf conv + 1) 24) as [Hlast|Hmore].
  - assert (Hp23 : pinf conv = 23) by lia.
    rewrite bool_decide_true by done.
    set (nh' := if nh conv + 1 >=? 28 * 4 then 0 else nh conv + 1).
    assert (Hnh' : nh' = (nh conv + 1) mod 112 /\ 0 <= nh' < 112).
    { unfold nh'. destruct (Z.geb_spec (nh conv + 1) (28 * 4)).
      - assert (nh conv = 111) by lia. split; [|lia].
        replace (nh conv + 1) with 112 by lia. done.
      - rewrite Z.mod_small by lia. lia. }
    destruct Hnh' as [Hnh'eq Hnh'r].
    set (conv2 := with_ring _ _ _ _).
    assert (Hok2 : ring_ok conv2) by (unfold ring_ok, conv2; simpl; lia).
    pose proof (read_loop_sound 24 0 conv2 file Hok2 ltac:(lia) ltac:(lia)) as [H1 H2].
    cbv zeta in H1, H2. unfold for_range. change (Z.to_nat 24) with 24%nat.
    change (nh conv2) with nh' in H1. change (intseq conv2) with seq' in H1, H2.
    change (nh conv2) with nh' in H2. change (pinf conv2) with 0 in H2.
    rewrite <- Hnh'eq.
    replace (nh' * 24 + 0) with (nh' * 24) in H1 by lia.
    split.
    + by destruct (for_from 0 24 _ _) as [[cv f]|e|].
    + by destruct (for_from 0 24 _ _) as [[cv f]|e|].
  - rewrite bool_decide_false by lia. simpl.
    split; [|done]. unfold ring_ok, emitted; simpl.
    rewrite app_nil_r. repeat split; try done; lia.
Qed.

Lemma ad_ring_ok conv b file conv' file' :
  ring_ok conv -> ad E conv b file = Ok (conv', file') -> ring_ok conv'.
Proof.
  intros Hok Had. destruct (ad_sound conv b file Hok) as (d & _ & Hs & _).
  rewrite Had in Hs. apply Hs.
Qed.

Lemma encoder_state_ring_ok conv : encoder_state E conv -> ring_ok conv.
Proof.
  induction 1 as [| | |conv b file conv' file' _ IH Had].
  - unfold ring_ok, NewConverter. cbn [pinf nh intseq c buffer].
    rewrite !length_replicate. unfold SectorSize, D. lia.
  - done.
  - done.
  - eauto using ad_ring_ok.
Qed.

End Interleaver.

(** ** Feeding a stream, and the sample loop as a feed *)

Section Feeding.

Variable E : Env.

Lemma feed_app conv file l1 l2 :
  feed E conv file (l1 ++ l2) =
  ('(conv', file') ← feed E conv file l1; feed E conv' file' l2).
Proof.
  revert conv file. induction l1 as [|b l1 IH]; intros conv file; simpl; [done|].
  destruct (ad E conv b file) as [[conv1 file1]|e|]; simpl; [apply IH|done..].
Qed.

Lemma feed_sound l : forall conv file,
  ring_ok conv -> exists more, sound_step E conv file more (feed E conv file l).
Proof.
  induction l as [|b l IH]; intros conv file Hok; simpl.
  - exists []. by apply sound_step_refl.
  - destruct (ad_sound E conv b file Hok) as (d & _ & Hs & _).
    cbv zeta in Hs.
    destruct (ad E conv b file) as [[conv1 file1]|e|]; simpl; [|eauto..].
    destruct (IH conv1 file1 (proj1 Hs)) as [more Hmore].
    eexists. eapply sound_step_trans; eauto.
Qed.

Lemma sound_step_quiet conv file more r :
  (forall content data, env_write_ok E content data = true) ->
  sound_step E conv file more r ->
  exists conv' file', r = Ok (conv', file').
Proof.
  intros Hw Hs. destruct r as [[conv' file']|e|]; simpl in Hs; [eauto| |done].
  destruct Hs as (_ & content & data & Hf). rewrite Hw in Hf. done.
Qed.

Lemma choose_level_range mix draw g zs zf :
  0 <= g < 256 -> 0 <= choose_level mix draw g zs zf <= 3.
Proof.
  intros Hg. unfold choose_level.
  assert (H1 : 0 <= g / 85 <= 3).
  { split; [apply Z.div_pos; lia|]. apply Z.div_le_upper_bound; lia. }
  rewrite (Z.mod_small (g / 85 + 1)) by lia.
  destruct (Z.gtb_spec (g / 85 + 1) 3);
    repeat match goal with |- context [if ?b then _ else _] => destruct b end; lia.
Qed.

Lemma grayAt_range cx cy ri i itr w h : 0 <= grayAt E cx cy ri i itr w h < 256.
Proof.
  unfold grayAt. destruct (env_spiral_xy E cx cy ri i itr) as [xi yi].
  unfold rgbaToGray. apply Z.mod_pos_bound. lia.
Qed.

Lemma palette_lookup cl :
  0 <= cl <= 3 -> aget palette cl = Ok (default 0 (palette !! Z.to_nat cl)).
Proof.
  intros Hcl.
  destruct (lookup_lt_is_Some_2 palette (Z.to_nat cl)) as [x Hx].
  { change (length palette) with 4%nat. lia. }
  rewrite Hx. simpl. apply aget_ok; [lia|done].
Qed.

Lemma sample_body_unfold mix cx cy ri itr w h zs i s :
  sample_body E mix cx cy ri itr w h zs i s =
  let b := default 0 (palette !! Z.to_nat
             (choose_level mix (env_rand E (ss_draws s))
                (grayAt E cx cy ri i itr w h) zs (ss_zf s))) in
  '(conv', file') ← ad E (ss_conv s) b (ss_file s);
  Ok {| ss_conv := conv'; ss_file := file';
        ss_zf := next_zf (ss_zf s);
        ss_draws := if mix then S (ss_draws s) else ss_draws s;
        ss_fed := ss_fed s ++ [b] |}.
Proof.
  unfold sample_body.
  rewrite palette_lookup by (apply choose_level_range, grayAt_range).
  done.
Qed.

(** The sample loop of [Convert] feeds the symbols of the track. *)
Lemma sample_loop_feed mix cx cy ri itr w h zs (n : nat) : forall i s,
  for_from i n (sample_body E mix cx cy ri itr w h zs) s =
  let syms := track_symbols E mix cx cy ri itr w h zs n i (ss_zf s) (ss_draws s) in
  '(conv', file') ← feed E (ss_conv s) (ss_file s) syms;
  Ok {| ss_conv := conv'; ss_file := file';
        ss_zf := phase_after n (ss_zf s);
        ss_draws := if mix then (n + ss_draws s)%nat else ss_draws s;
        ss_fed := ss_fed s ++ syms |}.
Proof.
  induction n as [|n IH]; intros i s; cbn [for_from track_symbols feed phase_after].
  - cbv zeta. simpl. rewrite app_nil_r. destruct s, mix; done.
  - cbv zeta. rewrite sample_body_unfold. cbv zeta.
    cbn [mbind result_bind rbind].
    destruct (ad E (ss_conv s) _ (ss_file s)) as [[conv1 file1]|e|]; [|done..].
    cbn [mbind result_bind rbind]. rewrite IH. cbv zeta. cbn [ss_conv ss_file ss_zf ss_draws ss_fed].
    destruct (feed E conv1 file1 _) as [[conv2 file2]|e|]; [|done..].
    cbn [mbind result_bind rbind]. f_equal. f_equal.
    + destruct mix; [lia|done].
    + by rewrite <- (assoc_L (++)).
Qed.

End Feeding.

(** ** One iteration of the track loop *)

Section TrackLoop.

Variable E : Env.

(** An iteration of the track loop, when no cancellation is seen, feeds the
    symbols of its track and moves on; the filling loop never runs. *)
Lemma track_body_feed st :
  cancel_seen E st = false ->
  track_body E st =
  match feed E (ls_conv st) (ls_file st) (symbols_of_track E st) with
  | Ok (conv', file') => Continue (next_loop_state E st conv' file')
  | Fail e => Stop (Aborted e false (reports_after st))
  | Panic => Stop Crashed
  end.
Proof.
  unfold cancel_seen. intros [Hcb Hctx]%orb_false_elim.
  unfold track_body. rewrite Hcb, Hctx.
  unfold for_range. rewrite sample_loop_feed. cbv zeta.
  cbn [ss_conv ss_file ss_zf ss_draws ss_fed].
  fold (symbols_of_track E st). fold (reports_after st).
  destruct (feed E (ls_conv st) (ls_file st) (symbols_of_track E st))
    as [[conv' file']|e|]; cbn [mbind result_bind rbind]; [|done..].
  rewrite Z.sub_diag. change (Z.to_nat 0) with O. cbn [fill_loop].
  cbn [ss_conv ss_file ss_zf ss_draws ss_fed]. done.
Qed.

Lemma track_body_cancelled st :
  cancel_seen E st = true ->
  exists e, track_body E st = Stop (Aborted e true (ls_reports st)).
Proof.
  unfold cancel_seen, track_body. intros H.
  destruct (match cancelCallback (ls_conv st) with Some cb => cb (ls_track st) | None => false end);
    [eauto|].
  simpl in H. rewrite H. eauto.
Qed.

(** What an iteration that continues has done. *)
Lemma track_body_Continue st st' :
  ring_ok (ls_conv st) ->
  track_body E st = Continue st' ->
  exists conv' file' more,
    feed E (ls_conv st) (ls_file st) (symbols_of_track E st) = Ok (conv', file') /\
    sound_step E (ls_conv st) (ls_file st) more (Ok (conv', file')) /\
    st' = next_loop_state E st conv' file'.
Proof.
  intros Hok Hb.
  destruct (cancel_seen E st) eqn:Hc.
  { destruct (track_body_cancelled st Hc) as [e He]. congruence. }
  rewrite (track_body_feed st Hc) in Hb.
  destruct (feed_sound E (symbols_of_track E st) (ls_conv st) (ls_file st) Hok)
    as [more Hmore].
  destruct (feed E (ls_conv st) (ls_file st) (symbols_of_track E st))
    as [[conv' file']|e|]; [|done..].
  exists conv', file', more. split; [done|]. split; [done|]. congruence.
Qed.

(** In a quiet environment an iteration always continues. *)
Lemma track_body_quiet st :
  quiet E -> ring_ok (ls_conv st) -> cancel_seen E st = false ->
  exists conv' file' more,
    sound_step E (ls_conv st) (ls_file st) more (Ok (conv', file')) /\
    track_body E st = Continue (next_loop_state E st conv' file').
Proof.
  intros (Hw & _ & _) Hok Hc. rewrite (track_body_feed st Hc).
  destruct (feed_sound E (symbols_of_track E st) (ls_conv st) (ls_file st) Hok)
    as [more Hmore].
  destruct (sound_step_quiet E _ _ _ _ Hw Hmore) as (conv' & file' & Heq).
  rewrite Heq in *. eauto.
Qed.

End TrackLoop.

(** ** Rationals, truncation and the progress value *)

Lemma trunc_floor (q : Q) : (0 <= q)%Q -> trunc q = Qfloor q.
Proof.
  destruct q as [n d]. unfold Qle, trunc, Qfloor; simpl. intros H.
  apply Z.quot_div_nonneg; lia.
Qed.

Lemma Qltb_true (x y : Q) : Qltb x y = true <-> (x < y)%Q.
Proof.
  unfold Qltb. rewrite negb_true_iff, <- not_true_iff_false, Qle_bool_iff.
  split; [apply Qnot_le_lt | apply Qlt_not_le].
Qed.

Lemma Qltb_false (x y : Q) : Qltb x y = false <-> (y <= x)%Q.
Proof.
  unfold Qltb. rewrite negb_false_iff, Qle_bool_iff. done.
Qed.

Lemma totalSize_pos disc : 0 < totalSize_of disc.
Proof. unfold totalSize_of. destruct (String.eqb disc "dvd"); done. Qed.

Lemma progress_floor cq T :
  (0 <= cq)%Q -> 0 < T -> progress_of cq T = Qfloor (100 * cq / inject_Z T).
Proof.
  intros Hc HT. unfold progress_of. apply trunc_floor.
  apply Qle_shift_div_l.
  - change 0%Q with (inject_Z 0). rewrite <- Zlt_Qlt. done.
  - lra.
Qed.

Lemma progress_mono c1 c2 T :
  (0 <= c1)%Q -> (c1 <= c2)%Q -> 0 < T -> progress_of c1 T <= progress_of c2 T.
Proof.
  intros H1 H2 HT. rewrite !progress_floor by (done || lra).
  apply Qfloor_resp_le.
  apply Qmult_le_compat_r; [lra|].
  apply Qinv_le_0_compat. change 0%Q with (inject_Z 0). rewrite <- Zle_Qle. lia.
Qed.

(** ** Reachable states of the track loop *)

Section Runs.

Variable E : Env.
Variable conv : Converter.
Hypothesis conv_ok : ring_ok conv.

Lemma loop_reach_setup st :
  loop_reach E conv st -> ring_ok (ls_conv st) /\ same_setup conv (ls_conv st).
Proof.
  induction 1 as [|st st' _ [IHok IHsame] _ Hbody].
  - by split.
  - destruct (track_body_Continue E st st' IHok Hbody)
      as (conv' & file' & more & _ & (Hok' & _ & Hsame') & ->).
    split; [done|]. unfold same_setup in *. cbn [ls_conv next_loop_state].
    destruct_and!. repeat split; congruence.
Qed.

Lemma run_tracks_reach n : forall st st',
  loop_reach E conv st -> run_tracks E n st = Some st' -> loop_reach E conv st'.
Proof.
  induction n as [|n IH]; intros st st' Hst Hrun; simpl in Hrun.
  - congruence.
  - destruct (loop_guard _ _ _) eqn:Hg; [|done].
    destruct (track_body E st) as [st1|] eqn:Hb; [|done].
    eapply IH; [|exact Hrun]. eapply lr_step; eauto.
Qed.

(** Each iteration extends the trace of symbols and the reports. *)
Lemma loop_reach_step_fed st st' :
  loop_reach E conv st -> track_body E st = Continue st' ->
  ls_fed st' = ls_fed st ++ symbols_of_track E st /\
  ls_reports st' = reports_after st /\
  ls_track st' = S (ls_track st).
Proof.
  intros Hst Hb. destruct (loop_reach_setup st Hst) as [Hok _].
  destruct (track_body_Continue E st st' Hok Hb) as (conv' & file' & more & _ & _ & ->).
  done.
Qed.


Lemma feed_encoder_state l : forall cv file cv' file',
  encoder_state E cv -> feed E cv file l = Ok (cv', file') ->
  encoder_state E cv'.
Proof.
  induction l as [|b l IH]; intros cv file cv' file' Hcv Hfeed; simpl in Hfeed.
  - by injection Hfeed as <- <-.
  - destruct (ad E cv b file) as [[cv1 file1]|e|] eqn:Had; try done.
    eapply IH; [|exact Hfeed]. eapply es_ad; eauto.
Qed.

(** The converter of a run is, at every head of the track loop, in one of
    the states [encoder_state] describes. *)
Lemma loop_reach_encoder_state st :
  encoder_state E conv -> loop_reach E conv st -> encoder_state E (ls_conv st).
Proof.
  intros Hconv. induction 1 as [|st st' Hst IH _ Hbody]; [done|].
  destruct (loop_reach_setup st Hst) as [Hok _].
  destruct (track_body_Continue E st st' Hok Hbody)
    as (conv' & file' & more & Hfeed & _ & ->).
  cbn [ls_conv next_loop_state]. eapply feed_encoder_state; eauto.
Qed.

End Runs.

(** ** Runs with a positive track length *)

Section ValidRuns.

Variable E : Env.
Variable conv : Converter.
Hypothesis conv_ok : ring_ok conv.
Hypothesis tr0_pos : (0 < tr0 conv)%Q.
Hypothesis dtr_nonneg : (0 <= dtr conv)%Q.

Local Abbreviation total := (totalSize_of (discType conv)).

Lemma loop_reach_spiral st :
  loop_reach E conv st -> (tr0 conv <= ls_tr st)%Q /\ (0 <= ls_c st)%Q.
Proof.
  induction 1 as [|st st' Hst [IHtr IHc] _ Hbody].
  - simpl. split; lra.
  - destruct (loop_reach_setup E conv conv_ok st Hst) as [Hok Hsame].
    destruct (track_body_Continue E st st' Hok Hbody)
      as (conv' & file' & more & _ & _ & ->).
    destruct Hsame as (_ & Hd & _). cbn [ls_tr ls_c next_loop_state].
    rewrite Hd. split; lra.
Qed.

Lemma loop_reach_reports st :
  loop_reach E conv st ->
  StronglySorted Z.le (ls_reports st) /\
  Forall (fun p => p <= progress_of (ls_c st) total) (ls_reports st) /\
  (progressCallback conv = true -> length (ls_reports st) = ls_track st).
Proof.
  induction 1 as [|st st' Hst (IHs & IHf & IHl) _ Hbody].
  - simpl. repeat split; constructor.
  - destruct (loop_reach_setup E conv conv_ok st Hst) as [Hok Hsame].
    destruct (loop_reach_spiral st Hst) as [Htr Hc].
    destruct (track_body_Continue E st st' Hok Hbody)
      as (conv' & file' & more & _ & _ & ->).
    destruct Hsame as (_ & _ & _ & _ & Hdisc & Hprog & _).
    cbn [ls_reports ls_c ls_track next_loop_state]. unfold reports_after.
    rewrite Hdisc, Hprog. fold total.
    assert (Hmono : progress_of (ls_c st) total <= progress_of (ls_c st + ls_tr st) total).
    { apply progress_mono; [done|lra|apply totalSize_pos]. }
    destruct (progressCallback conv).
    + split; [|split].
      * apply StronglySorted_app_2; [|done|repeat constructor].
        intros x1 x2 H1 ->%list_elem_of_singleton.
        exact (proj1 (Forall_forall _ _) IHf _ H1).
      * apply Forall_app. split.
        -- eapply Forall_impl; [exact IHf|]. simpl. intros; lia.
        -- by apply Forall_singleton.
      * intros _. rewrite length_app. simpl. rewrite IHl by done. lia.
    + split; [done|]. split; [|done].
      eapply Forall_impl; [exact IHf|]. simpl. intros; lia.
Qed.


Hypothesis env_quiet : quiet E.
Hypothesis no_cancel :
  forall cb k, cancelCallback conv = Some cb -> cb k = false.

Lemma quiet_not_cancelled st :
  loop_reach E conv st -> cancel_seen E st = false.
Proof.
  intros Hst. destruct (loop_reach_setup E conv conv_ok st Hst) as [_ Hsame].
  destruct Hsame as (_ & _ & _ & _ & _ & _ & Hcb).
  destruct env_quiet as (_ & Hctx & _).
  unfold cancel_seen. rewrite Hcb, Hctx.
  destruct (cancelCallback conv) as [cb|] eqn:Hc; [|done].
  by rewrite (no_cancel cb _ eq_refl).
Qed.

Lemma final_flush_quiet st :
  loop_reach E conv st ->
  final_flush E st = Completed st (emitted (ls_conv st) (ls_file st)).
Proof.
  intros Hst. destruct (loop_reach_setup E conv conv_ok st Hst) as [Hok _].
  destruct env_quiet as (Hw & _ & _).
  unfold final_flush, emitted, file_Write.
  destruct (Z.gtb_spec (c (ls_conv st)) 0).
  - by rewrite Hw.
  - replace (c (ls_conv st)) with 0 by (unfold ring_ok in Hok; lia).
    simpl. by rewrite app_nil_r.
Qed.

Lemma loop_reach_continue st :
  loop_reach E conv st ->
  exists conv' file', track_body E st = Continue (next_loop_state E st conv' file').
Proof.
  intros Hst. destruct (loop_reach_setup E conv conv_ok st Hst) as [Hok _].
  destruct (track_body_quiet E st env_quiet Hok (quiet_not_cancelled st Hst))
    as (conv' & file' & more & _ & Hb). eauto.
Qed.

(** The track loop comes to its end: with [n] tracks of length [tr0] enough
    to fill what is left of the budget, any fuel above [n] is enough. *)
Lemma track_loop_completes (n : nat) : forall st,
  loop_reach E conv st ->
  (inject_Z total - ls_c st <= inject_Z (Z.of_nat n) * tr0 conv)%Q ->
  exists st',
    loop_reach E conv st' /\
    loop_guard total (ls_c st') (ls_tr st') = false /\
    forall fuel, (n < fuel)%nat ->
      track_loop E fuel st = Some (final_flush E st').
Proof.
  induction n as [|n IH]; intros st Hst Hleft.
  - exists st. split; [done|].
    destruct (loop_reach_spiral st Hst) as [Htr Hc].
    assert (Hg : loop_guard total (ls_c st) (ls_tr st) = false).
    { unfold loop_guard. apply Qltb_false.
      change (inject_Z (Z.of_nat 0)) with 0%Q in Hleft. lra. }
    split; [done|]. intros [|fuel] Hf; [lia|]. simpl.
    destruct (loop_reach_setup E conv conv_ok st Hst) as [_ Hsame].
    destruct Hsame as (_ & _ & _ & _ & -> & _). by rewrite Hg.
  - destruct (loop_reach_setup E conv conv_ok st Hst) as [_ Hsame].
    pose proof Hsame as (_ & Hd & _ & _ & Hdisc & _).
    destruct (loop_guard total (ls_c st) (ls_tr st)) eqn:Hg.
    + destruct (loop_reach_continue st Hst) as (conv' & file' & Hb).
      assert (Hst' : loop_reach E conv (next_loop_state E st conv' file')).
      { eapply lr_step; [exact Hst| |exact Hb]. by rewrite Hdisc. }
      destruct (IH _ Hst') as (st_end & Hend & Hgend & Hfuel).
      { cbn [ls_c next_loop_state].
        destruct (loop_reach_spiral st Hst) as [Htr Hc].
        rewrite Nat2Z.inj_succ in Hleft. unfold Z.succ in Hleft.
        rewrite inject_Z_plus, Qmult_plus_distr_l in Hleft.
        change (inject_Z 1) with 1%Q in Hleft. rewrite Qmult_1_l in Hleft.
        set (x := (inject_Z (Z.of_nat n) * tr0 conv)%Q) in *. clearbody x. lra. }
      exists st_end. split; [done|]. split; [done|].
      intros [|fuel] Hf; [lia|]. simpl. rewrite Hdisc, Hg, Hb.
      apply Hfuel. lia.
    + exists st. split; [done|]. split; [done|].
      intros [|fuel] Hf; [lia|]. simpl. by rewrite Hdisc, Hg.
Qed.

(** [Convert] returns, and its file holds everything the interleaver
    emitted. *)
Lemma Convert_completes :
  env_create_ok E = true ->
  exists st n,
    loop_reach E conv st /\
    loop_guard total (ls_c st) (ls_tr st) = false /\
    forall fuel, (n < fuel)%nat ->
      Convert E fuel conv =
      Some (Completed st (emitted (ls_conv st) (ls_file st))).
Proof.
  intros Hcreate.
  set (n := Z.to_nat (Qceiling (inject_Z total / tr0 conv))).
  destruct (track_loop_completes n (initial_loop conv)) as (st & Hst & Hg & Hfuel).
  - apply lr_init.
  - simpl. unfold n.
    assert (Hceil : (inject_Z total / tr0 conv <= inject_Z (Qceiling (inject_Z total / tr0 conv)))%Q)
      by apply Qle_ceiling.
    assert (Hnn : 0 <= Qceiling (inject_Z total / tr0 conv)).
    { rewrite Zle_Qle. eapply Qle_trans; [|exact Hceil].
      apply Qle_shift_div_l; [done|].
      pose proof (totalSize_pos (discType conv)) as Hp.
      rewrite Zlt_Qlt in Hp. change (inject_Z 0) with 0%Q in *. lra. }
    rewrite Z2Nat.id by done.
    apply (Qmult_le_compat_r _ _ (tr0 conv)) in Hceil; [|lra].
    assert (Hdiv : (inject_Z total / tr0 conv * tr0 conv == inject_Z total)%Q).
    { field. intros H0. rewrite H0 in tr0_pos. lra. }
    rewrite Hdiv in Hceil. lra.
  - exists st, n. split; [done|]. split; [done|].
    intros fuel Hf. unfold Convert. rewrite Hcreate, (Hfuel fuel Hf).
    by rewrite final_flush_quiet.
Qed.

End ValidRuns.


(** ** The positions of the interleaver *)

Lemma delay_of_lookup (k : nat) :
  exists d, delays !! (k mod 24)%nat = Some d /\ -2569 <= d <= -72 /\
            out_pos k = 24 * (Z.of_nat k / 24) + 2664 + d.
Proof.
  destruct (delays_lookup (Z.of_nat (k mod 24))) as (d & Hd & Hr).
  { pose proof (Nat.mod_upper_bound k 24). lia. }
  rewrite Nat2Z.id in Hd. exists d. split; [done|]. split; [done|].
  unfold out_pos. rewrite Hd. simpl. lia.
Qed.

Lemma out_pos_range (k : nat) :
  24 * (Z.of_nat k / 24) + 95 <= out_pos k <= 24 * (Z.of_nat k / 24) + 2592.
Proof. destruct (delay_of_lookup k) as (d & _ & Hr & ->). lia. Qed.

Lemma out_pos_nonneg (k : nat) : 0 <= out_pos k.
Proof.
  pose proof (out_pos_range k).
  assert (0 <= Z.of_nat k / 24) by (apply Z.div_pos; lia). lia.
Qed.

Lemma delays_columns : NoDup ((fun d => d mod 24) <$> delays).
Proof. compute_done. Qed.

Lemma out_pos_inj (k1 k2 : nat) : out_pos k1 = out_pos k2 -> k1 = k2.
Proof.
  intros Heq.
  destruct (delay_of_lookup k1) as (d1 & Hd1 & _ & H1).
  destruct (delay_of_lookup k2) as (d2 & Hd2 & _ & H2).
  assert (Hmod : d1 mod 24 = d2 mod 24).
  { assert (H : out_pos k1 mod 24 = out_pos k2 mod 24) by congruence.
    rewrite H1, H2 in H.
    replace (24 * (Z.of_nat k1 / 24) + 2664 + d1)
      with (d1 + (Z.of_nat k1 / 24 + 111) * 24) in H by lia.
    replace (24 * (Z.of_nat k2 / 24) + 2664 + d2)
      with (d2 + (Z.of_nat k2 / 24 + 111) * 24) in H by lia.
    by rewrite !Z.mod_add in H by lia. }
  assert (Hj : (k1 mod 24 = k2 mod 24)%nat).
  { eapply (NoDup_lookup _ _ _ (d1 mod 24) delays_columns);
      rewrite list_lookup_fmap.
    - by rewrite Hd1.
    - rewrite Hd2. simpl. by rewrite Hmod. }
  assert (d1 = d2) by congruence. subst d2.
  assert (Hf : Z.of_nat k1 / 24 = Z.of_nat k2 / 24) by lia.
  pose proof (Z.div_mod (Z.of_nat k1) 24 ltac:(lia)) as E1.
  pose proof (Z.div_mod (Z.of_nat k2) 24 ltac:(lia)) as E2.
  assert (Z.of_nat k1 mod 24 = Z.of_nat k2 mod 24).
  { change 24 with (Z.of_nat 24). rewrite <- !Nat2Z.inj_mod. by rewrite Hj. }
  lia.
Qed.

(** The slot [n2m] computes for a write is the output position of the byte,
    modulo the size of the ring. *)
Lemma slot_is_out_pos (f d : Z) :
  0 <= f ->
  ((111 + f) mod 112 * 24 + d) mod 2688 = (24 * f + 2664 + d) mod 2688.
Proof.
  intros Hf.
  pose proof (Z.div_mod (111 + f) 112 ltac:(lia)) as Hdm.
  replace (24 * f + 2664 + d)
    with ((111 + f) mod 112 * 24 + d + ((111 + f) / 112) * 2688) by lia.
  by rewrite Z.mod_add by lia.
Qed.

(** The row read after frame [f] holds the positions [24 f .. 24 f + 23]. *)
Lemma row_is_position (f a : Z) :
  0 <= f -> 0 <= a < 24 ->
  (f + 112) mod 112 * 24 + a = (24 * f + a) mod 2688.
Proof.
  intros Hf Ha.
  replace (f + 112) with (f + 1 * 112) by lia. rewrite Z.mod_add by lia.
  pose proof (Z.div_mod f 112 ltac:(lia)) as Hdm.
  pose proof (Z.mod_pos_bound f 112 ltac:(lia)) as Hb.
  apply (Z.mod_unique_pos _ _ (f / 112)); lia.
Qed.

Lemma mod_window (P x y : Z) :
  P <= x < P + 2688 -> P <= y < P + 2688 ->
  x mod 2688 = y mod 2688 -> x = y.
Proof.
  intros Hx Hy Hm.
  pose proof (Z.div_mod x 2688 ltac:(lia)).
  pose proof (Z.div_mod y 2688 ltac:(lia)).
  pose proof (Z.mod_pos_bound x 2688 ltac:(lia)).
  pose proof (Z.mod_pos_bound y 2688 ltac:(lia)).
  assert (x / 2688 = y / 2688) by nia. nia.
Qed.

Lemma succ_frame (n : Z) :
  0 <= n ->
  (n mod 24 = 23 -> (n + 1) / 24 = n / 24 + 1 /\ (n + 1) mod 24 = 0) /\
  (n mod 24 <> 23 -> (n + 1) / 24 = n / 24 /\ (n + 1) mod 24 = n mod 24 + 1).
Proof.
  intros Hn.
  pose proof (Z.div_mod n 24 ltac:(lia)) as Hdm.
  pose proof (Z.mod_pos_bound n 24 ltac:(lia)) as Hb.
  split; intros Hj.
  - split.
    + symmetry. apply (Z.div_unique_pos _ _ _ 0); lia.
    + symmetry. apply (Z.mod_unique_pos _ _ (n / 24 + 1)); lia.
  - split.
    + symmetry. apply (Z.div_unique_pos _ _ _ (n mod 24 + 1)); lia.
    + symmetry. apply (Z.mod_unique_pos _ _ (n / 24)); lia.
Qed.

Lemma fresh_new tr0 dtr r0 mix disc : fresh (NewConverter tr0 dtr r0 mix disc).
Proof.
  unfold fresh, NewConverter. cbn [intseq nh pinf c buffer].
  rewrite length_replicate. done.
Qed.

Lemma fresh_progress conv : fresh conv -> fresh (SetProgressCallback conv).
Proof. done. Qed.

Lemma fresh_cancel conv cb : fresh conv -> fresh (SetCancelCallback conv cb).
Proof. done. Qed.

Lemma fresh_ring_ok conv : fresh conv -> ring_ok conv.
Proof.
  intros (Hs & Hn & Hp & Hc & Hb). unfold ring_ok.
  rewrite Hs, Hn, Hp, Hc, Hb, length_replicate. lia.
Qed.

Lemma fresh_emitted conv : fresh conv -> emitted conv [] = [].
Proof. intros (_ & _ & _ & Hc & _). unfold emitted. by rewrite Hc. Qed.

Lemma interleaver_inv_init conv : fresh conv -> interleaver_inv [] conv [].
Proof.
  intros (Hs & Hn & Hp & Hc & Hb).
  unfold interleaver_inv. cbn [length]. rewrite Hs, Hn, Hp.
  repeat split; try done; try (intros; lia).
  intros s Hsr. apply lookup_replicate_2. lia.
Qed.

Section InterleaverPositions.

Variable E : Env.

Lemma interleaver_inv_step l conv file x conv' file' :
  ring_ok conv ->
  interleaver_inv l conv (emitted conv file) ->
  ad E conv x file = Ok (conv', file') ->
  interleaver_inv (l ++ [x]) conv' (emitted conv' file').
Proof.
  intros Hok (Hpinf & Hnh & Hlen & Ha & Ha0 & Hb & Hc) Had.
  destruct (ad_sound E conv x file Hok) as (d & Hd & Hs & Hring).
  cbv zeta in Hs, Hring. rewrite Had in Hs, Hring.
  destruct Hs as (Hok' & Hem & _). destruct Hring as (Hseq & Hnh' & Hpinf').
  set (n := Z.of_nat (length l)) in *.
  set (out := emitted conv file) in *.
  set (P := Z.of_nat (length out)) in *.
  assert (Hn0 : 0 <= n) by (unfold n; lia).
  destruct (delay_of_lookup (length l)) as (d' & Hd' & Hdr & Hout_n).
  fold n in Hout_n.
  assert (d' = d) as ->.
  { rewrite Hpinf in Hd. unfold n in Hd.
    change 24 with (Z.of_nat 24) in Hd.
    rewrite <- Nat2Z.inj_mod, Nat2Z.id in Hd. congruence. }
  assert (Hslot : (nh conv * 24 + d) mod 2688 = out_pos (length l) mod 2688).
  { rewrite Hnh, Hout_n. apply slot_is_out_pos. apply Z.div_pos; lia. }
  rewrite Hslot in Hseq, Hem.
  pose proof Hok as (_ & Hnhr & Hringlen & _).
  pose proof (Z.mod_pos_bound (out_pos (length l)) 2688 ltac:(lia)) as Hslotr.
  assert (Hfloor : 0 <= n / 24) by (apply Z.div_pos; lia).
  (* bytes still waiting stay in the ring *)
  assert (F1 : forall k y, (l ++ [x]) !! k = Some y -> P <= out_pos k ->
             intseq conv' !! Z.to_nat (out_pos k mod 2688) = Some y).
  { intros k y Hk HP. rewrite Hseq.
    apply lookup_snoc_Some in Hk as [[Hkn Hk]|[-> ->]].
    - assert (Hkf : Z.of_nat k / 24 <= n / 24)
        by (apply Z.div_le_mono; unfold n; lia).
      pose proof (out_pos_range k). pose proof (out_pos_range (length l)).
      fold n in H0.
      rewrite list_lookup_insert_ne; [by apply Hb|].
      intros Heq. apply Z2Nat.inj in Heq; [|lia|apply Z.mod_pos_bound; lia].
      assert (out_pos (length l) = out_pos k)
        by (apply (mod_window P); [lia|lia|done]).
      assert (length l = k) by (by apply out_pos_inj). lia.
    - apply list_lookup_insert_eq. lia. }
  (* the first slots stay zero until they are read *)
  assert (F2 : forall s, P <= s < 95 -> intseq conv' !! Z.to_nat s = Some 0).
  { intros s Hsr. rewrite Hseq.
    pose proof (out_pos_range (length l)) as Hr. fold n in Hr.
    rewrite list_lookup_insert_ne; [by apply Hc|].
    intros Heq. apply Z2Nat.inj in Heq; [|lia|lia].
    pose proof (Z.div_mod (out_pos (length l)) 2688 ltac:(lia)).
    assert (P = 24 * (n / 24)) by done.
    assert (0 <= P) by (unfold P; lia).
    nia. }
  assert (Hnewlen : Z.of_nat (length (l ++ [x])) = n + 1).
  { rewrite length_app. simpl. unfold n. lia. }
  unfold interleaver_inv. cbv zeta. rewrite Hnewlen.
  destruct (succ_frame n Hn0) as [Hlast Hmid].
  destruct (decide (pinf conv = 23)) as [H23|H23].
  - (* the frame is complete: one row is emitted *)
    rewrite bool_decide_true in * by done.
    rewrite Hpinf in H23. destruct (Hlast H23) as [Hdiv Hmod].
    assert (Hnh'' : nh conv' = (n / 24 + 112) mod 112).
    { rewrite Hnh', Hnh. rewrite Zplus_mod_idemp_l. f_equal. lia. }
    set (row := take 24 (drop (Z.to_nat (nh conv' * 24)) (intseq conv'))).
    assert (Hem' : emitted conv' file' = out ++ row).
    { rewrite Hem. unfold row. by rewrite Hseq, Hnh'. }
    assert (Hrow : forall a, 0 <= a < 24 ->
              row !! Z.to_nat a = intseq conv' !! Z.to_nat ((24 * (n / 24) + a) mod 2688)).
    { intros a Har. unfold row.
      rewrite lookup_take_lt by lia. rewrite lookup_drop. f_equal.
      rewrite <- row_is_position by lia. rewrite Hnh''.
      pose proof (Z.mod_pos_bound (n / 24 + 112) 112 ltac:(lia)). lia. }
    assert (Hrowlen : length row = 24%nat).
    { unfold row. rewrite length_take, length_drop.
      destruct Hok' as (_ & Hr' & Hl' & _). rewrite Hl'. lia. }
    assert (Hnew : forall p, P <= p < P + 24 ->
              (out ++ row) !! Z.to_nat p = intseq conv' !! Z.to_nat (p mod 2688)).
    { intros p Hp. rewrite lookup_app_r by (unfold P in *; lia).
      replace (Z.to_nat p - length out)%nat with (Z.to_nat (p - P)) by (unfold P; lia).
      rewrite Hrow by lia. do 3 f_equal. lia. }
    rewrite Hem'. rewrite length_app, Hrowlen.
    replace (Z.of_nat (length out + 24)) with (P + 24) by (unfold P; lia).
    split; [by rewrite Hpinf', Hmod|]. split; [rewrite Hnh'', Hdiv; f_equal; lia|].
    split; [lia|]. split; [|split; [|split]].
    + intros k y Hk Hlt.
      destruct (decide (out_pos k < P)) as [Hold|Hnow].
      * rewrite lookup_app_l by (unfold P in *; pose proof (out_pos_nonneg k); lia).
        apply lookup_snoc_Some in Hk as [[Hkn Hk]|[-> ->]]; [by apply Ha|].
        pose proof (out_pos_range (length l)). fold n in H. lia.
      * rewrite Hnew by lia. apply F1; [done|lia].
    + intros p Hp Hlt.
      destruct (decide (p < P)) as [Hold|Hnow].
      * rewrite lookup_app_l by (unfold P in *; lia). by apply Ha0.
      * rewrite Hnew by lia. rewrite Z.mod_small by lia. apply F2. lia.
    + intros k y Hk Hge. apply F1; [done|lia].
    + intros s Hsr. apply F2. lia.
  - (* inside a frame: nothing is emitted *)
    rewrite bool_decide_false in * by done.
    rewrite Hpinf in H23. destruct (Hmid H23) as [Hdiv Hmod].
    rewrite app_nil_r in Hem. rewrite Hem. fold P.
    split; [rewrite Hpinf', Hmod; lia|]. split; [by rewrite Hnh', Hdiv|].
    split; [by rewrite Hdiv|]. split; [|split; [|split]].
    + intros k y Hk Hlt.
      apply lookup_snoc_Some in Hk as [[Hkn Hk]|[-> ->]]; [by apply Ha|].
      pose proof (out_pos_range (length l)). fold n in H. lia.
    + done.
    + done.
    + done.
Qed.


Lemma feed_interleaver_inv l2 : forall l1 conv file conv' file',
  ring_ok conv ->
  interleaver_inv l1 conv (emitted conv file) ->
  feed E conv file l2 = Ok (conv', file') ->
  ring_ok conv' /\ interleaver_inv (l1 ++ l2) conv' (emitted conv' file').
Proof.
  induction l2 as [|x l2 IH]; intros l1 conv file conv' file' Hok Hinv Hfeed.
  - simpl in Hfeed. injection Hfeed as <- <-. by rewrite app_nil_r.
  - simpl in Hfeed.
    destruct (ad E conv x file) as [[conv1 file1]|e|] eqn:Had; try done.
    simpl in Hfeed.
    rewrite cons_middle, (assoc_L (++)).
    pose proof (ad_ring_ok E _ _ _ _ _ Hok Had) as Hok1.
    pose proof (interleaver_inv_step _ _ _ _ _ _ Hok Hinv Had) as Hinv1.
    exact (IH _ _ _ _ _ Hok1 Hinv1 Hfeed).
Qed.

(** The link holds at every head of the track loop of a run. *)
Lemma loop_reach_interleaver_inv conv st :
  fresh conv -> loop_reach E conv st ->
  interleaver_inv (ls_fed st) (ls_conv st) (emitted (ls_conv st) (ls_file st)).
Proof.
  intros Hfresh. induction 1 as [|st st' Hst IH _ Hbody].
  - simpl. rewrite (fresh_emitted conv Hfresh). by apply interleaver_inv_init.
  - destruct (loop_reach_setup E conv (fresh_ring_ok conv Hfresh) st Hst) as [Hok _].
    destruct (track_body_Continue E st st' Hok Hbody)
      as (conv' & file' & more & Hfeed & _ & ->).
    cbn [ls_fed ls_conv ls_file next_loop_state].
    eapply feed_interleaver_inv; eauto.
Qed.

End InterleaverPositions.


(** ** The collector of the parallel pipeline *)

Section Collector.

Variable E : Env.

Lemma from_result_mono seen seen' i d :
  seen ⊆ seen' -> from_result seen i d -> from_result seen' i d.
Proof. intros Hsub (r & Hr & H). exists r. split; [by apply Hsub|done]. Qed.

Lemma collect_snoc arrival r :
  collect E (arrival ++ [r]) = collect_one E (collect E arrival) r.
Proof. unfold collect. by rewrite foldl_app. Qed.

(** *** Any arrival, any writes *)

Lemma drain_log_ok seen fuel : forall col,
  collector_log_ok seen col -> collector_log_ok seen (drain E fuel col).
Proof.
  induction fuel as [|fuel IH]; intros col Hcol; simpl; [done|].
  destruct (trackBuffer col !! nextTrackToWrite col) as [data|] eqn:Hbuf; [|done].
  unfold file_Write. destruct (env_write_ok E (col_file col) data); [|done].
  apply IH. destruct Hcol as (Hn & Hidx & Hfile & Hfrom & Hb).
  unfold collector_log_ok. cbn [nextTrackToWrite col_written col_file trackBuffer].
  split; [lia|]. split; [|split; [|split]].
  - rewrite fmap_app, Hidx. simpl.
    replace (nextTrackToWrite col + 1) with (Z.succ (nextTrackToWrite col)) by lia.
    rewrite <- (Z2Nat.id (nextTrackToWrite col)) at 3 by done.
    rewrite <- Nat2Z.inj_succ, seqZ_S. rewrite Z2Nat.id by done. done.
  - rewrite fmap_app, concat_app, Hfile. simpl. by rewrite app_nil_r.
  - apply Forall_app. split; [done|]. apply Forall_singleton. simpl. by apply Hb.
  - intros i d Hi. apply lookup_delete_Some in Hi as [_ Hi]. by apply Hb.
Qed.

Lemma collect_one_log_ok seen col r :
  collector_log_ok seen col ->
  collector_log_ok (seen ++ [r]) (collect_one E col r).
Proof.
  intros (Hn & Hidx & Hfile & Hfrom & Hb).
  assert (Hsub : seen ⊆ seen ++ [r]) by set_solver.
  unfold collect_one. destruct (res_err r) as [e|] eqn:Herr.
  - split; [done|]. split; [done|]. split; [done|]. split.
    + eapply Forall_impl; [exact Hfrom|]. intros w. by apply from_result_mono.
    + intros i d Hi. eapply from_result_mono; eauto.
  - apply drain_log_ok.
    split; [done|]. split; [done|]. split; [done|]. split.
    + eapply Forall_impl; [exact Hfrom|]. intros w. by apply from_result_mono.
    + cbn [trackBuffer]. intros i d Hi.
      apply lookup_insert_Some in Hi as [[<- <-]|[_ Hi]].
      * exists r. split; [set_solver|done].
      * eapply from_result_mono; eauto.
Qed.

Lemma collect_log_ok arrival : collector_log_ok arrival (collect E arrival).
Proof.
  induction arrival as [|r arrival IH] using rev_ind.
  - unfold collect, collector_log_ok, new_collector; simpl.
    split; [done|]. split; [done|]. split; [done|]. split; [constructor|].
    intros i d Hi. by rewrite lookup_empty in Hi.
  - rewrite collect_snoc. by apply collect_one_log_ok.
Qed.

(** *** Every track once, no error, no failed write *)

Hypothesis writes_ok : forall content data, env_write_ok E content data = true.

Lemma drain_inv M fuel : forall col,
  collector_inv M col ->
  (size (trackBuffer col) < fuel)%nat ->
  collector_inv M (drain E fuel col) /\
  M !! nextTrackToWrite (drain E fuel col) = None.
Proof.
  induction fuel as [|fuel IH]; intros col Hcol Hsize; [lia|]. simpl.
  pose proof Hcol as (Hn & Hbelow & Hbuf & Hwr & Hfile).
  pose proof (Hbuf (nextTrackToWrite col)) as Hnext.
  rewrite decide_False in Hnext by lia.
  destruct (trackBuffer col !! nextTrackToWrite col) as [data|] eqn:Hlook.
  - unfold file_Write. rewrite writes_ok. apply IH.
    + unfold collector_inv.
      cbn [nextTrackToWrite col_written col_file trackBuffer].
      split; [lia|]. split; [|split; [|split]].
      * intros i Hi. destruct (decide (i = nextTrackToWrite col)) as [->|];
          [by rewrite <- Hnext|apply Hbelow; lia].
      * intros i. destruct (decide (i = nextTrackToWrite col)) as [->|Hne].
        -- rewrite lookup_delete_eq. by rewrite decide_True by lia.
        -- rewrite lookup_delete_ne by done. rewrite Hbuf.
           destruct (decide (0 <= i < nextTrackToWrite col));
             [by rewrite decide_True by lia|by rewrite decide_False by lia].
      * rewrite Hwr.
        replace (nextTrackToWrite col + 1) with (Z.succ (nextTrackToWrite col)) by lia.
        rewrite <- (Z2Nat.id (nextTrackToWrite col)) at 3 by done.
        rewrite <- Nat2Z.inj_succ, seqZ_S, fmap_app. rewrite Z2Nat.id by done.
        simpl. rewrite Z.add_0_l. by rewrite <- Hnext.
      * rewrite fmap_app, concat_app, Hfile. simpl. by rewrite app_nil_r.
    + cbn [trackBuffer]. rewrite map_size_delete_Some by (by rewrite Hlook).
      assert (size (trackBuffer col) <> 0%nat)
        by (eapply map_size_ne_0_lookup_2; by rewrite Hlook).
      lia.
  - split; [done|]. by rewrite <- Hnext.
Qed.

Lemma collect_one_inv M col r :
  collector_inv M col ->
  res_err r = None ->
  M !! res_trackIndex r = None ->
  collector_inv (<[res_trackIndex r := res_data r]> M) (collect_one E col r) /\
  <[res_trackIndex r := res_data r]> M !! nextTrackToWrite (collect_one E col r) = None.
Proof.
  intros (Hn & Hbelow & Hbuf & Hwr & Hfile) Herr Hnew.
  unfold collect_one. rewrite Herr. apply drain_inv; [|lia].
  assert (Hout : ~ 0 <= res_trackIndex r < nextTrackToWrite col).
  { intros Hin. destruct (Hbelow _ Hin) as [d Hd]. congruence. }
  unfold collector_inv. cbn [nextTrackToWrite col_written col_file trackBuffer].
  split; [done|]. split; [|split; [|split]].
  - intros i Hi. rewrite lookup_insert_ne by (intros Heq; lia). by apply Hbelow.
  - intros i. destruct (decide (res_trackIndex r = i)) as [<-|Hne].
    + rewrite !lookup_insert_eq. by rewrite decide_False.
    + rewrite !lookup_insert_ne by done. apply Hbuf.
  - rewrite Hwr. apply list_fmap_ext. intros k i Hi.
    apply lookup_seqZ in Hi as [-> Hk].
    rewrite lookup_insert_ne by (intros Heq; lia). done.
  - done.
Qed.

Lemma collect_inv arrival :
  Forall (fun r => res_err r = None) arrival ->
  NoDup (res_trackIndex <$> arrival) ->
  collector_inv (arrived arrival) (collect E arrival) /\
  arrived arrival !! nextTrackToWrite (collect E arrival) = None.
Proof.
  induction arrival as [|r arrival IH] using rev_ind; intros Herr Hnodup.
  - unfold arrived, collect, collector_inv, new_collector; simpl.
    split; [|done]. split; [done|]. split; [intros; lia|].
    split; [|done]. intros i. rewrite lookup_empty. by destruct (decide _).
  - apply Forall_app in Herr as [Herr Hr]. rewrite Forall_singleton in Hr.
    rewrite fmap_app in Hnodup. apply NoDup_app in Hnodup as (Hnd & Hfresh & _).
    destruct (IH Herr Hnd) as [Hinv _].
    assert (Hnotin : res_trackIndex r ∉ ((fun r => (res_trackIndex r, res_data r)) <$> arrival).*1).
    { rewrite <- list_fmap_compose. intros Hin. apply (Hfresh _ Hin).
      apply list_elem_of_singleton. done. }
    assert (Hnew : arrived arrival !! res_trackIndex r = None)
      by (by apply not_elem_of_list_to_map_1).
    rewrite collect_snoc. unfold arrived at 1 2. rewrite fmap_app. simpl.
    rewrite list_to_map_snoc by done.
    exact (collect_one_inv _ _ _ Hinv Hr Hnew).
Qed.

(** Results for the tracks 0 .. n-1, one each: whatever their order of
    arrival, all of them are written, in the order of the tracks. *)
Lemma collect_in_order rs arrival :
  Forall (fun r => res_err r = None) rs ->
  res_trackIndex <$> rs = seqZ 0 (Z.of_nat (length rs)) ->
  arrival ≡ₚ rs ->
  nextTrackToWrite (collect E arrival) = Z.of_nat (length rs) /\
  col_file (collect E arrival) = concat (res_data <$> rs).
Proof.
  intros Herr Hidx Hperm.
  assert (Hnd : NoDup (res_trackIndex <$> rs)) by (rewrite Hidx; apply NoDup_seqZ).
  assert (Herr' : Forall (fun r => res_err r = None) arrival) by (by rewrite Hperm).
  assert (Hnd' : NoDup (res_trackIndex <$> arrival)) by (by rewrite Hperm).
  destruct (collect_inv arrival Herr' Hnd') as [Hinv Hnone].
  assert (HM : arrived arrival = arrived rs).
  { unfold arrived. apply list_to_map_proper.
    - by rewrite <- list_fmap_compose.
    - by apply fmap_Permutation. }
  rewrite HM in Hinv, Hnone. clear HM.
  set (col := collect E arrival) in *. set (M := arrived rs) in *.
  assert (Hin : forall (k : nat) r, rs !! k = Some r -> M !! Z.of_nat k = Some (res_data r)).
  { intros k r Hk. unfold M, arrived. apply elem_of_list_to_map_1.
    - by rewrite <- list_fmap_compose.
    - assert (Hi : (res_trackIndex <$> rs) !! k = Some (res_trackIndex r))
        by (by rewrite list_lookup_fmap, Hk).
      rewrite Hidx in Hi. apply lookup_seqZ in Hi as [Hi _].
      replace (Z.of_nat k) with (res_trackIndex r) by lia.
      apply list_elem_of_fmap. exists r. split; [done|].
      by eapply list_elem_of_lookup_2. }
  assert (Hdom : forall i, is_Some (M !! i) -> 0 <= i < Z.of_nat (length rs)).
  { intros i [d Hd]. unfold M, arrived in Hd.
    apply elem_of_list_to_map_2 in Hd.
    apply (list_elem_of_fmap_2 fst) in Hd. rewrite <- list_fmap_compose in Hd.
    simpl in Hd. change (res_trackIndex <$> rs) with (res_trackIndex <$> rs) in Hidx.
    assert (Hi : i ∈ res_trackIndex <$> rs) by exact Hd.
    rewrite Hidx in Hi. apply elem_of_seqZ in Hi. lia. }
  destruct Hinv as (Hn & Hbelow & _ & Hwr & Hfile).
  assert (Hnext : nextTrackToWrite col = Z.of_nat (length rs)).
  { destruct (Z.lt_trichotomy (nextTrackToWrite col) (Z.of_nat (length rs)))
      as [Hlt|[Heq|Hgt]]; [|done|].
    - destruct (lookup_lt_is_Some_2 rs (Z.to_nat (nextTrackToWrite col)) ltac:(lia))
        as [r Hr].
      apply Hin in Hr. rewrite Z2Nat.id in Hr by done. congruence.
    - specialize (Hdom (Z.of_nat (length rs)) (Hbelow (Z.of_nat (length rs)) ltac:(lia))). lia. }
  split; [done|].
  rewrite Hfile, Hwr, Hnext. f_equal. rewrite <- list_fmap_compose.
  apply list_eq. intros k. rewrite !list_lookup_fmap.
  destruct (rs !! k) as [r|] eqn:Hk; simpl.
  - rewrite lookup_seqZ_lt by (apply lookup_lt_Some in Hk; lia). simpl.
    by rewrite Z.add_0_l, (Hin k r Hk).
  - rewrite lookup_seqZ_ge; [done|]. apply lookup_ge_None in Hk. lia.
Qed.

End Collector.


(** ** The job generator and the workers *)

Section Generator.

Variable E : Env.
Variable conv : Converter.

(** What an iteration of the generator that sends its job has done. *)
Lemma gen_body_Continue st st' :
  gen_body E conv st = GenContinue st' ->
  st' =
  {| gs_tr := (gs_tr st + dtr conv)%Q;
     gs_r := (gs_r st + dtr conv * r0 conv / tr0 conv)%Q;
     gs_c := (gs_c st + gs_tr st)%Q;
     gs_zs := if gs_zs st + 1 >=? 17 then 0 else gs_zs st + 1;
     gs_zf := gs_zf st;
     gs_trackIndex := gs_trackIndex st + 1;
     gs_jobs := gs_jobs st ++
       [{| job_trackIndex := gs_trackIndex st; job_tr := gs_tr st;
           job_r := gs_r st; job_rcd := rcd;
           job_cx := (inject_Z (env_width E) / 2)%Q;
           job_cy := (inject_Z (env_height E) / 2)%Q;
           job_ir := ir; job_itr := trunc (gs_tr st);
           job_zs := gs_zs st; job_zf := gs_zf st |}];
     gs_reports :=
       if progressCallback conv
       then gs_reports st ++
            [progress_of (gs_c st) (totalSize_of (discType conv))]
       else gs_reports st;
     gs_polls := (gs_polls st + 2)%nat |}.
Proof.
  unfold gen_body.
  destruct (env_ctx_done E (gs_polls st)); [done|].
  destruct (match cancelCallback conv with
            | Some cb => cb (Z.to_nat (gs_trackIndex st))
            | None => false
            end); [done|].
  destruct (env_ctx_done E (S (gs_polls st))); [done|].
  by intros [= <-].
Qed.

(** The generator never advances the sample phase: every job carries
    [zf = 0]; and it numbers the jobs 0, 1, 2, ... *)
Lemma gen_reach_jobs st :
  gen_reach E conv st ->
  gs_zf st = 0 /\
  Forall (fun job => job_zf job = 0) (gs_jobs st) /\
  0 <= gs_trackIndex st /\
  job_trackIndex <$> gs_jobs st = seqZ 0 (gs_trackIndex st).
Proof.
  induction 1 as [|st st' _ (IHzf & IHjobs & IHn & IHidx) _ Hbody].
  - simpl. split; [done|]. split; [constructor|]. split; [lia|done].
  - apply gen_body_Continue in Hbody as ->.
    cbn [gs_zf gs_jobs gs_trackIndex].
    split; [done|]. split; [|split; [lia|]].
    + apply Forall_app. split; [done|]. by apply Forall_singleton.
    + rewrite fmap_app, IHidx. simpl.
      replace (gs_trackIndex st + 1) with (Z.succ (gs_trackIndex st)) by lia.
      rewrite <- (Z2Nat.id (gs_trackIndex st)) at 3 by done.
      rewrite <- Nat2Z.inj_succ, seqZ_S. rewrite Z2Nat.id by done. done.
Qed.

Lemma run_gen_reach n : forall st st',
  gen_reach E conv st -> run_gen E n conv st = Some st' -> gen_reach E conv st'.
Proof.
  induction n as [|n IH]; intros st st' Hst Hrun; simpl in Hrun.
  - congruence.
  - destruct (loop_guard _ _ _) eqn:Hg; [|done].
    destruct (gen_body E conv st) as [st1|] eqn:Hb; [|done].
    eapply IH; [|exact Hrun]. eapply gr_step; eauto.
Qed.

End Generator.


(** ** Single-colour images *)

Lemma next_zf_range zf : 0 <= zf < 5 -> 0 <= next_zf zf < 5.
Proof. unfold next_zf. destruct (Z.geb_spec (zf + 1) 5); lia. Qed.

Lemma phase_after_range n : forall zf, 0 <= zf < 5 -> 0 <= phase_after n zf < 5.
Proof.
  induction n as [|n IH]; intros zf Hzf; simpl; [done|].
  apply IH, next_zf_range, Hzf.
Qed.

Lemma choose_level_low_or_high mix draw g zs zf :
  0 <= g < 256 ->
  choose_level mix draw g zs zf = g / 85 \/
  choose_level mix draw g zs zf = Z.min (g / 85 + 1) 3.
Proof.
  intros Hg. unfold choose_level.
  assert (H1 : 0 <= g / 85 <= 3).
  { split; [apply Z.div_pos; lia|]. apply Z.div_le_upper_bound; lia. }
  rewrite (Z.mod_small (g / 85 + 1)) by lia.
  destruct (Z.gtb_spec (g / 85 + 1) 3);
    repeat match goal with |- context [if ?b then _ else _] => destruct b end; lia.
Qed.

Lemma choose_level_exact_low mix draw g zs zf :
  g mod 85 = 0 -> 0 <= draw -> 0 <= zs -> 0 <= zf ->
  choose_level mix draw g zs zf = g / 85.
Proof.
  intros Hm Hd Hzs Hzf. unfold choose_level. rewrite Hm.
  destruct (Z.ltb_spec draw 0); [lia|].
  destruct (Z.gtb_spec 0 (zs * 5 + zf)); [lia|].
  by destruct mix.
Qed.

Lemma choose_level_exact_high mix draw g zs zf :
  0 <= g < 256 -> g mod 85 = 84 ->
  choose_level mix draw g zs zf = Z.min (g / 85 + 1) 3.
Proof.
  intros Hg Hm. unfold choose_level. rewrite Hm.
  assert (H1 : 0 <= g / 85 <= 3).
  { split; [apply Z.div_pos; lia|]. apply Z.div_le_upper_bound; lia. }
  rewrite (Z.mod_small (g / 85 + 1)) by lia.
  change (84 =? 84) with true. rewrite !orb_true_r.
  destruct (Z.gtb_spec (g / 85 + 1) 3); destruct mix; lia.
Qed.

Lemma track_symbols_length E mix cx cy ri itr w h zs (n : nat) :
  forall i zf draws,
  length (track_symbols E mix cx cy ri itr w h zs n i zf draws) = n.
Proof.
  induction n as [|n IH]; intros i zf draws; simpl; [done|]. by rewrite IH.
Qed.

Lemma symbols_of_track_length E st :
  length (symbols_of_track E st) = Z.to_nat (trunc (ls_tr st)).
Proof. apply track_symbols_length. Qed.

Section FlatImage.

Variable E : Env.
Variable px : Z * Z * Z * Z.
Hypothesis image_flat : flat_image E px.
Hypothesis rand_range : forall k, 0 <= env_rand E k < 85.

Lemma flat_grayAt cx cy ri i itr w h :
  grayAt E cx cy ri i itr w h = gray_of_pixel E px.
Proof.
  unfold grayAt, sampleImage, gray_of_pixel.
  destruct (env_spiral_xy E cx cy ri i itr) as [xi yi].
  rewrite image_flat. by destruct px as [[[r g] b] a].
Qed.

Lemma gray_of_pixel_range : 0 <= gray_of_pixel E px < 256.
Proof.
  unfold gray_of_pixel. destruct px as [[[r g] b] a].
  unfold rgbaToGray. apply Z.mod_pos_bound. lia.
Qed.

(** The symbols of a track of a single-colour image: each is the palette
    byte of one of the two levels next to its gray value, and of one level
    only when the gray value sits 0 or 84 above a level. *)
Lemma track_symbols_flat mix cx cy ri itr w h zs (n : nat) :
  0 <= zs ->
  forall i zf draws,
  0 <= zf < 5 ->
  let g := gray_of_pixel E px in
  let syms := track_symbols E mix cx cy ri itr w h zs n i zf draws in
  length syms = n /\
  Forall (fun b => b = palette_byte (g / 85) \/
                   b = palette_byte (Z.min (g / 85 + 1) 3)) syms /\
  (g mod 85 = 0 -> Forall (fun b => b = palette_byte (g / 85)) syms) /\
  (g mod 85 = 84 ->
   Forall (fun b => b = palette_byte (Z.min (g / 85 + 1) 3)) syms).
Proof.
  intros Hzs. induction n as [|n IH]; intros i zf draws Hzf; cbv zeta.
  - simpl. repeat split; intros; constructor.
  - cbn [track_symbols]. rewrite flat_grayAt.
    destruct (IH (i + 1) (next_zf zf) (if mix then S draws else draws)
                (next_zf_range zf Hzf)) as (Hl & Hany & Hlow & Hhigh).
    pose proof gray_of_pixel_range as Hg.
    fold (palette_byte (choose_level mix (env_rand E draws)
                          (gray_of_pixel E px) zs zf)).
    split; [simpl; by rewrite Hl|]. split; [|split].
    + constructor; [|done].
      destruct (choose_level_low_or_high mix (env_rand E draws)
                  (gray_of_pixel E px) zs zf Hg) as [-> | ->]; auto.
    + intros Hm. constructor; [|by apply Hlow].
      rewrite choose_level_exact_low; [done|done|apply rand_range|done|lia].
    + intros Hm. constructor; [|by apply Hhigh].
      by rewrite choose_level_exact_high.
Qed.

End FlatImage.

(** ** The sample phases of a run *)

Lemma loop_reach_phases E conv st :
  ring_ok conv -> loop_reach E conv st ->
  0 <= ls_zs st < 17 /\ 0 <= ls_zf st < 5.
Proof.
  intros Hok. induction 1 as [|st st' Hst [IHzs IHzf] _ Hbody]; [simpl; lia|].
  destruct (loop_reach_setup E conv Hok st Hst) as [Hok' _].
  destruct (track_body_Continue E st st' Hok' Hbody)
    as (conv' & file' & more & _ & _ & ->).
  cbn [ls_zs ls_zf next_loop_state]. split.
  - destruct (Z.geb_spec (ls_zs st + 1) 17); lia.
  - by apply phase_after_range.
Qed.


(** ** The run with [tr0 = 1000] and [dtr = 0] *)

Lemma Qplus_inject_Z (a b : Z) : (inject_Z a + inject_Z b)%Q = inject_Z (a + b).
Proof. unfold Qplus, inject_Z. simpl. f_equal. lia. Qed.

Lemma loop_guard_Z (T a t : Z) :
  loop_guard T (inject_Z a) (inject_Z t) = (a <? T - t).
Proof.
  unfold loop_guard.
  assert (Heq : (inject_Z T - inject_Z t == inject_Z (T - t))%Q).
  { unfold Z.sub. rewrite inject_Z_plus, inject_Z_opp. reflexivity. }
  destruct (Z.ltb_spec a (T - t)) as [Hlt|Hge].
  - apply Qltb_true. rewrite Heq. by rewrite <- Zlt_Qlt.
  - apply Qltb_false. rewrite Heq. by rewrite <- Zle_Qle.
Qed.

Section FlatRun.

Variable E : Env.
Variable mix : bool.
Hypothesis env_quiet : quiet E.

Local Abbreviation conv := (flat_converter mix).

Lemma flat_converter_ok : ring_ok conv.
Proof. apply fresh_ring_ok, fresh_new. Qed.

Lemma flat_state_init : flat_state E mix (initial_loop conv).
Proof. split; [apply lr_init|]. split; reflexivity. Qed.

Lemma flat_state_guard st :
  flat_state E mix st ->
  loop_guard (totalSize_of (discType (ls_conv st))) (ls_c st) (ls_tr st)
  = bool_decide (ls_track st < flat_tracks)%nat.
Proof.
  intros (Hst & Htr & Hc).
  destruct (loop_reach_setup E conv flat_converter_ok st Hst) as [_ Hsame].
  destruct Hsame as (_ & _ & _ & _ & -> & _).
  change (totalSize_of (discType conv)) with 838860800.
  rewrite Htr, Hc. change 1000%Q with (inject_Z 1000). rewrite loop_guard_Z.
  unfold flat_tracks. change (CDTotalSize / 1000) with 838860.
  destruct (Z.ltb_spec (1000 * Z.of_nat (ls_track st)) (838860800 - 1000)).
  - rewrite bool_decide_true; [done|lia].
  - rewrite bool_decide_false; [done|lia].
Qed.

Lemma flat_state_step st :
  flat_state E mix st -> (ls_track st < flat_tracks)%nat ->
  exists st',
    track_body E st = Continue st' /\ flat_state E mix st' /\
    ls_track st' = S (ls_track st).
Proof.
  intros Hflat Hlt. pose proof Hflat as (Hst & Htr & Hc).
  destruct (loop_reach_continue E conv flat_converter_ok env_quiet
              ltac:(done) st Hst) as (conv' & file' & Hbody).
  exists (next_loop_state E st conv' file'). split; [done|]. split; [|done].
  destruct (loop_reach_setup E conv flat_converter_ok st Hst) as [_ Hsame].
  destruct Hsame as (_ & Hdtr & _).
  split; [|split].
  - eapply lr_step; [exact Hst| |exact Hbody].
    rewrite (flat_state_guard st Hflat). by apply bool_decide_true.
  - cbn [ls_tr next_loop_state]. rewrite Htr, Hdtr. reflexivity.
  - cbn [ls_c ls_track next_loop_state]. rewrite Htr, Hc.
    change 1000%Q with (inject_Z 1000). rewrite Qplus_inject_Z. f_equal. lia.
Qed.

(** From a state with [d] tracks to go, the loop runs [d] more iterations
    and ends. *)
Lemma flat_run_from (d : nat) : forall st,
  flat_state E mix st -> (ls_track st + d = flat_tracks)%nat ->
  exists st_end,
    flat_state E mix st_end /\ ls_track st_end = flat_tracks /\
    forall fuel, (d < fuel)%nat ->
      track_loop E fuel st = Some (final_flush E st_end).
Proof.
  induction d as [|d IH]; intros st Hflat Hd.
  - exists st. split; [done|]. split; [lia|].
    intros [|fuel] Hf; [lia|]. simpl.
    rewrite (flat_state_guard st Hflat). rewrite bool_decide_false by lia. done.
  - destruct (flat_state_step st Hflat ltac:(lia)) as (st' & Hbody & Hflat' & Htrack).
    destruct (IH st' Hflat' ltac:(lia)) as (st_end & Hend & Hn & Hfuel).
    exists st_end. split; [done|]. split; [done|].
    intros [|fuel] Hf; [lia|]. simpl.
    rewrite (flat_state_guard st Hflat). rewrite bool_decide_true by lia.
    rewrite Hbody. apply Hfuel. lia.
Qed.

(** The run takes exactly [flat_tracks] iterations and completes. *)
Lemma flat_run_completes :
  env_create_ok E = true ->
  exists st,
    flat_state E mix st /\ ls_track st = flat_tracks /\
    forall fuel, (flat_tracks < fuel)%nat ->
      Convert E fuel conv =
      Some (Completed st (emitted (ls_conv st) (ls_file st))).
Proof.
  intros Hcreate.
  destruct (flat_run_from flat_tracks (initial_loop conv) flat_state_init)
    as (st & Hflat & Htrack & Hfuel); [simpl; lia|].
  exists st. split; [done|]. split; [done|].
  intros fuel Hf. unfold Convert. rewrite Hcreate, (Hfuel fuel Hf).
  rewrite (final_flush_quiet E conv flat_converter_ok env_quiet); [done..|].
  apply Hflat.
Qed.

End FlatRun.


(** ** Whole runs: prefixes of the sequential run *)

Section Prefixes.

Variable E : Env.

Lemma track_loop_run_tracks n : forall fuel st st',
  run_tracks E n st = Some st' ->
  track_loop E (n + fuel) st = track_loop E fuel st'.
Proof.
  induction n as [|n IH]; intros fuel st st' Hrun; simpl in Hrun.
  - by injection Hrun as <-.
  - simpl. destruct (loop_guard _ _ _); [|done].
    destruct (track_body E st) as [st1|]; [|done]. by apply IH.
Qed.

Lemma track_loop_fed_prefix fuel : forall st st' file,
  ring_ok (ls_conv st) ->
  track_loop E fuel st = Some (Completed st' file) ->
  ls_fed st `prefix_of` ls_fed st'.
Proof.
  induction fuel as [|fuel IH]; intros st st' file Hok Hloop; [done|].
  simpl in Hloop. destruct (loop_guard _ _ _).
  - destruct (track_body E st) as [st1|o] eqn:Hbody.
    + destruct (track_body_Continue E st st1 Hok Hbody)
        as (conv' & file' & more & _ & (Hok' & _) & Heq).
      assert (Hok1 : ring_ok (ls_conv st1)) by (by rewrite Heq).
      specialize (IH st1 st' file Hok1 Hloop).
      etrans; [|exact IH]. rewrite Heq. cbn [ls_fed next_loop_state].
      by apply prefix_app_r.
    + injection Hloop as ->.
      unfold track_body in Hbody.
      repeat match type of Hbody with
             | (if ?b then _ else _) = _ => destruct b
             | match ?r with _ => _ end = _ => destruct r
             end; discriminate.
  - injection Hloop as Hflush. unfold final_flush in Hflush.
    destruct (c (ls_conv st) >? 0); [|by injection Hflush as <- _].
    destruct (file_Write E _ _); [|done..]. by injection Hflush as <- _.
Qed.

End Prefixes.


(** ** Whole runs of the job generator *)

Section GeneratorRuns.

Variable E : Env.
Variable conv : Converter.

Lemma gen_loop_run_gen n : forall fuel st st',
  run_gen E n conv st = Some st' ->
  gen_loop E (n + fuel) conv st = gen_loop E fuel conv st'.
Proof.
  induction n as [|n IH]; intros fuel st st' Hrun; simpl in Hrun.
  - by injection Hrun as <-.
  - simpl. destruct (loop_guard _ _ _); [|done].
    destruct (gen_body E conv st) as [st1|]; [|done]. by apply IH.
Qed.

Lemma gen_body_jobs_prefix st :
  match gen_body E conv st with
  | GenContinue st' | GenReturn st' => gs_jobs st `prefix_of` gs_jobs st'
  end.
Proof.
  destruct (gen_body E conv st) as [st'|st'] eqn:Hb.
  - apply gen_body_Continue in Hb as ->. cbn [gs_jobs]. by apply prefix_app_r.
  - unfold gen_body in Hb.
    destruct (env_ctx_done E (gs_polls st)); [by injection Hb as <-|].
    destruct (match cancelCallback conv with
              | Some cb => cb (Z.to_nat (gs_trackIndex st))
              | None => false
              end); [by injection Hb as <-|].
    destruct (env_ctx_done E (S (gs_polls st))); [by injection Hb as <-|done].
Qed.

Lemma gen_loop_jobs_prefix fuel : forall st st',
  gen_loop E fuel conv st = Some st' -> gs_jobs st `prefix_of` gs_jobs st'.
Proof.
  induction fuel as [|fuel IH]; intros st st' Hloop; [done|].
  simpl in Hloop. destruct (loop_guard _ _ _); [|by injection Hloop as <-].
  pose proof (gen_body_jobs_prefix st) as Hpre.
  destruct (gen_body E conv st) as [st1|st1].
  - etrans; [exact Hpre|]. by apply IH.
  - by injection Hloop as <-.
Qed.

Hypothesis tr0_pos : (0 < tr0 conv)%Q.
Hypothesis dtr_nonneg : (0 <= dtr conv)%Q.
Hypothesis ctx_quiet : forall k, env_ctx_done E k = false.
Hypothesis no_cancel :
  forall cb k, cancelCallback conv = Some cb -> cb k = false.

Local Abbreviation total := (totalSize_of (discType conv)).

Lemma gen_reach_spiral st :
  gen_reach E conv st -> (tr0 conv <= gs_tr st)%Q /\ (0 <= gs_c st)%Q.
Proof.
  induction 1 as [|st st' _ [IHtr IHc] _ Hbody].
  - simpl. split; lra.
  - apply gen_body_Continue in Hbody as ->. cbn [gs_tr gs_c]. split; lra.
Qed.

Lemma gen_body_quiet st : exists st', gen_body E conv st = GenContinue st'.
Proof.
  unfold gen_body. rewrite !ctx_quiet.
  destruct (cancelCallback conv) as [cb|] eqn:Hcb; [|eauto].
  rewrite (no_cancel cb _ eq_refl). eauto.
Qed.

(** The generator comes to its end, like the track loop. *)
Lemma gen_loop_completes (n : nat) : forall st,
  gen_reach E conv st ->
  (inject_Z total - gs_c st <= inject_Z (Z.of_nat n) * tr0 conv)%Q ->
  exists st',
    gen_reach E conv st' /\
    forall fuel, (n < fuel)%nat -> gen_loop E fuel conv st = Some st'.
Proof.
  induction n as [|n IH]; intros st Hst Hleft.
  - exists st. split; [done|].
    destruct (gen_reach_spiral st Hst) as [Htr Hc].
    assert (Hg : loop_guard total (gs_c st) (gs_tr st) = false).
    { unfold loop_guard. apply Qltb_false.
      change (inject_Z (Z.of_nat 0)) with 0%Q in Hleft. lra. }
    intros [|fuel] Hf; [lia|]. simpl. by rewrite Hg.
  - destruct (loop_guard total (gs_c st) (gs_tr st)) eqn:Hg.
    + destruct (gen_body_quiet st) as [st1 Hb].
      assert (Hst1 : gen_reach E conv st1) by (eapply gr_step; eauto).
      destruct (IH st1 Hst1) as (st_end & Hend & Hfuel).
      { pose proof Hb as Heq. apply gen_body_Continue in Heq. rewrite Heq.
        cbn [gs_c].
        destruct (gen_reach_spiral st Hst) as [Htr Hc].
        rewrite Nat2Z.inj_succ in Hleft. unfold Z.succ in Hleft.
        rewrite inject_Z_plus, Qmult_plus_distr_l in Hleft.
        change (inject_Z 1) with 1%Q in Hleft. rewrite Qmult_1_l in Hleft.
        set (x := (inject_Z (Z.of_nat n) * tr0 conv)%Q) in *. clearbody x. lra. }
      exists st_end. split; [done|].
      intros [|fuel] Hf; [lia|]. simpl. rewrite Hg, Hb. apply Hfuel. lia.
    + exists st. split; [done|].
      intros [|fuel] Hf; [lia|]. simpl. by rewrite Hg.
Qed.

Lemma ConvertParallel_generates :
  exists gs n,
    gen_reach E conv gs /\
    forall fuel, (n < fuel)%nat ->
      gen_loop E fuel conv (initial_gen conv) = Some gs.
Proof.
  set (n := Z.to_nat (Qceiling (inject_Z total / tr0 conv))).
  destruct (gen_loop_completes n (initial_gen conv)) as (gs & Hgs & Hfuel).
  - apply gr_init.
  - simpl. unfold n.
    assert (Hceil : (inject_Z total / tr0 conv
                     <= inject_Z (Qceiling (inject_Z total / tr0 conv)))%Q)
      by apply Qle_ceiling.
    assert (Hnn : 0 <= Qceiling (inject_Z total / tr0 conv)).
    { rewrite Zle_Qle. eapply Qle_trans; [|exact Hceil].
      apply Qle_shift_div_l; [done|].
      pose proof (totalSize_pos (discType conv)) as Hp.
      rewrite Zlt_Qlt in Hp. change (inject_Z 0) with 0%Q in *. lra. }
    rewrite Z2Nat.id by done.
    apply (Qmult_le_compat_r _ _ (tr0 conv)) in Hceil; [|lra].
    assert (Hdiv : (inject_Z total / tr0 conv * tr0 conv == inject_Z total)%Q).
    { field. intros H0. rewrite H0 in tr0_pos. lra. }
    rewrite Hdiv in Hceil. lra.
  - exists gs, n. by split.
Qed.

Lemma trunc_nonneg (q : Q) : (0 <= q)%Q -> 0 <= trunc q.
Proof.
  intros Hq. rewrite trunc_floor by done.
  change 0 with (Qfloor 0). by apply Qfloor_resp_le.
Qed.

Lemma gen_reach_itr_nonneg st :
  gen_reach E conv st -> Forall (fun job => 0 <= job_itr job) (gs_jobs st).
Proof.
  induction 1 as [|st st' Hst IH Hg Hbody]; [constructor|].
  destruct (gen_reach_spiral st Hst) as [Htr _].
  apply gen_body_Continue in Hbody. rewrite Hbody. cbn [gs_jobs].
  apply Forall_app. split; [done|]. apply Forall_singleton. cbn [job_itr].
  apply trunc_nonneg. lra.
Qed.

End GeneratorRuns.

Section SentJobs.

Variable E : Env.
Variable conv : Converter.

Lemma gen_sent_loop fuel : forall st st',
  gen_loop E fuel conv st = Some st' -> gen_sent E fuel conv st = gs_jobs st'.
Proof.
  induction fuel as [|fuel IH]; intros st st' Hloop; [done|].
  simpl in Hloop. simpl.
  destruct (loop_guard _ _ _).
  - destruct (gen_body E conv st) as [st1|st1].
    + by apply IH.
    + by injection Hloop as <-.
  - by injection Hloop as <-.
Qed.

End SentJobs.

(** ** Workers *)

Section Workers.

Variable E : Env.
Variable sch : Schedule.
Variable mix : bool.

Lemma palette_byte_in cl : 0 <= cl <= 3 -> palette_byte cl ∈ palette.
Proof.
  intros Hcl. unfold palette_byte.
  destruct (palette !! Z.to_nat cl) as [b|] eqn:Hb.
  - by apply list_elem_of_lookup_2 in Hb.
  - apply lookup_ge_None in Hb. simpl in Hb. lia.
Qed.

Lemma processTrack_body_step job ri w h i zf acc :
  processTrack_body E sch mix job ri w h i (zf, acc) =
  if sch_done sch (job_trackIndex job) i then Fail ErrContext
  else Ok (next_zf zf,
           acc ++ [palette_byte
                     (choose_level mix (sch_rand sch (job_trackIndex job) i)
                        (grayAt E (job_cx job) (job_cy job) ri i (job_itr job) w h)
                        (job_zs job) zf)]).
Proof.
  unfold processTrack_body.
  destruct (sch_done sch (job_trackIndex job) i); [done|].
  rewrite palette_lookup by (apply choose_level_range, grayAt_range).
  done.
Qed.

(** The sample loop of a worker either gets through its [n] samples or
    stops with the context's error at the first sample at which it finds
    the context cancelled. *)
Lemma processTrack_loop job ri w h (n : nat) : forall i zf acc,
  match for_from i n (processTrack_body E sch mix job ri w h) (zf, acc) with
  | Ok (zf', data) =>
      (forall j, i <= j < i + Z.of_nat n ->
         sch_done sch (job_trackIndex job) j = false) /\
      zf' = phase_after n zf /\
      exists more, data = acc ++ more /\ length more = n /\
                   Forall (fun b => b ∈ palette) more /\
                   (mix = false -> forall draws,
                      more = track_symbols E false (job_cx job) (job_cy job) ri
                               (job_itr job) w h (job_zs job) n i zf draws)
  | Fail e =>
      e = ErrContext /\
      exists j, i <= j < i + Z.of_nat n /\
                sch_done sch (job_trackIndex job) j = true
  | Panic => False
  end.
Proof.
  induction n as [|n IH]; intros i zf acc.
  - simpl. split; [intros; lia|]. split; [done|].
    exists []. rewrite app_nil_r. repeat split; auto.
  - cbn [for_from]. rewrite processTrack_body_step.
    destruct (sch_done sch (job_trackIndex job) i) eqn:Hdone.
    + cbn [mbind result_bind rbind]. split; [done|]. exists i. split; [lia|done].
    + cbn [mbind result_bind rbind].
      set (b := palette_byte _).
      specialize (IH (i + 1) (next_zf zf) (acc ++ [b])).
      destruct (for_from (i + 1) n _ _) as [[zf' data]|e|].
      * destruct IH as (Hnd & -> & more & -> & Hlen & Hpal & Hsym).
        split.
        { intros j Hj. destruct (decide (j = i)) as [->|]; [done|].
          apply Hnd. lia. }
        split; [done|].
        exists (b :: more). split; [by rewrite <- (assoc_L (++))|].
        split; [simpl; by rewrite Hlen|]. split.
        { constructor; [|done]. apply palette_byte_in, choose_level_range,
            grayAt_range. }
        intros Hmix draws. cbn [track_symbols]. rewrite (Hsym Hmix draws).
        f_equal. unfold b, palette_byte. rewrite Hmix. done.
      * destruct IH as (-> & j & Hj & Hdj). split; [done|].
        exists j. split; [lia|done].
      * done.
Qed.

(** What a worker returns for a job: it panics when it cannot allocate its
    buffer, which is when the sample count is negative; otherwise it
    returns the data of the track, or the context's error. *)
Lemma processTrack_outcome w h job :
  match processTrack E sch mix w h job with
  | Ok data =>
      0 <= job_itr job /\
      (forall j, 0 <= j < job_itr job ->
         sch_done sch (job_trackIndex job) j = false) /\
      length data = Z.to_nat (job_itr job) /\
      Forall (fun b => b ∈ palette) data /\
      (mix = false -> forall draws,
         data = track_symbols E false (job_cx job) (job_cy job)
                  (job_ir job * job_r job / job_rcd job)%Q
                  (job_itr job) w h (job_zs job) (Z.to_nat (job_itr job)) 0
                  (job_zf job) draws)
  | Fail e =>
      0 <= job_itr job /\ e = ErrContext /\
      exists j, 0 <= j < job_itr job /\
                sch_done sch (job_trackIndex job) j = true
  | Panic => job_itr job < 0
  end.
Proof.
  unfold processTrack, for_range. cbv zeta.
  destruct (Z.ltb_spec (job_itr job * 4) 0) as [Hneg|Hnn]; [lia|].
  pose proof (processTrack_loop job (job_ir job * job_r job / job_rcd job)%Q
                w h (Z.to_nat (job_itr job)) 0 (job_zf job) []) as Hloop.
  destruct (for_from 0 _ _ _) as [[zf' data]|e|]; cbn [mbind result_bind rbind].
  - destruct Hloop as (Hnd & _ & more & -> & Hlen & Hpal & Hsym).
    rewrite app_nil_l. split; [lia|].
    split; [intros j Hj; apply Hnd; lia|]. done.
  - destruct Hloop as (-> & j & Hj & Hdj). split; [lia|]. split; [done|].
    exists j. split; [lia|done].
  - done.
Qed.

Lemma worker_result_panics job :
  worker_result E sch mix job = Panic <-> job_itr job < 0.
Proof.
  unfold worker_result.
  pose proof (processTrack_outcome (env_width E) (env_height E) job) as Hp.
  destruct (processTrack E sch mix (env_width E) (env_height E) job)
    as [data|e|]; split; try done; destruct Hp; lia.
Qed.

(** No worker panics on jobs whose sample counts are not negative. *)
Lemma workers_do_not_panic jobs :
  Forall (fun job => 0 <= job_itr job) jobs ->
  workers_panic E sch mix jobs = false.
Proof.
  intros Hjobs. unfold workers_panic.
  apply not_true_iff_false. rewrite existsb_exists.
  intros (job & Hin & Hp). apply andb_prop in Hp as [_ Hp].
  rewrite Forall_forall in Hjobs.
  apply list_elem_of_In in Hin. specialize (Hjobs job Hin).
  destruct (worker_result E sch mix job) eqn:Hw; [done|done|].
  apply worker_result_panics in Hw. lia.
Qed.

End Workers.

(** ** Workers that are not cancelled *)

Section QuietWorkers.

Variable E : Env.
Variable mix : bool.

Lemma processTrack_quiet w h job :
  0 <= job_itr job ->
  exists data,
    processTrack E quiet_schedule mix w h job = Ok data /\
    length data = Z.to_nat (job_itr job).
Proof.
  intros Hitr.
  pose proof (processTrack_outcome E quiet_schedule mix w h job) as Hp.
  destruct (processTrack E quiet_schedule mix w h job) as [data|e|].
  - destruct Hp as (_ & _ & Hlen & _). by exists data.
  - by destruct Hp as (_ & _ & j & _ & Hj).
  - lia.
Qed.

Lemma published_cons job jobs :
  0 <= job_itr job ->
  exists data,
    processTrack E quiet_schedule mix (env_width E) (env_height E) job = Ok data /\
    published E quiet_schedule mix (job :: jobs) =
    {| res_trackIndex := job_trackIndex job; res_data := data; res_err := None |}
    :: published E quiet_schedule mix jobs.
Proof.
  intros Hitr.
  destruct (processTrack_quiet (env_width E) (env_height E) job Hitr)
    as (data & Hdata & _).
  exists data. split; [done|].
  unfold published. cbn [omap list_omap sch_dropped quiet_schedule].
  unfold worker_result. by rewrite Hdata.
Qed.

(** With no cancellation, one error-free result per job reaches the
    collector, with the job's track index and the data of its track. *)
Lemma published_quiet jobs :
  Forall (fun job => 0 <= job_itr job) jobs ->
  Forall (fun r => res_err r = None) (published E quiet_schedule mix jobs) /\
  res_trackIndex <$> published E quiet_schedule mix jobs
  = job_trackIndex <$> jobs /\
  Forall2 (fun job r =>
             processTrack E quiet_schedule mix (env_width E) (env_height E) job
             = Ok (res_data r))
    jobs (published E quiet_schedule mix jobs).
Proof.
  induction 1 as [|job jobs Hitr _ (IHerr & IHidx & IHdata)].
  - simpl. repeat split; constructor.
  - destruct (published_cons job jobs Hitr) as (data & Hdata & ->).
    split; [by constructor|]. split; [by rewrite !fmap_cons, IHidx|].
    by constructor.
Qed.

End QuietWorkers.


(** * The claims *)

(** C5 (quantization).  For a gray value in [0, 255]: [low = gray div 85]
    lies in [0, 3], [high = min (low + 1) 3], [remainder = gray mod 85]; in
    ordered mode the level chosen is [high] when
    [remainder > zs * 5 + zf] or [remainder = 84] and [low] otherwise, the
    byte emitted is the palette byte of that level, and in both modes the
    level chosen is an index of the palette.  This is what the two sample
    loops do: the gray value they compute for a sample is a byte; in
    ordered mode an iteration of the sample loop of [Convert] hands the
    palette byte of the chosen level to [ad], and an iteration of the
    sample loop of [processTrack] appends it to the data of the track; in
    both modes the byte a loop emits is the palette byte of the level
    [choose_level] gives for the sample. *)
Theorem quantization_levels (E : Env) (mix : bool) (draw gray zs zf : Z) :
  0 <= gray <= 255 ->
  let low := gray / 85 in
  let high := Z.min (low + 1) 3 in
  let remainder := gray mod 85 in
  let chosen :=
    if (remainder >? zs * 5 + zf) || (remainder =? 84) then high else low in
  0 <= low <= 3 /\
  choose_level false draw gray zs zf = chosen /\
  aget palette (choose_level false draw gray zs zf) = Ok (palette_byte chosen) /\
  0 <= choose_level mix draw gray zs zf <= 3 /\
  (forall cx cy ri i itr w h, 0 <= grayAt E cx cy ri i itr w h <= 255) /\
  (forall cx cy ri itr w h i s,
     grayAt E cx cy ri i itr w h = gray -> ss_zf s = zf ->
     sample_body E false cx cy ri itr w h zs i s =
     ('(conv', file') ← ad E (ss_conv s) (palette_byte chosen) (ss_file s);
      Ok {| ss_conv := conv'; ss_file := file';
            ss_zf := next_zf zf; ss_draws := ss_draws s;
            ss_fed := ss_fed s ++ [palette_byte chosen] |})) /\
  (forall sch job ri w h i acc,
     grayAt E (job_cx job) (job_cy job) ri i (job_itr job) w h = gray ->
     job_zs job = zs ->
     sch_done sch (job_trackIndex job) i = false ->
     processTrack_body E sch false job ri w h i (zf, acc) =
     Ok (next_zf zf, acc ++ [palette_byte chosen])) /\
  (forall cx cy ri itr w h i s,
     grayAt E cx cy ri i itr w h = gray -> ss_zf s = zf ->
     env_rand E (ss_draws s) = draw ->
     sample_body E mix cx cy ri itr w h zs i s =
     ('(conv', file') ← ad E (ss_conv s)
                          (palette_byte (choose_level mix draw gray zs zf))
                          (ss_file s);
      Ok {| ss_conv := conv'; ss_file := file';
            ss_zf := next_zf zf;
            ss_draws := if mix then S (ss_draws s) else ss_draws s;
            ss_fed := ss_fed s
                      ++ [palette_byte (choose_level mix draw gray zs zf)] |})) /\
  (forall sch job ri w h i acc,
     grayAt E (job_cx job) (job_cy job) ri i (job_itr job) w h = gray ->
     job_zs job = zs ->
     sch_done sch (job_trackIndex job) i = false ->
     sch_rand sch (job_trackIndex job) i = draw ->
     processTrack_body E sch mix job ri w h i (zf, acc) =
     Ok (next_zf zf, acc ++ [palette_byte (choose_level mix draw gray zs zf)])).
Proof.
  intros Hg low high remainder chosen.
  assert (Hlow : 0 <= low <= 3).
  { unfold low. split; [apply Z.div_pos; lia|].
    apply Z.div_le_upper_bound; lia. }
  assert (Hchosen : choose_level false draw gray zs zf = chosen).
  { unfold choose_level, chosen, high. fold low remainder.
    rewrite (Z.mod_small (low + 1)) by lia.
    destruct (Z.gtb_spec (low + 1) 3).
    - by rewrite Z.min_r by lia.
    - by rewrite Z.min_l by lia. }
  assert (Hany : forall d d', choose_level false d gray zs zf
                              = choose_level false d' gray zs zf) by done.
  assert (Hloop : forall m cx cy ri itr w h i s,
    grayAt E cx cy ri i itr w h = gray -> ss_zf s = zf ->
    sample_body E m cx cy ri itr w h zs i s =
    ('(conv', file') ← ad E (ss_conv s)
        (palette_byte (choose_level m (env_rand E (ss_draws s)) gray zs zf))
        (ss_file s);
     Ok {| ss_conv := conv'; ss_file := file';
           ss_zf := next_zf zf;
           ss_draws := if m then S (ss_draws s) else ss_draws s;
           ss_fed := ss_fed s
                     ++ [palette_byte
                           (choose_level m (env_rand E (ss_draws s)) gray zs zf)] |})).
  { intros m cx cy ri itr w h i s Hgray Hzf.
    rewrite sample_body_unfold. cbv zeta. by rewrite Hgray, Hzf. }
  assert (Hwork : forall m sch job ri w h i acc,
    grayAt E (job_cx job) (job_cy job) ri i (job_itr job) w h = gray ->
    job_zs job = zs ->
    sch_done sch (job_trackIndex job) i = false ->
    processTrack_body E sch m job ri w h i (zf, acc) =
    Ok (next_zf zf,
        acc ++ [palette_byte
                  (choose_level m (sch_rand sch (job_trackIndex job) i)
                     gray zs zf)])).
  { intros m sch job ri w h i acc Hgray Hzs Hdone.
    rewrite processTrack_body_step. by rewrite Hdone, Hgray, Hzs. }
  split; [done|]. split; [done|]. split.
  { pose proof (choose_level_range false draw gray zs zf ltac:(lia)) as Hr.
    rewrite Hchosen in *. by apply palette_lookup. }
  split; [apply choose_level_range; lia|].
  split.
  { intros cx cy ri i itr w h.
    pose proof (grayAt_range E cx cy ri i itr w h). lia. }
  split.
  { intros cx cy ri itr w h i s Hgray Hzf.
    rewrite (Hloop false) by done.
    by rewrite (Hany (env_rand E (ss_draws s)) draw), Hchosen. }
  split.
  { intros sch job ri w h i acc Hgray Hzs Hdone.
    rewrite (Hwork false) by done.
    by rewrite (Hany (sch_rand sch (job_trackIndex job) i) draw), Hchosen. }
  split.
  { intros cx cy ri itr w h i s Hgray Hzf Hdraw.
    rewrite (Hloop mix) by done. by rewrite Hdraw. }
  intros sch job ri w h i acc Hgray Hzs Hdone Hdraw.
  rewrite (Hwork mix) by done. by rewrite Hdraw.
Qed.

Lemma quantization_levels_witness :
  let s := {| ss_conv := small_converter; ss_file := []; ss_zf := 0;
              ss_draws := O; ss_fed := [] |} in
  0 <= 100 <= 255 /\
  grayAt (flat_env 100) 50 50 0 0 10 100 100 = 100 /\
  choose_level false 0 100 3 0 = 1 /\
  (exists s', sample_body (flat_env 100) false 50 50 0 10 100 100 3 0 s = Ok s' /\
              ss_fed s' = [33] /\ ss_zf s' = 1) /\
  processTrack_body (flat_env 100) quiet_schedule false
    (mkJob 0 10 1 rcd 50 50 ir 10 3 0) 0 100 100 0 (0, [])
  = Ok (1, [33]).
Proof.
  intros s.
  destruct (quantization_levels (flat_env 100) false 0 100 3 0 ltac:(lia))
    as (_ & H1 & _ & _ & _ & Hseq & Hpar & _).
  split; [lia|]. split; [reflexivity|]. split; [exact H1|]. split.
  - rewrite (Hseq 50%Q 50%Q 0%Q 10 100 100 0 s eq_refl eq_refl).
    eexists. split; [vm_compute; reflexivity|]. split; reflexivity.
  - exact (Hpar quiet_schedule (mkJob 0 10 1 rcd 50 50 ir 10 3 0) 0%Q 100 100 0 []
             eq_refl eq_refl eq_refl).
Defined.

(** C7 (interleaver bounds).  In every state a converter can be in between
    two calls of [ad] during a run of the sequential encoder, the write
    cursor [pinf] lies in [0, 23] and the frame counter [nh] in [0, 111];
    the index [n2m] computes for the write through [delays[pinf]] and the
    indices it computes for the 24 reads of a row lie in [0, 2688) and equal
    the mod-2688 wrap of [nh * 24 + n]; the ring has 2688 cells, and [ad]
    never panics on an index. *)
Theorem interleaver_indices_in_bounds (E : Env) (conv : Converter) :
  encoder_state E conv ->
  0 <= pinf conv <= 23 /\
  0 <= nh conv <= 111 /\
  length (intseq conv) = 2688%nat /\
  (exists d, aget delays (pinf conv) = Ok d /\
             0 <= n2m conv d < 2688 /\
             n2m conv d = (nh conv * 24 + d) mod 2688) /\
  (forall i, 0 <= i < 24 ->
             0 <= n2m conv i < 2688 /\
             n2m conv i = (nh conv * 24 + i) mod 2688) /\
  (forall b file, ad E conv b file <> Panic).
Proof.
  intros Hst. pose proof (encoder_state_ring_ok E conv Hst) as Hok.
  pose proof Hok as (Hp & Hn & Hl & _).
  split; [lia|]. split; [lia|]. split; [done|]. split; [|split].
  - destruct (delays_lookup (pinf conv) Hp) as (d & Hd & Hdr).
    exists d. split; [apply aget_ok; [lia|done]|].
    destruct (n2m_write conv d Hn Hdr). done.
  - intros i Hi. destruct (n2m_read conv i Hn Hi) as (_ & H1 & H2). done.
  - intros b file Hpanic.
    destruct (ad_sound E conv b file Hok) as (d & _ & Hs & _).
    cbv zeta in Hs. by rewrite Hpanic in Hs.
Qed.

Lemma interleaver_indices_in_bounds_witness :
  exists conv file,
    feed (flat_env 0) (NewConverter 1000 1 24.5 false "cd") []
      (replicate 30 170) = Ok (conv, file) /\
    encoder_state (flat_env 0) conv /\
    pinf conv = 6 /\ nh conv = 0 /\
    aget delays (pinf conv) = Ok (-646) /\
    nh conv * 24 + -646 < 0 /\
    n2m conv (-646) = 2042 /\
    n2m conv 23 = 23 /\
    (forall b file', ad (flat_env 0) conv b file' <> Panic).
Proof.
  assert (Hfeed : exists conv file,
    feed (flat_env 0) (NewConverter 1000 1 24.5 false "cd") []
      (replicate 30 170) = Ok (conv, file) /\
    pinf conv = 6 /\ nh conv = 0).
  { eexists _, _. split; [vm_compute; reflexivity|]. split; reflexivity. }
  destruct Hfeed as (conv & file & Hfeed & Hp & Hn).
  assert (Hst : encoder_state (flat_env 0) conv).
  { eapply feed_encoder_state; [apply es_new|exact Hfeed]. }
  destruct (interleaver_indices_in_bounds (flat_env 0) conv Hst)
    as (_ & _ & _ & (d & Hd & _ & Hwrite) & Hread & Hsafe).
  assert (Hd' : d = -646).
  { rewrite Hp in Hd. vm_compute in Hd. by injection Hd as <-. }
  subst d.
  exists conv, file. split; [exact Hfeed|]. split; [exact Hst|].
  split; [exact Hp|]. split; [exact Hn|]. split; [exact Hd|].
  split; [rewrite Hn; lia|].
  split; [rewrite Hwrite, Hn; reflexivity|].
  split; [|exact Hsafe].
  destruct (Hread 23 ltac:(lia)) as [_ ->]. rewrite Hn. reflexivity.
Defined.

(** C6 (interleaver positions), as amended.  When writes succeed, feeding
    any stream [l] to a new converter succeeds, and the stream emitted so
    far has one byte for each complete frame of 24 fed; the byte fed at
    index [k] is found at position [out_pos k] of the emitted stream as soon
    as that position has been emitted; [out_pos] is computed from the index
    and the delay table alone and is injective; and de-interleaving through
    [out_pos] gives back the first [n] bytes fed once 2688 more bytes have
    followed them. *)
Theorem interleaver_roundtrip (E : Env) (tr0 dtr r0 : Q) (mix : bool)
    (disc : string) (l : list Z) :
  (forall content data, env_write_ok E content data = true) ->
  exists conv' file',
    feed E (NewConverter tr0 dtr r0 mix disc) [] l = Ok (conv', file') /\
    let out := emitted conv' file' in
    (forall k1 k2, out_pos k1 = out_pos k2 -> k1 = k2) /\
    Z.of_nat (length out) = 24 * (Z.of_nat (length l) / 24) /\
    (forall k x, l !! k = Some x -> out_pos k < Z.of_nat (length out) ->
       out !! Z.to_nat (out_pos k) = Some x) /\
    (forall n, (n + 2688 <= length l)%nat -> deinterleave out n = take n l).
Proof.
  intros Hw.
  set (conv := NewConverter tr0 dtr r0 mix disc).
  pose proof (fresh_new tr0 dtr r0 mix disc) as Hfresh. fold conv in Hfresh.
  pose proof (fresh_ring_ok conv Hfresh) as Hok.
  destruct (feed_sound E l conv [] Hok) as [more Hmore].
  destruct (sound_step_quiet E _ _ _ _ Hw Hmore) as (conv' & file' & Hfeed).
  exists conv', file'. split; [done|].
  destruct (feed_interleaver_inv E l [] conv [] conv' file' Hok) as [Hok' Hinv];
    [rewrite (fresh_emitted conv Hfresh); by apply interleaver_inv_init|done|].
  rewrite app_nil_l in Hinv.
  destruct Hinv as (_ & _ & Hlen & Ha & _). cbv zeta.
  split; [apply out_pos_inj|]. split; [done|]. split; [done|].
  intros n Hn. unfold deinterleave.
  apply list_eq. intros i. rewrite list_lookup_fmap.
  destruct (decide (i < n)%nat) as [Hi|Hi].
  - rewrite lookup_seq_lt by done. rewrite lookup_take_lt by done. simpl.
    destruct (lookup_lt_is_Some_2 l i ltac:(lia)) as [x Hx].
    rewrite Hx. rewrite (Ha i x Hx); [done|].
    rewrite Hlen. pose proof (out_pos_range i) as Hr.
    pose proof (Z.div_mod (Z.of_nat i) 24 ltac:(lia)).
    pose proof (Z.mod_pos_bound (Z.of_nat i) 24 ltac:(lia)).
    pose proof (Z.div_mod (Z.of_nat (length l)) 24 ltac:(lia)).
    pose proof (Z.mod_pos_bound (Z.of_nat (length l)) 24 ltac:(lia)).
    lia.
  - rewrite lookup_seq_ge by lia. rewrite lookup_take_ge by lia. done.
Qed.

Lemma interleaver_roundtrip_witness :
  let l := seqZ 1 24 ++ replicate 2688 0 in
  (forall content data, env_write_ok (flat_env 0) content data = true) /\
  exists conv' file',
    feed (flat_env 0) (NewConverter 1000 1 24.5 false "cd") [] l
      = Ok (conv', file') /\
    Z.of_nat (length (emitted conv' file')) = 2712 /\
    emitted conv' file' !! Z.to_nat (out_pos 0) = Some 1 /\
    deinterleave (emitted conv' file') 24 = seqZ 1 24.
Proof.
  intros l. split; [intros; reflexivity|].
  destruct (interleaver_roundtrip (flat_env 0) 1000 1 24.5 false "cd" l)
    as (conv' & file' & Hfeed & _ & Hlen & Hpos & Hde); [intros; reflexivity|].
  exists conv', file'. split; [exact Hfeed|]. split; [exact Hlen|].
  split.
  - apply (Hpos 0%nat 1); [reflexivity|]. cbv zeta in Hlen. rewrite Hlen.
    reflexivity.
  - rewrite (Hde 24%nat); [reflexivity|].
    unfold l. rewrite length_app, length_seqZ, length_replicate. lia.
Defined.

(** C6 as stated fails: the interleaver holds back the bytes whose position
    has not been emitted yet, and nothing ever flushes its ring.  After 48
    distinct markers the 48 bytes emitted are the zeros the ring started
    with; none of the markers is among them, and de-interleaving does not
    give the stream back. *)
Lemma interleaver_keeps_last_bytes :
  exists conv' file',
    feed (flat_env 0) (NewConverter 1000 1 24.5 false "cd") [] (seqZ 1 48)
      = Ok (conv', file') /\
    NoDup (seqZ 1 48) /\
    emitted conv' file' = replicate 48 0 /\
    deinterleave (emitted conv' file') 48 <> seqZ 1 48.
Proof.
  assert (H : exists conv' file',
    feed (flat_env 0) (NewConverter 1000 1 24.5 false "cd") [] (seqZ 1 48)
      = Ok (conv', file') /\
    emitted conv' file' = replicate 48 0).
  { eexists _, _. split; vm_compute; reflexivity. }
  destruct H as (conv' & file' & Hfeed & Hout).
  exists conv', file'. split; [exact Hfeed|]. split; [apply NoDup_seqZ|].
  split; [exact Hout|]. rewrite Hout. vm_compute. discriminate.
Qed.

(** C9 (progress reports), as amended.  In a run of the sequential encoder
    with a progress callback, [tr0 > 0] and [dtr >= 0], the callback is
    called once in every iteration of the track loop, with
    [floor (100 * c / totalSize)] for the accumulated sample count [c] at
    that moment, and the values reported are non-decreasing. *)
Theorem progress_reports_monotone (E : Env) (conv : Converter) (st : LoopState) :
  fresh conv -> progressCallback conv = true ->
  (0 < tr0 conv)%Q -> (0 <= dtr conv)%Q ->
  loop_reach E conv st ->
  let total := totalSize_of (discType conv) in
  StronglySorted Z.le (ls_reports st) /\
  length (ls_reports st) = ls_track st /\
  (forall st', track_body E st = Continue st' ->
     ls_reports st' =
     ls_reports st ++ [Qfloor (100 * ls_c st / inject_Z total)]).
Proof.
  intros Hfresh Hprog Htr Hdtr Hst total.
  pose proof (fresh_ring_ok conv Hfresh) as Hok.
  destruct (loop_reach_reports E conv Hok Htr Hdtr st Hst) as (Hs & _ & Hl).
  split; [done|]. split; [by apply Hl|].
  intros st' Hbody.
  destruct (loop_reach_step_fed E conv Hok st st' Hst Hbody) as (_ & -> & _).
  destruct (loop_reach_setup E conv Hok st Hst) as [_ Hsame].
  destruct Hsame as (_ & _ & _ & _ & Hdisc & Hprog' & _).
  destruct (loop_reach_spiral E conv Hok Htr Hdtr st Hst) as [_ Hc].
  unfold reports_after. rewrite Hprog', Hprog, Hdisc.
  rewrite progress_floor; [done|done|apply totalSize_pos].
Qed.

Lemma progress_reports_monotone_witness :
  exists st,
    loop_reach (flat_env 0) reporting_converter st /\
    ls_track st = 2%nat /\
    StronglySorted Z.le (ls_reports st) /\
    length (ls_reports st) = 2%nat.
Proof.
  pose proof (run_tracks_reach (flat_env 0) reporting_converter 2
                (initial_loop reporting_converter)) as Hreach.
  assert (Htrack : ls_track <$> run_tracks (flat_env 0) 2
                     (initial_loop reporting_converter) = Some 2%nat)
    by (vm_compute; reflexivity).
  destruct (run_tracks (flat_env 0) 2 (initial_loop reporting_converter))
    as [st|]; [|discriminate].
  specialize (Hreach st (lr_init _ _) eq_refl).
  injection Htrack as Htrack.
  exists st. split; [exact Hreach|]. split; [exact Htrack|].
  destruct (progress_reports_monotone (flat_env 0) reporting_converter st)
    as (Hs & Hl & _).
  - apply fresh_progress, fresh_new.
  - reflexivity.
  - reflexivity.
  - discriminate.
  - exact Hreach.
  - split; [exact Hs|]. rewrite Hl. exact Htrack.
Defined.

(** C9 as stated fails: with the valid parameters [tr0 = 10], [dtr = 1],
    [r0 = 1] the first two calls of the progress callback both report 0, so
    the callback is called twice in a row with the same value. *)
Lemma progress_reports_repeat :
  exists st,
    loop_reach (flat_env 0) reporting_converter st /\
    ls_reports st = [0; 0] /\
    ~ no_repeat (ls_reports st).
Proof.
  pose proof (run_tracks_reach (flat_env 0) reporting_converter 2
                (initial_loop reporting_converter)) as Hreach.
  assert (Hrep : ls_reports <$> run_tracks (flat_env 0) 2
                   (initial_loop reporting_converter) = Some [0; 0])
    by (vm_compute; reflexivity).
  destruct (run_tracks (flat_env 0) 2 (initial_loop reporting_converter))
    as [st|]; [|discriminate].
  injection Hrep as Hrep.
  exists st. split; [by apply Hreach; [apply lr_init|]|]. split; [done|].
  rewrite Hrep. simpl. intros [H _]. by apply H.
Qed.


(** C3 (ordered reassembly).  Whatever results arrive, in whatever order,
    and whatever the writes do, the collector has written the tracks
    0, 1, 2, ... up to [nextTrackToWrite], each once and in this order; the
    file is the data of these tracks in this order, and each written track
    came in with an error-free result.  When the results of the tracks
    0 .. n-1 arrive, one each and in any order, and no write fails, the file
    is the data of the tracks 0 .. n-1 in the order of the tracks. *)
Theorem reassembly_in_track_order (E : Env) (arrival : list TrackResult) :
  let col := collect E arrival in
  (col_written col).*1 = seqZ 0 (nextTrackToWrite col) /\
  col_file col = concat (col_written col).*2 /\
  Forall (fun w => from_result arrival w.1 w.2) (col_written col) /\
  (forall rs,
     (forall content data, env_write_ok E content data = true) ->
     Forall (fun r => res_err r = None) rs ->
     res_trackIndex <$> rs = seqZ 0 (Z.of_nat (length rs)) ->
     arrival ≡ₚ rs ->
     nextTrackToWrite col = Z.of_nat (length rs) /\
     col_file col = concat (res_data <$> rs)).
Proof.
  intros col.
  destruct (collect_log_ok E arrival) as (_ & Hidx & Hfile & Hfrom & _).
  split; [done|]. split; [done|]. split; [done|].
  intros rs Hw Herr Hrs Hperm. by apply collect_in_order.
Qed.

Lemma reassembly_in_track_order_witness :
  let r0 := {| res_trackIndex := 0; res_data := [16; 33]; res_err := None |} in
  let r1 := {| res_trackIndex := 1; res_data := [40]; res_err := None |} in
  let r2 := {| res_trackIndex := 2; res_data := [170; 16]; res_err := None |} in
  [r2; r0; r1] ≡ₚ [r0; r1; r2] /\
  col_file (collect (flat_env 0) [r2; r0; r1]) = [16; 33; 40; 170; 16].
Proof.
  intros r0 r1 r2.
  assert (Hperm : [r2; r0; r1] ≡ₚ [r0; r1; r2])
    by exact (Permutation_cons_append [r0; r1] r2).
  split; [exact Hperm|].
  destruct (reassembly_in_track_order (flat_env 0) [r2; r0; r1])
    as (_ & _ & _ & Hord).
  destruct (Hord [r0; r1; r2]) as [_ Hfile].
  - intros; reflexivity.
  - repeat constructor.
  - reflexivity.
  - exact Hperm.
  - exact Hfile.
Defined.


(** C10 (sample phase of parallel tracks).  Every job the generator has sent
    carries [zf = 0], and the generator's own [zf] stays 0; the sequential
    encoder starts a track with the phase the previous track ended with; and
    the two drivers can choose different dither branches for the same
    sample: for a single-colour image of gray value 7 and [tr0 = 48],
    [dtr = 1], [r0 = 1], the sequential encoder starts track 1 with
    [zf = 3] and emits palette byte 0 for its first sample, the worker of
    job 1 starts with [zf = 0] and emits palette byte 1. *)
Theorem generator_restarts_sample_phase :
  (forall E conv gs,
     gen_reach E conv gs ->
     gs_zf gs = 0 /\ Forall (fun job => job_zf job = 0) (gs_jobs gs)) /\
  (forall E conv st st',
     fresh conv -> loop_reach E conv st -> track_body E st = Continue st' ->
     ls_zf st' = phase_after (Z.to_nat (trunc (ls_tr st))) (ls_zf st)) /\
  (exists st job data,
     loop_reach (flat_env 7) phase_converter st /\
     ls_track st = 1%nat /\ ls_zf st = 3 /\
     (exists gs, gen_reach (flat_env 7) phase_converter gs /\
                 gs_jobs gs !! 1%nat = Some job) /\
     job_trackIndex job = 1 /\ job_zf job = 0 /\
     job_zs job = ls_zs st /\ job_itr job = trunc (ls_tr st) /\
     symbols_of_track (flat_env 7) st !! 0%nat = Some (palette_byte 0) /\
     processTrack (flat_env 7) quiet_schedule false 100 100 job = Ok data /\
     data !! 0%nat = Some (palette_byte 1)).
Proof.
  split; [|split].
  - intros E conv gs Hgs.
    destruct (gen_reach_jobs E conv gs Hgs) as (H1 & H2 & _). done.
  - intros E conv st st' Hfresh Hst Hbody.
    pose proof (fresh_ring_ok conv Hfresh) as Hok.
    destruct (loop_reach_setup E conv Hok st Hst) as [Hok' _].
    destruct (track_body_Continue E st st' Hok' Hbody)
      as (conv' & file' & more & _ & _ & ->).
    done.
  - set (E := flat_env 7).
    assert (Hseq :
      (fun st => (ls_track st, ls_zf st, ls_zs st, trunc (ls_tr st),
                  symbols_of_track E st !! 0%nat))
        <$> run_tracks E 1 (initial_loop phase_converter)
      = Some (1%nat, 3, 1, 49, Some 16)) by (vm_compute; reflexivity).
    pose proof (run_tracks_reach E phase_converter 1
                  (initial_loop phase_converter)) as Hreach.
    destruct (run_tracks E 1 (initial_loop phase_converter)) as [st|];
      [|discriminate].
    specialize (Hreach st (lr_init _ _) eq_refl).
    injection Hseq as Htrack Hzf Hzs Hitr Hsym.
    assert (Hpar :
      (fun gs =>
         (fun job =>
            (job_trackIndex job, job_zf job, job_zs job, job_itr job,
             match processTrack E quiet_schedule false 100 100 job with
             | Ok d => Some (d !! 0%nat)
             | _ => None
             end)) <$> gs_jobs gs !! 1%nat)
        <$> run_gen E 2 phase_converter (initial_gen phase_converter)
      = Some (Some (1, 0, 1, 49, Some (Some 33)))) by (vm_compute; reflexivity).
    pose proof (run_gen_reach E phase_converter 2
                  (initial_gen phase_converter)) as Hgreach.
    destruct (run_gen E 2 phase_converter (initial_gen phase_converter))
      as [gs|]; [|discriminate].
    specialize (Hgreach gs (gr_init _ _) eq_refl).
    injection Hpar as Hpar.
    destruct (gs_jobs gs !! 1%nat) as [job|] eqn:Hjob; [|discriminate].
    injection Hpar as Hidx Hjzf Hjzs Hjitr Hdata.
    destruct (processTrack E quiet_schedule false 100 100 job) as [data| |]
      eqn:Hpt; [|discriminate..].
    injection Hdata as Hdata.
    exists st, job, data.
    split; [exact Hreach|]. split; [exact Htrack|]. split; [exact Hzf|].
    split; [by exists gs|]. split; [exact Hidx|]. split; [exact Hjzf|].
    split; [congruence|]. split; [congruence|].
    split; [exact Hsym|]. split; [exact Hpt|]. exact Hdata.
Qed.

Lemma generator_restarts_sample_phase_witness :
  exists gs job0 job1,
    gen_reach (flat_env 7) phase_converter gs /\
    gs_jobs gs = [job0; job1] /\
    job_trackIndex job1 = 1 /\
    gs_zf gs = 0 /\ job_zf job0 = 0 /\ job_zf job1 = 0.
Proof.
  pose proof (run_gen_reach (flat_env 7) phase_converter 2
                (initial_gen phase_converter)) as Hreach.
  assert (Hjobs : exists job0 job1,
    (fun gs => (gs_jobs gs, job_trackIndex <$> gs_jobs gs))
      <$> run_gen (flat_env 7) 2 phase_converter (initial_gen phase_converter)
    = Some ([job0; job1], [0; 1])).
  { eexists _, _. vm_compute. reflexivity. }
  destruct Hjobs as (job0 & job1 & Hjobs).
  destruct (run_gen (flat_env 7) 2 phase_converter (initial_gen phase_converter))
    as [gs|]; [|discriminate].
  specialize (Hreach gs (gr_init _ _) eq_refl).
  injection Hjobs as Hjobs Hidx.
  destruct generator_restarts_sample_phase as [Hgen _].
  destruct (Hgen (flat_env 7) phase_converter gs Hreach) as [Hzf Hall].
  rewrite Hjobs in Hall, Hidx.
  exists gs, job0, job1. split; [exact Hreach|]. split; [exact Hjobs|].
  split; [by injection Hidx|]. split; [exact Hzf|].
  apply Forall_cons in Hall as [H0 Hall].
  apply Forall_cons in Hall as [H1 _]. by split.
Defined.


(** C2 (worker failure), evaluated on the code.  The claim asks that a
    worker error aborts the pipeline and reaches the caller.  The code does
    not do this: [ConvertParallel] returns [nil] whenever it could create
    its file, whatever the workers returned.  In the scenario of the claim,
    ten jobs of which the worker of track 5 returns an error, the collector
    drops that result, [ConvertParallel] returns [nil], and the tracks
    written are 0 to 4: no track from the failed one on is written, but the
    error is lost. *)
Theorem worker_error_is_dropped :
  (forall E fuel conv sch arrival po,
     env_create_ok E = true ->
     ConvertParallel E fuel conv sch arrival = Some (Returned po) ->
     par_ret po = None) /\
  (exists gs arrival po col,
     gen_loop cancel_env 11 small_converter (initial_gen small_converter)
       = Some gs /\
     job_trackIndex <$> gs_jobs gs = seqZ 0 10 /\
     possible_arrival cancel_env failing_schedule false (gs_jobs gs) arrival /\
     (exists r, r ∈ arrival /\ res_trackIndex r = 5 /\
                res_err r = Some ErrContext) /\
     ConvertParallel cancel_env 11 small_converter failing_schedule arrival
       = Some (Returned po) /\
     par_ret po = None /\
     par_collector po = Some col /\
     (col_written col).*1 = [0; 1; 2; 3; 4]).
Proof.
  split.
  - intros E fuel conv sch arrival po Hcreate Hrun.
    unfold ConvertParallel in Hrun. rewrite Hcreate in Hrun.
    destruct (workers_panic E sch _ _); [done|].
    destruct (gen_loop E fuel conv (initial_gen conv)); [|done].
    by injection Hrun as <-.
  - eexists _, _, _, _.
    split; [vm_compute; reflexivity|].
    split; [vm_compute; reflexivity|].
    split; [apply reverse_Permutation|].
    split.
    { eexists. split.
      - apply (list_elem_of_lookup_2 _ 4%nat). vm_compute. reflexivity.
      - split; reflexivity. }
    split; [vm_compute; reflexivity|].
    split; [reflexivity|]. split; [reflexivity|].
    vm_compute. reflexivity.
Qed.


(** C4 (the flat-gray case), as amended.  With [tr0 = 1000], [dtr = 0],
    [r0 = 24.5], disc type cd and an image of a single colour, in an
    environment where writes succeed and nobody cancels: the radius step is
    0; at every head of the track loop the track has 1000 samples and the
    radius is 24.5; every byte handed to the interleaver is the palette byte
    of [low = gray div 85] or of [high = min (low + 1) 3], and all of them
    are the same byte when [gray mod 85] is 0 or 84; and the run completes
    after exactly [floor (800 * 1024 * 1024 / 1000)] iterations of the track
    loop. *)
Theorem flat_gray_run (E : Env) (px : Z * Z * Z * Z) (mix : bool) :
  quiet E -> env_create_ok E = true -> flat_image E px ->
  let conv := flat_converter mix in
  let g := gray_of_pixel E px in
  let low := g / 85 in
  let high := Z.min (low + 1) 3 in
  (dtr conv * r0 conv / tr0 conv == 0)%Q /\
  (forall st, loop_reach E conv st ->
     trunc (ls_tr st) = 1000 /\
     length (symbols_of_track E st) = 1000%nat /\
     (ls_r st == 24.5)%Q /\
     Forall (fun b => b = palette_byte low \/ b = palette_byte high) (ls_fed st) /\
     (g mod 85 = 0 -> Forall (fun b => b = palette_byte low) (ls_fed st)) /\
     (g mod 85 = 84 -> Forall (fun b => b = palette_byte high) (ls_fed st))) /\
  (exists st file,
     ls_track st = Z.to_nat (800 * 1024 * 1024 / 1000) /\
     forall fuel, (Z.to_nat (800 * 1024 * 1024 / 1000) < fuel)%nat ->
       Convert E fuel conv = Some (Completed st file)).
Proof.
  intros Hquiet Hcreate Hflat conv g low high.
  pose proof (flat_converter_ok mix) as Hok. fold conv in Hok.
  split; [reflexivity|]. split.
  - induction 1 as [|st st' Hst (IHtr & IHlen & IHr & IHany & IHlow & IHhigh) Hg Hbody].
    + cbn [initial_loop ls_tr ls_r ls_fed].
      split; [reflexivity|]. split; [by rewrite symbols_of_track_length|].
      split; [reflexivity|]. repeat split; intros; constructor.
    + destruct (loop_reach_setup E conv Hok st Hst) as [Hok' Hsame].
      destruct (loop_reach_phases E conv st Hok Hst) as [Hzs Hzf].
      assert (Hst' : loop_reach E conv st') by (eapply lr_step; eauto).
      destruct (loop_reach_phases E conv st' Hok Hst') as [Hzs' Hzf'].
      destruct (track_body_Continue E st st' Hok' Hbody)
        as (conv' & file' & more & _ & _ & Heq).
      destruct Hsame as (Htr0 & Hdtr & Hr0 & _).
      assert (Htr' : (ls_tr st' == ls_tr st)%Q).
      { rewrite Heq. cbn [ls_tr next_loop_state]. rewrite Hdtr.
        unfold conv, flat_converter. cbn [dtr NewConverter]. lra. }
      assert (Htrunc' : trunc (ls_tr st') = 1000).
      { rewrite <- IHtr.
        assert (Hnn : (0 <= ls_tr st)%Q).
        { destruct (loop_reach_spiral E conv Hok ltac:(done) ltac:(done) st Hst)
            as [Hge _].
          unfold conv, flat_converter in Hge. cbn [tr0 NewConverter] in Hge. lra. }
        rewrite !trunc_floor by lra. by apply Qfloor_comp. }
      destruct (track_symbols_flat E px Hflat (proj2 (proj2 Hquiet))
                  (mixColors (ls_conv st))
                  (inject_Z (env_width E) / 2)%Q (inject_Z (env_height E) / 2)%Q
                  (ir * ls_r st / rcd)%Q (trunc (ls_tr st))
                  (env_width E) (env_height E) (ls_zs st)
                  (Z.to_nat (trunc (ls_tr st))) ltac:(lia) 0 (ls_zf st)
                  (ls_draws st) Hzf)
        as (_ & Hany & Hlow & Hhigh).
      fold (symbols_of_track E st) in Hany, Hlow, Hhigh.
      split; [done|]. split; [by rewrite symbols_of_track_length, Htrunc'|].
      split.
      { rewrite Heq. cbn [ls_r next_loop_state]. rewrite Hdtr, Hr0, Htr0, IHr.
        reflexivity. }
      rewrite Heq. cbn [ls_fed next_loop_state].
      split; [apply Forall_app; by split|].
      split; intros Hm; apply Forall_app; split; auto.
  - destruct (flat_run_completes E mix Hquiet Hcreate) as (st & _ & Htrack & Hfuel).
    exists st, (emitted (ls_conv st) (ls_file st)). split; [exact Htrack|].
    exact Hfuel.
Qed.

Lemma flat_gray_run_witness :
  quiet (flat_env 170) /\ flat_image (flat_env 170) (0, 0, 0, 0) /\
  exists st file,
    ls_track st = Z.to_nat (800 * 1024 * 1024 / 1000) /\
    forall fuel, (Z.to_nat (800 * 1024 * 1024 / 1000) < fuel)%nat ->
      Convert (flat_env 170) fuel (flat_converter false)
      = Some (Completed st file).
Proof.
  assert (Hquiet : quiet (flat_env 170)).
  { split; [intros; reflexivity|]. split; [intros; reflexivity|].
    intros k. simpl. lia. }
  assert (Hflat : flat_image (flat_env 170) (0, 0, 0, 0))
    by (intros x y; reflexivity).
  split; [exact Hquiet|]. split; [exact Hflat|].
  exact (proj2 (proj2 (flat_gray_run (flat_env 170) (0, 0, 0, 0) false
                         Hquiet eq_refl Hflat))).
Defined.

(** C4 as stated fails: for a single-colour image of gray value 2 the first
    track already hands two different palette bytes to the interleaver (the
    ordered dithering compares the constant remainder 2 with a threshold
    that moves with the sample phase). *)
Lemma flat_gray_symbols_differ :
  exists st,
    loop_reach (flat_env 2) (flat_converter false) st /\
    ls_fed st !! 0%nat = Some (palette_byte 1) /\
    ls_fed st !! 2%nat = Some (palette_byte 0) /\
    palette_byte 1 <> palette_byte 0.
Proof.
  pose proof (run_tracks_reach (flat_env 2) (flat_converter false) 1
                (initial_loop (flat_converter false))) as Hreach.
  assert (Hfed :
    (fun st => (ls_fed st !! 0%nat, ls_fed st !! 2%nat))
      <$> run_tracks (flat_env 2) 1 (initial_loop (flat_converter false))
    = Some (Some 33, Some 16)) by (vm_compute; reflexivity).
  destruct (run_tracks (flat_env 2) 1 (initial_loop (flat_converter false)))
    as [st|]; [|discriminate].
  injection Hfed as H0 H2.
  exists st. split; [by apply Hreach; [apply lr_init|]|].
  split; [exact H0|]. split; [exact H2|]. discriminate.
Qed.


(** C8 (parameter checks of the entry point), as amended.  [burnImage]
    rejects a disc type that is neither cd nor dvd (in any letter case)
    before it loads the image or creates a converter.  A [tr0] or [dtr]
    equal to zero, with no preset named, is not rejected: the run is the one
    of the default preset of the disc type, whose three parameters are
    positive. *)
Theorem burnImage_parameter_checks (E : Env) (discType : string)
    (tr0 dtr r0 : Q) (mix : bool) (preset : string) (multi : bool)
    (fuel : nat) (sch : Schedule) (arrival : list TrackResult) :
  (ToLower discType <> "cd" -> ToLower discType <> "dvd" ->
   burnImage E discType tr0 dtr r0 mix preset multi fuel sch arrival
   = Some (Ok {| burn_ret := Some ErrInvalidDisc; burn_started := None;
                 burn_output := false |})) /\
  (preset = "" -> (tr0 == 0)%Q \/ (dtr == 0)%Q ->
   let p := GetDefaultPreset (ToLower discType) in
   burnImage E discType tr0 dtr r0 mix preset multi fuel sch arrival
   = burnImage E discType (Tr0 p) (Dtr p) (R0 p) mix preset multi fuel sch arrival /\
   (0 < Tr0 p)%Q /\ (0 < Dtr p)%Q /\ (0 < R0 p)%Q).
Proof.
  split.
  - intros Hcd Hdvd. unfold burnImage.
    apply String.eqb_neq in Hcd, Hdvd. by rewrite Hcd, Hdvd.
  - intros -> Hzero p.
    assert (Hp : (0 < Tr0 p)%Q /\ (0 < Dtr p)%Q /\ (0 < R0 p)%Q).
    { unfold p, GetDefaultPreset.
      destruct (String.eqb (ToLower (ToLower discType)) "dvd"); by vm_compute. }
    split; [|exact Hp]. destruct Hp as (Htr & Hdtr & _).
    unfold burnImage.
    destruct (negb (String.eqb (ToLower discType) "cd") &&
              negb (String.eqb (ToLower discType) "dvd")); [done|].
    destruct (negb (env_load_ok E)); [done|].
    assert (Hfirst : choose_preset (ToLower discType) tr0 dtr ""
                     = inr (Some p)).
    { unfold choose_preset. simpl.
      assert (Hz : Qeq_bool tr0 0 || Qeq_bool dtr 0 = true).
      { destruct Hzero as [H|H]; apply Qeq_bool_iff in H; rewrite H;
          [done|apply orb_true_r]. }
      by rewrite Hz. }
    assert (Hsecond : choose_preset (ToLower discType) (Tr0 p) (Dtr p) ""
                      = inr None).
    { unfold choose_preset. simpl.
      assert (H1 : Qeq_bool (Tr0 p) 0 = false).
      { apply not_true_iff_false. rewrite Qeq_bool_iff. lra. }
      assert (H2 : Qeq_bool (Dtr p) 0 = false).
      { apply not_true_iff_false. rewrite Qeq_bool_iff. lra. }
      by rewrite H1, H2. }
    by rewrite Hfirst, Hsecond.
Qed.

Lemma burnImage_parameter_checks_witness :
  ToLower "Blu-Ray" <> "cd" /\ ToLower "Blu-Ray" <> "dvd" /\
  burnImage (flat_env 0) "Blu-Ray" 1000 1 24.5 false "" false 0 quiet_schedule []
  = Some (Ok {| burn_ret := Some ErrInvalidDisc; burn_started := None;
                burn_output := false |}).
Proof.
  split; [discriminate|]. split; [discriminate|].
  apply (proj1 (burnImage_parameter_checks (flat_env 0) "Blu-Ray" 1000 1 24.5
                  false "" false 0 quiet_schedule [])); discriminate.
Defined.

(** C8 as stated fails: called with [tr0 = 0] and [dtr = 0] (the defaults of
    the command line) for a cd, [burnImage] does not reject the run.  It
    creates a converter with the parameters of the default preset and starts
    the conversion; here the run is interrupted at once, and [burnImage]
    returns no error at all. *)
Lemma burnImage_accepts_zero_parameters :
  burnImage interrupted_env "cd" 0 0 24.5 false "" false 1 quiet_schedule []
  = Some (Ok {| burn_ret := None;
                burn_started := Some (22951.52, 1.3865961, 24.5)%Q;
                burn_output := false |}).
Proof. vm_compute. reflexivity. Qed.


(** ** The two drivers on one input *)

Lemma flat_env_quiet g : quiet (flat_env g).
Proof.
  split; [intros; reflexivity|]. split; [intros; reflexivity|].
  intros k. simpl. lia.
Qed.

(** The first two tracks of the sequential run of the comparison. *)
Lemma divergence_sequential_prefix :
  exists st2,
    run_tracks (flat_env 6) 2 (initial_loop divergence_converter) = Some st2 /\
    ls_fed st2 !! 3001%nat = Some 16 /\
    Z.of_nat (length (ls_fed st2)) = 6003.
Proof.
  assert (H :
    (fun st : LoopState => (ls_fed st !! 3001%nat, Z.of_nat (length (ls_fed st))))
      <$> run_tracks (flat_env 6) 2 (initial_loop divergence_converter)
    = Some (Some 16, 6003)) by (vm_compute; reflexivity).
  destruct (run_tracks (flat_env 6) 2 (initial_loop divergence_converter))
    as [st2|]; [|discriminate].
  injection H as H1 H2. by exists st2.
Qed.

(** The first two jobs of the parallel run of the comparison, and what their
    workers return. *)
Lemma divergence_parallel_prefix :
  exists gs2 job0 job1 d0 d1,
    run_gen (flat_env 6) 2 divergence_converter
      (initial_gen divergence_converter) = Some gs2 /\
    gs_jobs gs2 = [job0; job1] /\
    processTrack (flat_env 6) quiet_schedule false 100 100 job0 = Ok d0 /\
    processTrack (flat_env 6) quiet_schedule false 100 100 job1 = Ok d1 /\
    d0 !! 0%nat = Some 33 /\ length d0 = 3001%nat /\
    d1 !! 0%nat = Some 33 /\ length d1 = 3002%nat.
Proof.
  eexists _, _, _, _, _.
  split; [vm_compute; reflexivity|].
  split; [reflexivity|].
  split; [vm_compute; reflexivity|].
  split; [vm_compute; reflexivity|].
  repeat split; vm_compute; reflexivity.
Qed.

(** The comparison of the two drivers, for any environment and converter
    whose first two tracks are known: the sequential encoder fed [16] as
    its sample 3001, the first two workers returned tracks of 3001 and 3002
    bytes that both start with 33. *)
Section Divergence.
Variable E : Env.
Variable conv : Converter.
Hypothesis Hquiet : quiet E.
Hypothesis Hfresh : fresh conv.
Hypothesis Htr0 : (0 < tr0 conv)%Q.
Hypothesis Hdtr : (0 <= dtr conv)%Q.
Hypothesis Hnc : forall cb (k : nat), cancelCallback conv = Some cb -> cb k = false.
Hypothesis Hcreate : env_create_ok E = true.
Hypothesis Hwidth : env_width E = 100.
Hypothesis Hheight : env_height E = 100.

Lemma drivers_differ st2 gs2 job0 job1 d0 d1 :
  run_tracks E 2 (initial_loop conv) = Some st2 ->
  ls_fed st2 !! 3001%nat = Some 16 ->
  Z.of_nat (length (ls_fed st2)) = 6003 ->
  run_gen E 2 conv (initial_gen conv) = Some gs2 ->
  gs_jobs gs2 = [job0; job1] ->
  processTrack E quiet_schedule false 100 100 job0 = Ok d0 ->
  processTrack E quiet_schedule false 100 100 job1 = Ok d1 ->
  d0 !! 0%nat = Some 33 -> length d0 = 3001%nat ->
  d1 !! 0%nat = Some 33 -> length d1 = 3002%nat ->
  exists st file gs n,
    (forall fuel, (n < fuel)%nat ->
       Convert E fuel conv = Some (Completed st file)) /\
    (forall fuel, (n < fuel)%nat ->
       gen_loop E fuel conv (initial_gen conv) = Some gs) /\
    forall arrival,
      possible_arrival E quiet_schedule false (gs_jobs gs) arrival ->
      exists tracks out,
        (forall fuel, (n < fuel)%nat ->
           ConvertParallel E fuel conv quiet_schedule arrival =
           Some (Returned {| par_ret := None;
                             par_collector := Some (collect E arrival);
                             par_jobs := gs_jobs gs |})) /\
        col_file (collect E arrival) = concat tracks /\
        file !! 0%nat = Some 0 /\
        col_file (collect E arrival) !! 0%nat = Some 33 /\
        interleave_tracks E conv tracks = Ok out /\
        file !! (Z.to_nat 5521) = Some 16 /\
        out !! (Z.to_nat 5521) = Some 33.
Proof.
  intros Hrun2 Hsym2 Hlen2 Hgen2 Hjobs2 Hd0 Hd1 Hd00 Hd0len Hd10 Hd1len.
  pose proof (fresh_ring_ok conv Hfresh) as Hok.
  assert (Hpos : out_pos 3001 = 5521) by reflexivity.
  (* the sequential run *)
  destruct (Convert_completes E conv Hok Htr0 Hdtr Hquiet Hnc Hcreate)
    as (st & n1 & Hst & _ & Hseq).
  set (file := emitted (ls_conv st) (ls_file st)) in *.
  assert (Hpre : ls_fed st2 `prefix_of` ls_fed st).
  { pose proof (run_tracks_reach E conv 2 _ _ (lr_init _ _) Hrun2) as Hst2.
    destruct (loop_reach_setup E conv Hok st2 Hst2) as [Hok2 _].
    eapply (track_loop_fed_prefix E (S n1) st2 st file Hok2).
    rewrite <- (track_loop_run_tracks E 2 (S n1) _ _ Hrun2).
    specialize (Hseq (2 + S n1)%nat ltac:(lia)).
    unfold Convert in Hseq. rewrite Hcreate in Hseq. exact Hseq. }
  destruct Hpre as [rest Hfed].
  pose proof (loop_reach_interleaver_inv E conv st Hfresh Hst)
    as (_ & _ & Hflen & Ha & Ha0 & _).
  fold file in Hflen, Ha, Ha0.
  assert (Hfedlen : 6003 <= Z.of_nat (length (ls_fed st))).
  { rewrite Hfed, length_app. lia. }
  assert (Hfilelen : 6000 <= Z.of_nat (length file)).
  { rewrite Hflen.
    pose proof (Z.div_mod (Z.of_nat (length (ls_fed st))) 24 ltac:(lia)).
    pose proof (Z.mod_pos_bound (Z.of_nat (length (ls_fed st))) 24 ltac:(lia)).
    lia. }
  assert (Hseq0 : file !! 0%nat = Some 0) by (apply (Ha0 0); lia).
  assert (Hseq1 : file !! (Z.to_nat 5521) = Some 16).
  { rewrite <- Hpos.
    apply Ha; [|lia]. rewrite Hfed. by apply lookup_app_l_Some. }
  (* the job generator *)
  destruct (ConvertParallel_generates E conv Htr0 Hdtr (proj1 (proj2 Hquiet)) Hnc)
    as (gs & n2 & Hgs & Hgen).
  assert (Hjpre : gs_jobs gs2 `prefix_of` gs_jobs gs).
  { apply (gen_loop_jobs_prefix E conv (S n2)).
    rewrite <- (gen_loop_run_gen E conv 2 (S n2) _ _ Hgen2).
    apply Hgen. lia. }
  rewrite Hjobs2 in Hjpre. destruct Hjpre as [jobs' Hjobs].
  destruct (gen_reach_jobs E conv gs Hgs) as (_ & _ & Hidx0 & Hidx).
  exists st, file, gs, (n1 + n2)%nat.
  split; [intros fuel Hf; apply Hseq; lia|].
  split; [intros fuel Hf; apply Hgen; lia|].
  intros arrival Harr. unfold possible_arrival in Harr.
  pose proof (gen_reach_itr_nonneg E conv Htr0 Hdtr gs Hgs) as Hitr.
  destruct (published_quiet E false (gs_jobs gs) Hitr) as (Herr & Hridx & Hdata).
  set (rs := published E quiet_schedule false (gs_jobs gs)) in *.
  assert (Hrsidx : res_trackIndex <$> rs = seqZ 0 (Z.of_nat (length rs))).
  { rewrite Hridx, Hidx. f_equal.
    assert (Hl : length rs = Z.to_nat (gs_trackIndex gs)).
    { rewrite <- (length_fmap res_trackIndex), Hridx, Hidx. apply length_seqZ. }
    lia. }
  destruct (collect_in_order E (proj1 Hquiet) rs arrival Herr Hrsidx Harr)
    as [_ Hfile].
  exists (res_data <$> rs).
  (* the results of the first two jobs *)
  rewrite Hjobs in Hdata.
  apply Forall2_cons_inv_l in Hdata as (r0 & rs0 & Hr0 & Hdata & Hrs).
  apply Forall2_cons_inv_l in Hdata as (r1 & rs1 & Hr1 & _ & Hrs0).
  rewrite Hwidth, Hheight in Hr0, Hr1.
  rewrite Hd0 in Hr0. rewrite Hd1 in Hr1.
  injection Hr0 as Hr0. injection Hr1 as Hr1.
  assert (Htracks : concat (res_data <$> rs)
                    = d0 ++ d1 ++ concat (res_data <$> rs1)).
  { rewrite Hrs, Hrs0, !fmap_cons. simpl. by rewrite <- Hr0, <- Hr1. }
  assert (Hpar0 : concat (res_data <$> rs) !! 0%nat = Some 33).
  { rewrite Htracks. apply lookup_app_l_Some. done. }
  assert (Hpar1 : concat (res_data <$> rs) !! 3001%nat = Some 33).
  { rewrite Htracks. rewrite lookup_app_r by lia.
    rewrite Hd0len, Nat.sub_diag. by apply lookup_app_l_Some. }
  (* interleaving added to the reassembled tracks *)
  destruct (feed_sound E (concat (res_data <$> rs)) conv [] Hok) as [more Hmore].
  destruct (sound_step_quiet E _ _ _ _ (proj1 Hquiet) Hmore)
    as (conv' & file' & Hfeed).
  destruct (feed_interleaver_inv E (concat (res_data <$> rs)) [] conv []
              conv' file' Hok) as [_ Hinv];
    [rewrite (fresh_emitted conv Hfresh); by apply interleaver_inv_init|done|].
  rewrite app_nil_l in Hinv. destruct Hinv as (_ & _ & Hplen & Hpa & _).
  exists (emitted conv' file').
  split.
  { intros fuel Hf. unfold ConvertParallel. rewrite Hcreate.
    rewrite (gen_sent_loop E conv fuel _ _ (Hgen fuel ltac:(lia))).
    rewrite (workers_do_not_panic E quiet_schedule _ _ Hitr).
    by rewrite (Hgen fuel ltac:(lia)). }
  split; [exact Hfile|]. split; [exact Hseq0|].
  split; [by rewrite Hfile|].
  split; [unfold interleave_tracks; by rewrite Hfeed|].
  split; [exact Hseq1|].
  rewrite <- Hpos.
  apply Hpa; [exact Hpar1|].
  rewrite Hplen, Hpos.
  assert (6003 <= Z.of_nat (length (concat (res_data <$> rs)))).
  { rewrite Htracks, !length_app, Hd0len, Hd1len. lia. }
  pose proof (Z.div_mod (Z.of_nat (length (concat (res_data <$> rs)))) 24 ltac:(lia)).
  pose proof (Z.mod_pos_bound (Z.of_nat (length (concat (res_data <$> rs)))) 24 ltac:(lia)).
  lia.
Qed.

End Divergence.

Lemma divergence_tr0 : (0 < tr0 divergence_converter)%Q.
Proof. reflexivity. Qed.

Lemma divergence_dtr : (0 <= dtr divergence_converter)%Q.
Proof. discriminate. Qed.

Lemma divergence_no_cancel :
  forall cb (k : nat), cancelCallback divergence_converter = Some cb -> cb k = false.
Proof. discriminate. Qed.

(** C1 (the two drivers agree), evaluated on the code.  The claim asks for
    byte-identical output of [Convert] and of the parallel pipeline with
    interleaving added.  On a single-colour image of gray value 6 with the
    valid parameters [tr0 = 3001], [dtr = 1], [r0 = 1], writes that succeed
    and no cancellation, both drivers return, whatever the order in which
    the results arrive, and:
    - as written, the outputs differ at the first byte: the sequential file
      starts with a zero of the interleaver's ring, the parallel file with
      the palette byte 33 of the first sample, because the workers never
      call the interleaver;
    - with interleaving added to the reassembled tracks, the outputs still
      differ, at byte 5521, where the first sample of track 1 is emitted:
      the sequential encoder, which carries the sample phase over from
      track 0, chose palette byte 16 for it, the worker, whose phase
      restarts at 0, chose 33. *)
Theorem parallel_output_differs :
  let E := flat_env 6 in
  let conv := divergence_converter in
  exists st file gs n,
    (forall fuel, (n < fuel)%nat ->
       Convert E fuel conv = Some (Completed st file)) /\
    (forall fuel, (n < fuel)%nat ->
       gen_loop E fuel conv (initial_gen conv) = Some gs) /\
    forall arrival,
      possible_arrival E quiet_schedule false (gs_jobs gs) arrival ->
      exists tracks out,
        (forall fuel, (n < fuel)%nat ->
           ConvertParallel E fuel conv quiet_schedule arrival =
           Some (Returned {| par_ret := None;
                             par_collector := Some (collect E arrival);
                             par_jobs := gs_jobs gs |})) /\
        col_file (collect E arrival) = concat tracks /\
        file !! 0%nat = Some 0 /\
        col_file (collect E arrival) !! 0%nat = Some 33 /\
        interleave_tracks E conv tracks = Ok out /\
        file !! (Z.to_nat 5521) = Some 16 /\
        out !! (Z.to_nat 5521) = Some 33.
Proof.
  cbv zeta.
  destruct divergence_sequential_prefix as (st2 & Hrun2 & Hsym2 & Hlen2).
  destruct divergence_parallel_prefix
    as (gs2 & job0 & job1 & d0 & d1 & Hgen2 & Hjobs2 & Hd0 & Hd1
        & Hd00 & Hd0len & Hd10 & Hd1len).
  apply (drivers_differ (flat_env 6) divergence_converter
           (flat_env_quiet 6) (fresh_new 3001 1 1 false "cd")
           divergence_tr0 divergence_dtr divergence_no_cancel
           eq_refl eq_refl eq_refl
           st2 gs2 job0 job1 d0 d1
           Hrun2 Hsym2 Hlen2 Hgen2 Hjobs2 Hd0 Hd1 Hd00 Hd0len Hd10 Hd1len).
Qed.


(** * Further properties of the sequential encoder *)

Section Outcomes.

Variable E : Env.

(** Which of the two cancellation errors an iteration returns: the cancel
    callback is asked first. *)
Lemma track_body_cancel_error st :
  cancel_seen E st = true ->
  track_body E st =
  Stop (Aborted
          (if match cancelCallback (ls_conv st) with
              | Some cb => cb (ls_track st)
              | None => false
              end
           then ErrCancelled else ErrContext)
          true (ls_reports st)).
Proof.
  unfold cancel_seen, track_body. cbv zeta.
  destruct (match cancelCallback (ls_conv st) with
            | Some cb => cb (ls_track st)
            | None => false
            end); [done|].
  simpl. by intros ->.
Qed.

Lemma final_flush_outcome st :
  match final_flush E st with
  | Completed st' file => st' = st /\ file = emitted (ls_conv st) (ls_file st)
  | Aborted e removed reps =>
      e = ErrFinalWrite /\ removed = false /\ reps = ls_reports st /\
      exists content data, env_write_ok E content data = false
  | Crashed => False
  end.
Proof.
  unfold final_flush, emitted, file_Write. cbv zeta.
  destruct (c (ls_conv st) >? 0) eqn:Hc.
  - destruct (env_write_ok E _ _) eqn:Hw; [done|].
    repeat split; eauto.
  - split; [done|].
    assert (Z.to_nat (c (ls_conv st)) = 0%nat) as -> by lia.
    by rewrite take_0, app_nil_r.
Qed.

Lemma track_loop_outcome conv fuel : forall st o,
  ring_ok conv -> loop_reach E conv st ->
  track_loop E fuel st = Some o -> outcome_ok E conv o.
Proof.
  induction fuel as [|fuel IH]; intros st o Hconv Hst Hloop; [done|].
  simpl in Hloop.
  destruct (loop_reach_setup E conv Hconv st Hst) as [Hok _].
  destruct (loop_guard _ _ _) eqn:Hg.
  - destruct (cancel_seen E st) eqn:Hc.
    + rewrite (track_body_cancel_error st Hc) in Hloop. injection Hloop as <-.
      left. split; [|done].
      destruct (match cancelCallback (ls_conv st) with
                | Some cb => cb (ls_track st)
                | None => false
                end); auto.
    + pose proof (track_body_feed E st Hc) as Hbody.
      destruct (feed_sound E (symbols_of_track E st) (ls_conv st) (ls_file st) Hok)
        as [more Hs].
      destruct (feed E (ls_conv st) (ls_file st) (symbols_of_track E st))
        as [[conv' file']|e|] eqn:Hfeed.
      * rewrite Hbody in Hloop. apply (IH _ _ Hconv) in Hloop; [done|].
        by eapply lr_step.
      * rewrite Hbody in Hloop. injection Hloop as <-.
        destruct Hs as [-> Hw]. right. auto.
      * done.
  - injection Hloop as <-.
    pose proof (final_flush_outcome st) as Hf.
    destruct (final_flush E st) as [st' file|e removed reps|]; [| |done].
    + destruct Hf as [-> ->]. done.
    + destruct Hf as (-> & -> & _ & Hw). right. auto.
Qed.

End Outcomes.

(** X1 (no panic).  [Convert] never panics on an array index: from a
    converter whose ring has 2688 cells, whose sector buffer has 2352 and
    whose cursors are in range, whatever the image, the parameters and the
    environment do, a run that returns does not end in a run-time panic. *)
Theorem Convert_never_panics (E : Env) (fuel : nat) (conv : Converter) :
  ring_ok conv -> Convert E fuel conv <> Some Crashed.
Proof.
  intros Hok Hrun. unfold Convert in Hrun.
  destruct (env_create_ok E); [|done].
  by apply (track_loop_outcome E conv fuel _ _ Hok (lr_init _ _)) in Hrun.
Qed.

Lemma Convert_never_panics_witness :
  ring_ok small_converter /\
  Convert (flat_env 0) 3 small_converter <> Some Crashed.
Proof.
  assert (Hok : ring_ok small_converter) by apply fresh_ring_ok, fresh_new.
  split; [exact Hok|].
  exact (Convert_never_panics (flat_env 0) 3 small_converter Hok).
Defined.

(** X2 (errors of [Convert]).  When [Convert] returns an error, it is one
    of: the file could not be created (nothing else was done); the run was
    cancelled, by the callback or by the context, and then the file was
    removed; a write failed, in the track loop or in the final flush, and
    then the file was left in place. *)
Theorem Convert_abort_reasons (E : Env) (fuel : nat) (conv : Converter)
    (e : error) (removed : bool) (reps : list Z) :
  ring_ok conv ->
  Convert E fuel conv = Some (Aborted e removed reps) ->
  (e = ErrCreate /\ env_create_ok E = false /\ removed = false /\ reps = []) \/
  ((e = ErrCancelled \/ e = ErrContext) /\ removed = true) \/
  ((e = ErrWrite \/ e = ErrFinalWrite) /\ removed = false /\
   exists content data, env_write_ok E content data = false).
Proof.
  intros Hok Hrun. unfold Convert in Hrun.
  destruct (env_create_ok E) eqn:Hcreate.
  - apply (track_loop_outcome E conv fuel _ _ Hok (lr_init _ _)) in Hrun.
    destruct Hrun as [H|H]; auto.
  - injection Hrun as <- <- <-. left. done.
Qed.

Lemma Convert_abort_reasons_witness :
  ring_ok cancelling_converter /\
  Convert (flat_env 0) 3 cancelling_converter
  = Some (Aborted ErrCancelled true [0; 0]) /\
  ((ErrCancelled = ErrCreate /\ env_create_ok (flat_env 0) = false /\
    true = false /\ [0; 0] = []) \/
   ((ErrCancelled = ErrCancelled \/ ErrCancelled = ErrContext) /\ true = true) \/
   ((ErrCancelled = ErrWrite \/ ErrCancelled = ErrFinalWrite) /\ true = false /\
    exists content data, env_write_ok (flat_env 0) content data = false)).
Proof.
  assert (Hok : ring_ok cancelling_converter)
    by apply fresh_ring_ok, fresh_cancel, fresh_progress, fresh_new.
  assert (Hrun : Convert (flat_env 0) 3 cancelling_converter
                 = Some (Aborted ErrCancelled true [0; 0]))
    by (vm_compute; reflexivity).
  split; [exact Hok|]. split; [exact Hrun|].
  exact (Convert_abort_reasons (flat_env 0) 3 cancelling_converter
           ErrCancelled true [0; 0] Hok Hrun).
Defined.

Section Cancellation.

Variable E : Env.

Lemma run_tracks_count conv n : forall s s',
  ring_ok conv -> loop_reach E conv s ->
  run_tracks E n s = Some s' -> ls_track s' = (n + ls_track s)%nat.
Proof.
  induction n as [|n IH]; intros s s' Hok Hs Hr; simpl in Hr.
  - by injection Hr as <-.
  - destruct (loop_guard _ _ _) eqn:Hgs; [|done].
    destruct (track_body E s) as [s1|] eqn:Hbody; [|done].
    destruct (loop_reach_step_fed E conv Hok s s1 Hs Hbody) as (_ & _ & Ht).
    rewrite (IH s1 s'); [lia|done| |done]. by eapply lr_step.
Qed.

(** X3 (cancellation).  When the first [k] iterations of the track loop
    went through and the poll at the head of the next one finds the run
    cancelled, [Convert] stops there: it returns the cancellation error of
    the callback if that answered true and the context's error otherwise,
    the file is removed, and the progress callback was called [k] times in
    all, not once more. *)
Theorem Convert_cancelled_at_track (conv : Converter) (k : nat)
    (st : LoopState) (fuel : nat) :
  ring_ok conv -> env_create_ok E = true ->
  run_tracks E k (initial_loop conv) = Some st ->
  loop_guard (totalSize_of (discType (ls_conv st))) (ls_c st) (ls_tr st) = true ->
  cancel_seen E st = true ->
  (k < fuel)%nat ->
  Convert E fuel conv =
  Some (Aborted
          (if match cancelCallback conv with
              | Some cb => cb k
              | None => false
              end
           then ErrCancelled else ErrContext)
          true (ls_reports st)) /\
  ls_track st = k /\
  (progressCallback conv = true -> length (ls_reports st) = k).
Proof.
  intros Hok Hcreate Hrun Hg Hc Hfuel.
  pose proof (run_tracks_reach E conv k _ _ (lr_init _ _) Hrun) as Hst.
  destruct (loop_reach_setup E conv Hok st Hst) as [_ Hsame].
  destruct Hsame as (_ & _ & _ & _ & _ & Hprog & Hcb).
  pose proof (run_tracks_count conv k _ _ Hok (lr_init _ _) Hrun) as Hk. simpl in Hk. rewrite Nat.add_0_r in Hk.
  split; [|split; [done|]].
  - unfold Convert. rewrite Hcreate.
    replace fuel with (k + S (fuel - S k))%nat by lia.
    rewrite (track_loop_run_tracks E k _ _ _ Hrun). simpl.
    rewrite Hg, (track_body_cancel_error E st Hc), Hcb, Hk. done.
  - intros Hp. rewrite <- Hk.
    assert (Hlen : forall s, loop_reach E conv s ->
                             length (ls_reports s) = ls_track s).
    { induction 1 as [|s s' Hs IH Hgs Hbody]; [done|].
      destruct (loop_reach_step_fed E conv Hok s s' Hs Hbody) as (_ & -> & ->).
      destruct (loop_reach_setup E conv Hok s Hs) as [_ Hsame].
      destruct Hsame as (_ & _ & _ & _ & _ & Hprog' & _).
      unfold reports_after. rewrite Hprog', Hp, length_app, IH. simpl. lia. }
    by apply Hlen.
Qed.

End Cancellation.

Lemma Convert_cancelled_at_track_witness :
  exists st,
    run_tracks (flat_env 0) 2 (initial_loop cancelling_converter) = Some st /\
    Convert (flat_env 0) 3 cancelling_converter
    = Some (Aborted ErrCancelled true (ls_reports st)) /\
    length (ls_reports st) = 2%nat.
Proof.
  assert (Hok : ring_ok cancelling_converter)
    by apply fresh_ring_ok, fresh_cancel, fresh_progress, fresh_new.
  assert (H :
    (fun st => (loop_guard (totalSize_of (discType (ls_conv st)))
                  (ls_c st) (ls_tr st), cancel_seen (flat_env 0) st))
      <$> run_tracks (flat_env 0) 2 (initial_loop cancelling_converter)
    = Some (true, true)) by (vm_compute; reflexivity).
  destruct (run_tracks (flat_env 0) 2 (initial_loop cancelling_converter))
    as [st|] eqn:Hrun; [|discriminate].
  injection H as Hg Hc.
  destruct (Convert_cancelled_at_track (flat_env 0) cancelling_converter 2 st 3
              Hok eq_refl Hrun Hg Hc ltac:(lia)) as (Hconv & _ & Hlen).
  exists st. split; [reflexivity|]. split; [exact Hconv|]. by apply Hlen.
Defined.


(** ** The run as a whole *)

Lemma whole_parameters_valid (conv : Converter) (a b : Z) :
  whole_parameters conv a b -> (0 < tr0 conv)%Q /\ (0 <= dtr conv)%Q.
Proof.
  intros (-> & -> & Ha & Hb). split.
  - change 0%Q with (inject_Z 0). rewrite <- Zlt_Qlt. lia.
  - change 0%Q with (inject_Z 0). rewrite <- Zle_Qle. lia.
Qed.

(** X4 (termination and the file).  For whole-number parameters
    [tr0 = a > 0] and [dtr = b >= 0] below 2^52, on which the additions of
    the track loop are exact in binary64, a file that can be created,
    writes that succeed and nobody cancelling, [Convert] returns [nil]
    after finitely many iterations.  The loop condition is false in the
    final state; the file holds every byte that left the interleaver, one
    frame of 24 for each 24 bytes fed; and the byte fed at index [k] is at
    position [out_pos k] of the file when the file is that long. *)
Theorem Convert_returns_interleaved_file (E : Env) (conv : Converter)
    (a b : Z) :
  fresh conv -> whole_parameters conv a b ->
  quiet E -> env_create_ok E = true ->
  (forall cb k, cancelCallback conv = Some cb -> cb k = false) ->
  exists st file n,
    (forall fuel, (n < fuel)%nat ->
       Convert E fuel conv = Some (Completed st file)) /\
    (inject_Z (totalSize_of (discType conv)) - ls_tr st <= ls_c st)%Q /\
    Z.of_nat (length file) = 24 * (Z.of_nat (length (ls_fed st)) / 24) /\
    (forall k x, ls_fed st !! k = Some x ->
       out_pos k < Z.of_nat (length file) ->
       file !! Z.to_nat (out_pos k) = Some x).
Proof.
  intros Hfresh Hwhole Hquiet Hcreate Hnc.
  destruct (whole_parameters_valid conv a b Hwhole) as [Htr Hdtr].
  pose proof (fresh_ring_ok conv Hfresh) as Hok.
  destruct (Convert_completes E conv Hok Htr Hdtr Hquiet Hnc Hcreate)
    as (st & n & Hst & Hg & Hrun).
  exists st, (emitted (ls_conv st) (ls_file st)), n.
  split; [exact Hrun|].
  destruct (loop_reach_interleaver_inv E conv st Hfresh Hst)
    as (_ & _ & Hlen & Hpos & _).
  split; [by apply Qltb_false|]. split; [exact Hlen|exact Hpos].
Qed.

Lemma Convert_returns_interleaved_file_witness :
  whole_parameters small_converter 10 1 /\
  exists st file n,
    (forall fuel, (n < fuel)%nat ->
       Convert (flat_env 0) fuel small_converter = Some (Completed st file)) /\
    Z.of_nat (length file) = 24 * (Z.of_nat (length (ls_fed st)) / 24).
Proof.
  assert (Hwhole : whole_parameters small_converter 10 1).
  { split; [reflexivity|]. split; [reflexivity|]. split; lia. }
  split; [exact Hwhole|].
  destruct (Convert_returns_interleaved_file (flat_env 0) small_converter 10 1)
    as (st & file & n & Hrun & _ & Hlen & _).
  - apply fresh_new.
  - exact Hwhole.
  - split; [intros; reflexivity|]. split; [intros; reflexivity|].
    intros k. simpl. lia.
  - reflexivity.
  - discriminate.
  - by exists st, file, n.
Defined.

Section SequentialInvariants.

Variable E : Env.
Variable conv : Converter.
Hypothesis conv_fresh : fresh conv.
Hypothesis tr0_pos : (0 < tr0 conv)%Q.
Hypothesis dtr_nonneg : (0 <= dtr conv)%Q.

Lemma loop_reach_next st st' :
  loop_reach E conv st -> track_body E st = Continue st' ->
  ls_tr st' = (ls_tr st + dtr conv)%Q /\
  ls_r st' = (ls_r st + dtr conv * r0 conv / tr0 conv)%Q /\
  ls_c st' = (ls_c st + ls_tr st)%Q /\
  ls_zs st' = (if ls_zs st + 1 >=? 17 then 0 else ls_zs st + 1) /\
  ls_track st' = S (ls_track st) /\
  ls_fed st' = ls_fed st ++ symbols_of_track E st /\
  ls_reports st' = reports_after st.
Proof.
  intros Hst Hbody.
  pose proof (fresh_ring_ok conv conv_fresh) as Hok.
  destruct (loop_reach_setup E conv Hok st Hst) as [Hok' Hsame].
  destruct Hsame as (Htr0 & Hdtr & Hr0 & _).
  destruct (track_body_Continue E st st' Hok' Hbody)
    as (conv' & file' & more & _ & _ & ->).
  cbn [next_loop_state ls_tr ls_r ls_c ls_zs ls_track ls_fed ls_reports].
  by rewrite Htr0, Hdtr, Hr0.
Qed.

Lemma progress_below_100 cq tr T :
  (0 <= cq)%Q -> (0 < tr)%Q -> 0 < T ->
  loop_guard T cq tr = true -> 0 <= progress_of cq T <= 99.
Proof.
  intros Hc Htr HT Hg. apply Qltb_true in Hg.
  rewrite progress_floor by done.
  assert (HTq : (0 < inject_Z T)%Q).
  { change 0%Q with (inject_Z 0). by rewrite <- Zlt_Qlt. }
  assert (H0 : (0 <= 100 * cq / inject_Z T)%Q).
  { apply Qle_shift_div_l; [done|]. lra. }
  assert (H100 : (100 * cq / inject_Z T < 100)%Q).
  { apply Qlt_shift_div_r; [done|]. lra. }
  split.
  - change 0 with (Qfloor 0). by apply Qfloor_resp_le.
  - assert (Qfloor (100 * cq / inject_Z T) < 100); [|lia].
    rewrite Zlt_Qlt. eapply Qle_lt_trans; [apply Qfloor_le|]. exact H100.
Qed.

Lemma loop_reach_report_range st :
  loop_reach E conv st -> Forall (fun p => 0 <= p <= 99) (ls_reports st).
Proof.
  pose proof (fresh_ring_ok conv conv_fresh) as Hok.
  induction 1 as [|st st' Hst IH Hg Hbody]; [constructor|].
  destruct (loop_reach_next st st' Hst Hbody) as (_ & _ & _ & _ & _ & _ & ->).
  destruct (loop_reach_setup E conv Hok st Hst) as [_ Hsame].
  destruct (loop_reach_spiral E conv Hok tr0_pos dtr_nonneg st Hst) as [Htr Hc].
  unfold reports_after. destruct (progressCallback (ls_conv st)); [|done].
  apply Forall_app. split; [done|]. apply Forall_singleton.
  apply (progress_below_100 _ (ls_tr st)); [done|lra|apply totalSize_pos|done].
Qed.

Lemma trunc_bounds (q : Q) :
  (0 <= q)%Q -> 0 <= trunc q /\ (inject_Z (trunc q) <= q < inject_Z (trunc q) + 1)%Q.
Proof.
  intros Hq. rewrite trunc_floor by done. split.
  - change 0 with (Qfloor 0). by apply Qfloor_resp_le.
  - split; [apply Qfloor_le|].
    pose proof (Qlt_floor q) as H. rewrite inject_Z_plus in H. exact H.
Qed.

Lemma loop_reach_drift st :
  loop_reach E conv st ->
  (inject_Z (Z.of_nat (length (ls_fed st))) <= ls_c st)%Q /\
  (ls_c st <= inject_Z (Z.of_nat (length (ls_fed st)))
              + inject_Z (Z.of_nat (ls_track st)))%Q.
Proof.
  pose proof (fresh_ring_ok conv conv_fresh) as Hok.
  induction 1 as [|st st' Hst [IH1 IH2] Hg Hbody].
  - split; vm_compute; discriminate.
  - destruct (loop_reach_next st st' Hst Hbody)
      as (_ & _ & -> & _ & -> & -> & _).
    destruct (loop_reach_spiral E conv Hok tr0_pos dtr_nonneg st Hst) as [Htr _].
    destruct (trunc_bounds (ls_tr st)) as (Hnn & Hlo & Hhi); [lra|].
    rewrite length_app, symbols_of_track_length, !Nat2Z.inj_add, Z2Nat.id by done.
    rewrite Nat2Z.inj_succ. unfold Z.succ.
    rewrite !inject_Z_plus. change (inject_Z 1) with 1%Q.
    set (a := inject_Z (Z.of_nat (length (ls_fed st)))) in *.
    set (b := inject_Z (Z.of_nat (ls_track st))) in *.
    set (t := inject_Z (trunc (ls_tr st))) in *.
    clearbody a b t. lra.
Qed.

End SequentialInvariants.

(** X5 (range of the progress values).  In a run of the sequential encoder
    with [tr0 > 0] and [dtr >= 0], every value handed to the progress
    callback lies between 0 and 99: the callback is never told 100, since
    the loop stops before the accumulated count reaches the total. *)
Theorem progress_reports_in_range (E : Env) (conv : Converter) (st : LoopState) :
  fresh conv -> (0 < tr0 conv)%Q -> (0 <= dtr conv)%Q ->
  loop_reach E conv st ->
  Forall (fun p => 0 <= p <= 99) (ls_reports st).
Proof. intros Hf Htr Hdtr. by apply (loop_reach_report_range E conv). Qed.

Lemma progress_reports_in_range_witness :
  exists st,
    loop_reach (flat_env 0) reporting_converter st /\
    ls_reports st = [0; 0] /\
    Forall (fun p => 0 <= p <= 99) (ls_reports st).
Proof.
  pose proof (run_tracks_reach (flat_env 0) reporting_converter 2
                (initial_loop reporting_converter)) as Hreach.
  assert (Hrep : ls_reports <$> run_tracks (flat_env 0) 2
                   (initial_loop reporting_converter) = Some [0; 0])
    by (vm_compute; reflexivity).
  destruct (run_tracks (flat_env 0) 2 (initial_loop reporting_converter))
    as [st|]; [|discriminate].
  injection Hrep as Hrep.
  specialize (Hreach st (lr_init _ _) eq_refl).
  exists st. split; [exact Hreach|]. split; [exact Hrep|].
  apply (progress_reports_in_range (flat_env 0) reporting_converter st).
  - apply fresh_progress, fresh_new.
  - reflexivity.
  - discriminate.
  - exact Hreach.
Defined.

(** X6 (the filling loop is dead).  An iteration of the track loop hands
    exactly [int(tr)] bytes to the interleaver, the samples of the track:
    the loop that should fill up with [palette[0]] compares [int(c)] with
    an [ic] computed from the same [c] and never runs.  So the accumulated
    count [c] runs ahead of the bytes fed by the fractions of [tr] that
    were cut off, by less than one per track. *)
Theorem filling_loop_never_runs (E : Env) (conv : Converter) (st : LoopState) :
  fresh conv -> (0 < tr0 conv)%Q -> (0 <= dtr conv)%Q ->
  loop_reach E conv st ->
  (forall st', track_body E st = Continue st' ->
     ls_fed st' = ls_fed st ++ symbols_of_track E st /\
     length (symbols_of_track E st) = Z.to_nat (trunc (ls_tr st)) /\
     ls_zf st' = phase_after (Z.to_nat (trunc (ls_tr st))) (ls_zf st)) /\
  (inject_Z (Z.of_nat (length (ls_fed st))) <= ls_c st)%Q /\
  (ls_c st <= inject_Z (Z.of_nat (length (ls_fed st)))
              + inject_Z (Z.of_nat (ls_track st)))%Q.
Proof.
  intros Hf Htr Hdtr Hst. split.
  - intros st' Hbody.
    pose proof (fresh_ring_ok conv Hf) as Hok.
    destruct (loop_reach_setup E conv Hok st Hst) as [Hok' _].
    destruct (track_body_Continue E st st' Hok' Hbody)
      as (conv' & file' & more & _ & _ & ->).
    split; [done|]. split; [apply symbols_of_track_length|done].
  - exact (loop_reach_drift E conv Hf Htr Hdtr st Hst).
Qed.

Lemma filling_loop_never_runs_witness :
  exists st,
    loop_reach (flat_env 0) small_converter st /\
    ls_track st = 2%nat /\
    (inject_Z (Z.of_nat (length (ls_fed st))) <= ls_c st)%Q.
Proof.
  pose proof (run_tracks_reach (flat_env 0) small_converter 2
                (initial_loop small_converter)) as Hreach.
  assert (Htrack : ls_track <$> run_tracks (flat_env 0) 2
                     (initial_loop small_converter) = Some 2%nat)
    by (vm_compute; reflexivity).
  destruct (run_tracks (flat_env 0) 2 (initial_loop small_converter))
    as [st|]; [|discriminate].
  injection Htrack as Htrack.
  specialize (Hreach st (lr_init _ _) eq_refl).
  exists st. split; [exact Hreach|]. split; [exact Htrack|].
  apply (filling_loop_never_runs (flat_env 0) small_converter st).
  - apply fresh_new.
  - reflexivity.
  - discriminate.
  - exact Hreach.
Defined.


(** ** Sectors *)

Section Sectors.

Variable E : Env.

Lemma sector_aligned_nil : sector_aligned [].
Proof. exists 0. reflexivity. Qed.

Lemma bw_sector conv b file conv' file' :
  0 <= c conv < 2352 -> length (buffer conv) = 2352%nat ->
  sector_aligned file ->
  bw E conv b file = Ok (conv', file') ->
  (0 <= c conv' < 2352 /\ length (buffer conv') = 2352%nat) /\
  sector_aligned file' /\
  intseq conv' = intseq conv /\ nh conv' = nh conv.
Proof.
  intros Hc Hb [q Hq] Hbw. unfold bw in Hbw.
  rewrite aset_ok in Hbw by lia. simpl in Hbw.
  destruct (c conv + 1 >=? SectorSize) eqn:Hfull.
  - unfold file_Write in Hbw.
    destruct (env_write_ok E _ _); [|done].
    injection Hbw as <- <-. simpl.
    rewrite length_insert. split; [split; [lia|done]|]. split; [|done].
    exists (q + 1). rewrite length_app, length_insert, Nat2Z.inj_add, Hq, Hb.
    unfold SectorSize. lia.
  - injection Hbw as <- <-. simpl. rewrite length_insert.
    unfold SectorSize in Hfull. split; [split; [lia|done]|]. split; [|done].
    by exists q.
Qed.

Lemma read_loop_sector (n : nat) : forall i cv f cv' f',
  0 <= c cv < 2352 -> length (buffer cv) = 2352%nat -> sector_aligned f ->
  for_from i n
    (fun i '(cv, f) => x ← aget (intseq cv) (n2m cv i); bw E cv x f) (cv, f)
  = Ok (cv', f') ->
  (0 <= c cv' < 2352 /\ length (buffer cv') = 2352%nat) /\ sector_aligned f'.
Proof.
  induction n as [|n IH]; intros i cv f cv' f' Hc Hb Ha Hloop; simpl in Hloop.
  - by injection Hloop as <- <-.
  - apply rbind_Ok in Hloop as ([cv1 f1] & Hstep & Hloop).
    apply rbind_Ok in Hstep as (x & _ & Hbw).
    destruct (bw_sector cv x f cv1 f1 Hc Hb Ha Hbw) as ([Hc1 Hb1] & Ha1 & _).
    by apply (IH _ _ _ _ _ Hc1 Hb1 Ha1 Hloop).
Qed.

Lemma ad_sector conv b file conv' file' :
  0 <= c conv < 2352 -> length (buffer conv) = 2352%nat ->
  sector_aligned file ->
  ad E conv b file = Ok (conv', file') ->
  (0 <= c conv' < 2352 /\ length (buffer conv') = 2352%nat) /\
  sector_aligned file'.
Proof.
  intros Hc Hb Ha Had. unfold ad in Had.
  apply rbind_Ok in Had as (d & _ & Had).
  apply rbind_Ok in Had as (seq' & _ & Had).
  cbv zeta in Had.
  destruct (pinf (with_ring conv seq' (nh conv) (pinf conv + 1)) >=? 24).
  - by apply read_loop_sector in Had.
  - by injection Had as <- <-.
Qed.

Lemma feed_sector l : forall conv file conv' file',
  0 <= c conv < 2352 -> length (buffer conv) = 2352%nat ->
  sector_aligned file ->
  feed E conv file l = Ok (conv', file') ->
  (0 <= c conv' < 2352 /\ length (buffer conv') = 2352%nat) /\
  sector_aligned file'.
Proof.
  induction l as [|b l IH]; intros conv file conv' file' Hc Hb Ha Hfeed;
    simpl in Hfeed.
  - by injection Hfeed as <- <-.
  - apply rbind_Ok in Hfeed as ([conv1 file1] & Had & Hfeed).
    destruct (ad_sector conv b file conv1 file1 Hc Hb Ha Had) as ([Hc1 Hb1] & Ha1).
    by apply (IH _ _ _ _ Hc1 Hb1 Ha1 Hfeed).
Qed.

Lemma loop_reach_sector conv st :
  fresh conv -> loop_reach E conv st ->
  (0 <= c (ls_conv st) < 2352 /\ length (buffer (ls_conv st)) = 2352%nat) /\
  sector_aligned (ls_file st).
Proof.
  intros Hfresh. pose proof (fresh_ring_ok conv Hfresh) as Hok.
  induction 1 as [|st st' Hst ([Hc Hb] & Ha) Hg Hbody].
  - destruct Hok as (_ & _ & _ & Hc & Hb). split; [done|].
    apply sector_aligned_nil.
  - destruct (loop_reach_setup E conv Hok st Hst) as [Hok' _].
    destruct (track_body_Continue E st st' Hok' Hbody)
      as (conv' & file' & more & Hfeed & _ & ->).
    by apply (feed_sector _ _ _ _ _ Hc Hb Ha Hfeed).
Qed.

End Sectors.

(** X7 (sectors).  Before the final flush, the output file of the
    sequential encoder holds whole sectors of 2352 bytes only: [bw] writes
    nothing but its full buffer.  The bytes that left the interleaver and
    are not in the file yet, fewer than one sector, wait in the buffer; so
    the file has [2352 * (n div 2352)] bytes and the buffer
    [n mod 2352], for [n = 24 * (fed div 24)] bytes emitted. *)
Theorem file_holds_whole_sectors (E : Env) (conv : Converter) (st : LoopState) :
  fresh conv -> loop_reach E conv st ->
  let n := 24 * (Z.of_nat (length (ls_fed st)) / 24) in
  sector_aligned (ls_file st) /\
  Z.of_nat (length (ls_file st)) = 2352 * (n / 2352) /\
  c (ls_conv st) = n mod 2352.
Proof.
  intros Hfresh Hst n.
  destruct (loop_reach_sector E conv st Hfresh Hst) as ([Hc Hb] & Ha).
  destruct (loop_reach_interleaver_inv E conv st Hfresh Hst)
    as (_ & _ & Hlen & _).
  fold n in Hlen. split; [done|].
  unfold emitted in Hlen.
  rewrite length_app, length_take, Hb, Nat2Z.inj_add in Hlen.
  rewrite Nat.min_l in Hlen by lia. rewrite Z2Nat.id in Hlen by lia.
  destruct Ha as [q Hq]. unfold SectorSize in Hq.
  assert (Hdiv : n / 2352 = q).
  { symmetry. apply (Z.div_unique n 2352 q (c (ls_conv st))); lia. }
  assert (Hmod : n mod 2352 = c (ls_conv st)).
  { symmetry. apply (Z.mod_unique n 2352 q (c (ls_conv st))); lia. }
  rewrite Hdiv, Hmod. split; [lia|done].
Qed.

Lemma two_long_tracks :
  exists st,
    run_tracks (flat_env 0) 2 (initial_loop divergence_converter) = Some st /\
    Z.of_nat (length (ls_fed st)) = 6003.
Proof.
  assert (H :
    (fun st : LoopState => Z.of_nat (length (ls_fed st)))
      <$> run_tracks (flat_env 0) 2 (initial_loop divergence_converter)
    = Some 6003) by (vm_compute; reflexivity).
  destruct (run_tracks (flat_env 0) 2 (initial_loop divergence_converter))
    as [st|]; [|discriminate].
  injection H as H. by exists st.
Qed.

Lemma file_holds_whole_sectors_witness :
  exists st,
    loop_reach (flat_env 0) divergence_converter st /\
    Z.of_nat (length (ls_fed st)) = 6003 /\
    Z.of_nat (length (ls_file st)) = 4704 /\
    c (ls_conv st) = 1296.
Proof.
  destruct two_long_tracks as (st & Hrun & Hlen).
  pose proof (run_tracks_reach (flat_env 0) divergence_converter 2 _ _
                (lr_init _ _) Hrun) as Hst.
  destruct (file_holds_whole_sectors (flat_env 0) divergence_converter st
              (fresh_new 3001 1 1 false "cd") Hst) as (_ & Hfile & Hc).
  exists st. split; [exact Hst|]. split; [exact Hlen|].
  rewrite Hlen in Hfile, Hc. split; [exact Hfile|exact Hc].
Defined.

(** ** Sampling *)

(** X8 (clamping).  For an image that is not empty, [sampleImage] reads the
    pixel at the coordinates clamped into the image, so never outside of
    it, and returns the high bytes of its four 16-bit channels; a
    coordinate inside the image is left alone. *)
Theorem sampleImage_clamps (E : Env) (x y width height : Z) :
  0 < width -> 0 < height ->
  let x' := Z.max 0 (Z.min x (width - 1)) in
  let y' := Z.max 0 (Z.min y (height - 1)) in
  0 <= x' < width /\ 0 <= y' < height /\
  (0 <= x < width -> x' = x) /\ (0 <= y < height -> y' = y) /\
  sampleImage E x y width height =
  (let '(r, g, b, a) := env_img E x' y' in
   {| R := (r / 256) mod 256; G := (g / 256) mod 256;
      B := (b / 256) mod 256; A := (a / 256) mod 256 |}) /\
  0 <= rgbaToGray E (sampleImage E x y width height) <= 255.
Proof.
  intros Hw Hh x' y'.
  split; [lia|]. split; [lia|]. split; [lia|]. split; [lia|]. split.
  - unfold sampleImage. cbv zeta.
    assert (Hx : (if (if x <? 0 then 0 else x) >=? width then width - 1
                  else if x <? 0 then 0 else x) = x').
    { unfold x'. destruct (Z.ltb_spec x 0), (Z.geb_spec x width);
        try destruct (Z.geb_spec 0 width); lia. }
    assert (Hy : (if (if y <? 0 then 0 else y) >=? height then height - 1
                  else if y <? 0 then 0 else y) = y').
    { unfold y'. destruct (Z.ltb_spec y 0), (Z.geb_spec y height);
        try destruct (Z.geb_spec 0 height); lia. }
    rewrite Hx, Hy. destruct (env_img E x' y') as [[[r g] b] a].
    by rewrite !Z.shiftr_div_pow2 by lia.
  - unfold rgbaToGray.
    pose proof (Z.mod_pos_bound
                  (env_luma E (R (sampleImage E x y width height))
                     (G (sampleImage E x y width height))
                     (B (sampleImage E x y width height))) 256 ltac:(lia)).
    lia.
Qed.

Lemma sampleImage_clamps_witness :
  0 < 100 /\ 0 < 100 /\
  sampleImage (flat_env 0) (-5) 250 100 100
  = {| R := 0; G := 0; B := 0; A := 0 |}.
Proof.
  split; [lia|]. split; [lia|].
  destruct (sampleImage_clamps (flat_env 0) (-5) 250 100 100)
    as (_ & _ & _ & _ & H & _); [lia|lia|].
  exact H.
Defined.

(** X9 (random dithering).  With colour mixing, for a gray value in
    [0, 255], the level chosen is [high = min (low + 1) 3] when the random
    draw is below [gray mod 85] or [gray mod 85 = 84], and
    [low = gray div 85] otherwise; the phases [zs] and [zf] play no part.
    A gray value that is a multiple of 85 always gets its own level. *)
Theorem choose_level_mixed (draw gray zs zf : Z) :
  0 <= gray <= 255 -> 0 <= draw < 85 ->
  let low := gray / 85 in
  let high := Z.min (low + 1) 3 in
  choose_level true draw gray zs zf =
  (if (draw <? gray mod 85) || (gray mod 85 =? 84) then high else low) /\
  (forall zs' zf',
     choose_level true draw gray zs' zf' = choose_level true draw gray zs zf) /\
  (gray mod 85 = 0 -> choose_level true draw gray zs zf = low).
Proof.
  intros Hg Hd low high.
  assert (Hlow : 0 <= low <= 3).
  { unfold low. split; [apply Z.div_pos; lia|].
    apply Z.div_le_upper_bound; lia. }
  assert (Heq : forall zs0 zf0, choose_level true draw gray zs0 zf0 =
    (if (draw <? gray mod 85) || (gray mod 85 =? 84) then high else low)).
  { intros zs0 zf0. unfold choose_level, high. fold low.
    rewrite (Z.mod_small (low + 1)) by lia.
    destruct (Z.gtb_spec (low + 1) 3).
    - by rewrite Z.min_r by lia.
    - by rewrite Z.min_l by lia. }
  split; [apply Heq|]. split; [intros; by rewrite !Heq|].
  intros Hm. rewrite Heq, Hm.
  destruct (Z.ltb_spec draw 0); [lia|]. done.
Qed.

Lemma choose_level_mixed_witness :
  0 <= 100 <= 255 /\ 0 <= 3 < 85 /\
  choose_level true 3 100 7 2 = 2.
Proof.
  split; [lia|]. split; [lia|].
  exact (proj1 (choose_level_mixed 3 100 7 2 ltac:(lia) ltac:(lia))).
Defined.


(** * Further properties of the parallel pipeline *)

(** ** Workers *)

Section Published.

Variable E : Env.
Variable sch : Schedule.
Variable mix : bool.



End Published.



(** X11 (a cancelled worker).  A worker that finds the context cancelled at
    one of its samples returns the context's error and no data: the samples
    it computed before are thrown away.  The result [trackWorker] builds
    from it carries that error, no data and the track index of the job; it
    reaches the results channel only when the scheduler lets the send win
    over the cancelled context, which is ready at that moment, and is lost
    otherwise. *)
Theorem processTrack_cancelled (E : Env) (sch : Schedule) (mix : bool)
    (width height : Z) (job : TrackJob) (i : Z) :
  0 <= i < job_itr job ->
  sch_done sch (job_trackIndex job) i = true ->
  processTrack E sch mix width height job = Fail ErrContext /\
  worker_result E sch mix job =
  Ok {| res_trackIndex := job_trackIndex job; res_data := [];
        res_err := Some ErrContext |} /\
  published E sch mix [job] =
  (if sch_dropped sch (job_trackIndex job) then []
   else [{| res_trackIndex := job_trackIndex job; res_data := [];
            res_err := Some ErrContext |}]).
Proof.
  intros Hi Hdone.
  assert (Hfail : forall w h, processTrack E sch mix w h job = Fail ErrContext).
  { intros w h. pose proof (processTrack_outcome E sch mix w h job) as Hp.
    destruct (processTrack E sch mix w h job) as [data|e|]; [| |lia].
    - destruct Hp as (_ & Hnd & _). by rewrite (Hnd i Hi) in Hdone.
    - by destruct Hp as (_ & -> & _). }
  assert (Hres : worker_result E sch mix job =
                 Ok {| res_trackIndex := job_trackIndex job; res_data := [];
                       res_err := Some ErrContext |}).
  { unfold worker_result. by rewrite Hfail. }
  split; [apply Hfail|]. split; [exact Hres|].
  unfold published. cbn [omap list_omap]. rewrite Hres.
  by destruct (sch_dropped sch (job_trackIndex job)).
Qed.

Lemma processTrack_cancelled_witness :
  0 <= 3 < job_itr (mkJob 5 15 1 rcd 50 50 ir 15 5 0) /\
  sch_done failing_schedule 5 3 = true /\
  processTrack cancel_env failing_schedule false 100 100
    (mkJob 5 15 1 rcd 50 50 ir 15 5 0) = Fail ErrContext /\
  published cancel_env failing_schedule false [mkJob 5 15 1 rcd 50 50 ir 15 5 0]
  = [{| res_trackIndex := 5; res_data := []; res_err := Some ErrContext |}].
Proof.
  assert (Hi : 0 <= 3 < job_itr (mkJob 5 15 1 rcd 50 50 ir 15 5 0))
    by (cbn; lia).
  split; [exact Hi|]. split; [reflexivity|].
  destruct (processTrack_cancelled cancel_env failing_schedule false 100 100
              (mkJob 5 15 1 rcd 50 50 ir 15 5 0) 3 Hi eq_refl)
    as (H1 & _ & H3).
  split; [exact H1|exact H3].
Defined.




(** ** The collector *)

(** X13 (a missing track holds back the later ones).  When no error-free
    result for track [k] has arrived, the collector has written no track
    from [k] on, whatever else arrived and in whatever order: the next
    track to write is at most [k] and every track written has a smaller
    index. *)
Theorem missing_track_blocks_later_tracks (E : Env)
    (arrival : list TrackResult) (k : Z) :
  0 <= k ->
  (forall r, r ∈ arrival -> res_trackIndex r = k -> res_err r <> None) ->
  nextTrackToWrite (collect E arrival) <= k /\
  Forall (fun w => w.1 < k) (col_written (collect E arrival)).
Proof.
  intros Hk Hmiss.
  destruct (collect_log_ok E arrival) as (Hn & Hidx & _ & Hfrom & _).
  assert (Hnext : nextTrackToWrite (collect E arrival) <= k).
  { destruct (Z_le_gt_dec (nextTrackToWrite (collect E arrival)) k) as [|Hgt];
      [done|exfalso].
    assert (Hin : k ∈ (col_written (collect E arrival)).*1).
    { rewrite Hidx. apply elem_of_seqZ. lia. }
    apply list_elem_of_fmap in Hin as (w & Hw & Hin).
    rewrite Forall_forall in Hfrom.
    destruct (Hfrom w Hin) as (r & Hr & Herr & Hri & _).
    apply (Hmiss r Hr); [congruence|done]. }
  split; [done|].
  apply Forall_forall. intros w Hw.
  assert (Hin : w.1 ∈ (col_written (collect E arrival)).*1)
    by (by apply list_elem_of_fmap_2).
  rewrite Hidx in Hin. apply elem_of_seqZ in Hin. lia.
Qed.

Lemma missing_track_blocks_later_tracks_witness :
  let r0 := {| res_trackIndex := 0; res_data := [16; 33]; res_err := None |} in
  let r1 := {| res_trackIndex := 1; res_data := []; res_err := Some ErrContext |} in
  let r2 := {| res_trackIndex := 2; res_data := [170]; res_err := None |} in
  nextTrackToWrite (collect (flat_env 0) [r2; r1; r0]) <= 1 /\
  col_file (collect (flat_env 0) [r2; r1; r0]) = [16; 33].
Proof.
  intros r0 r1 r2. split; [|reflexivity].
  apply (missing_track_blocks_later_tracks (flat_env 0) [r2; r1; r0] 1);
    [lia|].
  intros r Hr Hidx.
  apply elem_of_cons in Hr as [->|Hr]; [discriminate Hidx|].
  apply elem_of_cons in Hr as [->|Hr]; [discriminate|].
  apply elem_of_cons in Hr as [->|Hr]; [discriminate Hidx|].
  by apply elem_of_nil in Hr.
Defined.

Section FailingWrites.

Variable E : Env.
Hypothesis writes_fail : forall content data, env_write_ok E content data = false.



End FailingWrites.




(** * The two drivers on the same spiral *)

Lemma next_zs_mod (n : Z) :
  0 <= n ->
  (if n mod 17 + 1 >=? 17 then 0 else n mod 17 + 1) = (n + 1) mod 17.
Proof.
  intros Hn.
  pose proof (Z.div_mod n 17 ltac:(lia)) as Hdm.
  pose proof (Z.mod_pos_bound n 17 ltac:(lia)) as Hb.
  destruct (Z.geb_spec (n mod 17 + 1) 17).
  - apply (Z.mod_unique _ _ (n / 17 + 1)); lia.
  - apply (Z.mod_unique _ _ (n / 17)); lia.
Qed.

Lemma trunc_inject_Z (z : Z) : trunc (inject_Z z) = z.
Proof. unfold trunc, inject_Z. cbn [Qnum Qden]. apply Z.quot_1_r. Qed.

Lemma whole_samples_0 (a b : Z) : whole_samples a b 0 = 0.
Proof.
  unfold whole_samples. change (Z.of_nat 0) with 0.
  replace (0 * (0 - 1) / 2) with 0 by reflexivity. lia.
Qed.

Lemma whole_samples_S (a b : Z) (n : nat) :
  whole_samples a b (S n) = whole_samples a b n + (a + Z.of_nat n * b).
Proof.
  unfold whole_samples. rewrite Nat2Z.inj_succ. unfold Z.succ.
  replace ((Z.of_nat n + 1) * (Z.of_nat n + 1 - 1))
    with (Z.of_nat n * (Z.of_nat n - 1) + Z.of_nat n * 2) by lia.
  rewrite Z.div_add by lia. lia.
Qed.

Lemma whole_samples_nonneg (a b : Z) (n : nat) :
  0 < a -> 0 <= b -> 0 <= whole_samples a b n.
Proof.
  intros Ha Hb. induction n as [|n IH].
  - rewrite whole_samples_0. lia.
  - rewrite whole_samples_S. nia.
Qed.

(** The spiral for whole-number parameters. *)
Lemma spiral_at_whole (conv : Converter) (a b : Z) (n : nat) :
  whole_parameters conv a b ->
  let s := spiral_at conv n in
  sp_tr s = inject_Z (a + Z.of_nat n * b) /\
  sp_c s = inject_Z (whole_samples a b n) /\
  sp_zs s = Z.of_nat n mod 17 /\
  Z.of_nat (samples_before conv n) = whole_samples a b n.
Proof.
  intros (Ha & Hb & Hapos & Hbpos).
  induction n as [|n (IHtr & IHc & IHzs & IHs)]; cbv zeta.
  - cbn [spiral_at sp_tr sp_r sp_c sp_zs samples_before].
    rewrite whole_samples_0, Ha. cbn [Z.of_nat].
    split; [f_equal; lia|]. by repeat split.
  - cbv zeta in IHtr, IHc.
    cbn [spiral_at sp_tr sp_r sp_c sp_zs samples_before].
    rewrite IHtr, IHc, IHzs, Hb, !Qplus_inject_Z, whole_samples_S.
    split; [f_equal; lia|]. split; [done|].
    split; [rewrite Nat2Z.inj_succ; apply next_zs_mod; lia|].
    rewrite Nat2Z.inj_add, IHs, trunc_inject_Z, Z2Nat.id; [done|nia].
Qed.

Section SameSpiral.

Variable E : Env.
Variable conv : Converter.
Hypothesis conv_fresh : fresh conv.

Lemma loop_reach_spiral_at st :
  loop_reach E conv st ->
  let s := spiral_at conv (ls_track st) in
  ls_tr st = sp_tr s /\ ls_r st = sp_r s /\ ls_c st = sp_c s /\
  ls_zs st = sp_zs s /\
  length (ls_fed st) = samples_before conv (ls_track st) /\
  (forall k, (k < ls_track st)%nat -> guard_at conv k = true).
Proof.
  pose proof (fresh_ring_ok conv conv_fresh) as Hok.
  induction 1 as [|st st' Hst (IHtr & IHr & IHc & IHzs & IHfed & IHg) Hg Hbody];
    cbv zeta.
  - cbn. repeat split; try done. intros k Hk. lia.
  - destruct (loop_reach_next E conv conv_fresh st st' Hst Hbody)
      as (-> & -> & -> & -> & -> & -> & _).
    destruct (loop_reach_setup E conv Hok st Hst) as [_ Hsame].
    destruct Hsame as (_ & _ & _ & _ & Hdisc & _).
    cbn [spiral_at sp_tr sp_r sp_c sp_zs samples_before].
    rewrite <- IHtr, <- IHr, <- IHc, <- IHzs.
    repeat split; try done.
    + by rewrite length_app, symbols_of_track_length, IHfed.
    + intros k Hk. destruct (decide (k = ls_track st)) as [->|Hne].
      * unfold guard_at. by rewrite <- IHtr, <- IHc, <- Hdisc.
      * apply IHg. lia.
Qed.

Lemma gen_reach_spiral_at gs :
  gen_reach E conv gs ->
  let n := Z.to_nat (gs_trackIndex gs) in
  let s := spiral_at conv n in
  0 <= gs_trackIndex gs /\
  gs_tr gs = sp_tr s /\ gs_r gs = sp_r s /\ gs_c gs = sp_c s /\
  gs_zs gs = sp_zs s /\
  gs_jobs gs = job_at E conv <$> seq 0 n /\
  (forall k, (k < n)%nat -> guard_at conv k = true).
Proof.
  induction 1 as [|gs gs' Hgs (IHn & IHtr & IHr & IHc & IHzs & IHjobs & IHg) Hg Hbody];
    cbv zeta.
  - cbn. repeat split; try done. intros k Hk. lia.
  - destruct (gen_reach_jobs E conv gs Hgs) as (Hzf & _).
    apply gen_body_Continue in Hbody. rewrite Hbody.
    cbn [gs_tr gs_r gs_c gs_zs gs_trackIndex gs_jobs].
    replace (Z.to_nat (gs_trackIndex gs + 1))
      with (S (Z.to_nat (gs_trackIndex gs))) by lia.
    cbn [spiral_at sp_tr sp_r sp_c sp_zs].
    cbv zeta in IHtr, IHr, IHc, IHzs, IHjobs, IHg.
    rewrite <- IHtr, <- IHr, <- IHc, <- IHzs.
    split; [lia|]. repeat split; try done.
    + rewrite seq_S, fmap_app, <- IHjobs. simpl. f_equal. f_equal.
      unfold job_at. rewrite <- IHtr, <- IHr, <- IHzs, Hzf.
      by rewrite Z2Nat.id by done.
    + intros k Hk.
      destruct (decide (k = Z.to_nat (gs_trackIndex gs))) as [->|Hne].
      * unfold guard_at. by rewrite <- IHtr, <- IHc.
      * apply IHg. lia.
Qed.

End SameSpiral.

Lemma generator_jobs_on_spiral_at (E : Env) (conv : Converter) (a b : Z)
    (gs : GenState) (i : nat) (job : TrackJob) :
  whole_parameters conv a b ->
  gen_reach E conv gs ->
  gs_jobs gs !! i = Some job ->
  job_trackIndex job = Z.of_nat i /\
  job_tr job = inject_Z (a + Z.of_nat i * b) /\
  job_itr job = a + Z.of_nat i * b /\
  job_zs job = Z.of_nat i mod 17 /\ job_zf job = 0 /\
  job_ir job = 1500%Q /\ (job_rcd job == 57.5)%Q.
Proof.
  intros Hwhole Hgs Hjob.
  destruct (gen_reach_spiral_at E conv gs Hgs) as (_ & _ & _ & _ & _ & Hjobs & _).
  rewrite Hjobs, list_lookup_fmap in Hjob.
  destruct (seq 0 (Z.to_nat (gs_trackIndex gs)) !! i) as [i'|] eqn:Hi;
    [|discriminate].
  apply lookup_seq in Hi as [-> _]. injection Hjob as <-.
  destruct (spiral_at_whole conv a b i Hwhole) as (Htr & _ & Hzs & _).
  unfold job_at.
  cbn [job_trackIndex job_tr job_itr job_zs job_zf job_ir job_rcd].
  rewrite Htr, Hzs, trunc_inject_Z. by repeat split.
Qed.

(** X15 (the jobs of the generator).  For whole-number parameters
    [tr0 = a > 0] and [dtr = b >= 0] below 2^52, on which the additions of
    the generator are exact in binary64, the [i]-th job the generator sends
    is the job of track [i]: its track index is [i], its samples per turn
    are [a + i * b], its sample count is that same whole number, its ring
    phase is [i mod 17], its sample phase 0, and its geometry the constants
    of the sequential encoder. *)
Theorem generator_jobs_on_spiral (E : Env) (conv : Converter) (a b : Z)
    (gs : GenState) (i : nat) (job : TrackJob) :
  whole_parameters conv a b ->
  gen_reach E conv gs ->
  gs_jobs gs !! i = Some job ->
  job_trackIndex job = Z.of_nat i /\
  job_tr job = inject_Z (a + Z.of_nat i * b) /\
  job_itr job = a + Z.of_nat i * b /\
  job_zs job = Z.of_nat i mod 17 /\ job_zf job = 0 /\
  job_ir job = 1500%Q /\ (job_rcd job == 57.5)%Q.
Proof. by apply generator_jobs_on_spiral_at. Qed.

Lemma generator_jobs_on_spiral_witness :
  whole_parameters phase_converter 48 1 /\
  exists gs job,
    gen_reach (flat_env 7) phase_converter gs /\
    gs_jobs gs !! 2%nat = Some job /\
    job_trackIndex job = 2 /\ job_itr job = 50 /\ job_zs job = 2.
Proof.
  assert (Hwhole : whole_parameters phase_converter 48 1).
  { split; [reflexivity|]. split; [reflexivity|]. split; lia. }
  split; [exact Hwhole|].
  pose proof (run_gen_reach (flat_env 7) phase_converter 3
                (initial_gen phase_converter)) as Hreach.
  assert (Hlen : (fun gs => length (gs_jobs gs))
                   <$> run_gen (flat_env 7) 3 phase_converter
                         (initial_gen phase_converter) = Some 3%nat)
    by (vm_compute; reflexivity).
  destruct (run_gen (flat_env 7) 3 phase_converter (initial_gen phase_converter))
    as [gs|]; [|discriminate].
  specialize (Hreach gs (gr_init _ _) eq_refl).
  injection Hlen as Hlen.
  destruct (lookup_lt_is_Some_2 (gs_jobs gs) 2) as [job Hjob]; [lia|].
  destruct (generator_jobs_on_spiral (flat_env 7) phase_converter 48 1 gs 2 job
              Hwhole Hreach Hjob) as (H1 & _ & H2 & H3 & _).
  exists gs, job. split; [exact Hreach|]. split; [exact Hjob|].
  split; [exact H1|]. split; [exact H2|exact H3].
Defined.

Section Agreement.

Variable E : Env.
Variable conv : Converter.
Hypothesis conv_fresh : fresh conv.

(** The symbols of a track of the sequential encoder, in ordered mode, are
    those of the worker of the same track when the sample phase is 0 at the
    head of the track. *)
Lemma track_agrees st sch :
  mixColors conv = false ->
  loop_reach E conv st -> ls_zf st = 0 ->
  0 <= job_itr (job_at E conv (ls_track st)) ->
  undisturbed sch (job_at E conv (ls_track st)) ->
  processTrack E sch false (env_width E) (env_height E)
    (job_at E conv (ls_track st))
  = Ok (symbols_of_track E st).
Proof.
  intros Hmix Hst Hzf Hitr Hund.
  pose proof (fresh_ring_ok conv conv_fresh) as Hok.
  destruct (loop_reach_setup E conv Hok st Hst) as [_ Hsame].
  destruct Hsame as (_ & _ & _ & Hmix' & _).
  destruct (loop_reach_spiral_at E conv conv_fresh st Hst)
    as (Htr & Hr & _ & Hzs & _).
  pose proof (processTrack_outcome E sch false (env_width E) (env_height E)
                (job_at E conv (ls_track st))) as Hp.
  destruct (processTrack E sch false (env_width E) (env_height E)
              (job_at E conv (ls_track st))) as [data|e|]; [| |lia].
  - destruct Hp as (_ & _ & _ & _ & Hsym).
    rewrite (Hsym eq_refl (ls_draws st)). f_equal.
    unfold symbols_of_track, job_at.
    cbn [job_cx job_cy job_ir job_r job_rcd job_itr job_zs job_zf].
    by rewrite Hmix', Hmix, Htr, Hr, Hzs, Hzf.
  - destruct Hp as (_ & _ & j & _ & Hj). by rewrite Hund in Hj.
Qed.

End Agreement.

(** X16 (the sequential encoder on the spiral).  For whole-number
    parameters [tr0 = a > 0] and [dtr = b >= 0] below 2^52, on which the
    additions of the track loop are exact in binary64: at the head of
    iteration [n] of the track loop of [Convert], the samples per turn are
    [a + n * b], the sample count of the track is that same whole number,
    the accumulated count is [n * a + b * (n * (n - 1) / 2)], which is also
    the number of bytes handed to the interleaver so far, and the ring
    phase is [n mod 17]. *)
Theorem sequential_tracks_on_spiral (E : Env) (conv : Converter) (a b : Z)
    (st : LoopState) :
  fresh conv -> whole_parameters conv a b -> loop_reach E conv st ->
  let n := Z.of_nat (ls_track st) in
  ls_tr st = inject_Z (a + n * b) /\
  trunc (ls_tr st) = a + n * b /\
  ls_c st = inject_Z (whole_samples a b (ls_track st)) /\
  Z.of_nat (length (ls_fed st)) = whole_samples a b (ls_track st) /\
  ls_zs st = n mod 17.
Proof.
  intros Hfresh Hwhole Hst n.
  destruct (loop_reach_spiral_at E conv Hfresh st Hst)
    as (Htr & _ & Hc & Hzs & Hfed & _).
  destruct (spiral_at_whole conv a b (ls_track st) Hwhole)
    as (Ctr & Cc & Czs & Cs).
  rewrite Htr, Hc, Hzs, Hfed, Ctr, trunc_inject_Z. by repeat split.
Qed.

Lemma sequential_tracks_on_spiral_witness :
  whole_parameters phase_converter 48 1 /\
  exists st,
    loop_reach (flat_env 7) phase_converter st /\
    ls_track st = 2%nat /\
    ls_tr st = inject_Z 50 /\ ls_c st = inject_Z 97 /\
    length (ls_fed st) = 97%nat /\ ls_zs st = 2.
Proof.
  assert (Hwhole : whole_parameters phase_converter 48 1).
  { split; [reflexivity|]. split; [reflexivity|]. split; lia. }
  split; [exact Hwhole|].
  pose proof (run_tracks_reach (flat_env 7) phase_converter 2
                (initial_loop phase_converter)) as Hreach.
  assert (Htrack : ls_track <$> run_tracks (flat_env 7) 2
                     (initial_loop phase_converter) = Some 2%nat)
    by (vm_compute; reflexivity).
  destruct (run_tracks (flat_env 7) 2 (initial_loop phase_converter))
    as [st|]; [|discriminate].
  injection Htrack as Htrack.
  specialize (Hreach st (lr_init _ _) eq_refl).
  destruct (sequential_tracks_on_spiral (flat_env 7) phase_converter 48 1 st
              (fresh_new 48 1 1 false "cd") Hwhole Hreach)
    as (Htr & _ & Hc & Hfed & Hzs).
  rewrite Htrack in Htr, Hc, Hfed, Hzs.
  exists st. split; [exact Hreach|]. split; [exact Htrack|].
  split; [exact Htr|]. split; [exact Hc|].
  split; [apply Nat2Z.inj; exact Hfed|exact Hzs].
Defined.

(** X17 (where the drivers agree).  For whole-number parameters
    [tr0 = a > 0] and [dtr = b >= 0] below 2^52 and in ordered mode: when
    the sample phase is 0 at the head of a track of the sequential encoder,
    the worker that gets the job the generator sent for that track, if it
    does not find the context cancelled, returns exactly the bytes the
    sequential encoder hands to its interleaver for that track.  This is so
    for track 0 of every such run. *)
Theorem worker_track_equals_sequential_track (E : Env) (conv : Converter)
    (a b : Z) (st : LoopState) (gs : GenState) (job : TrackJob)
    (sch : Schedule) :
  fresh conv -> whole_parameters conv a b -> mixColors conv = false ->
  loop_reach E conv st -> ls_zf st = 0 ->
  gen_reach E conv gs -> gs_jobs gs !! ls_track st = Some job ->
  undisturbed sch job ->
  0 <= job_itr job /\
  processTrack E sch false (env_width E) (env_height E) job
  = Ok (symbols_of_track E st).
Proof.
  intros Hfresh Hwhole Hmix Hst Hzf Hgs Hjob Hund.
  destruct (gen_reach_spiral_at E conv gs Hgs) as (_ & _ & _ & _ & _ & Hjobs & _).
  rewrite Hjobs, list_lookup_fmap in Hjob.
  destruct (seq 0 (Z.to_nat (gs_trackIndex gs)) !! ls_track st) as [i'|] eqn:Hi;
    [|discriminate].
  apply lookup_seq in Hi as [-> _]. injection Hjob as <-.
  assert (Hitr : 0 <= job_itr (job_at E conv (ls_track st))).
  { destruct (spiral_at_whole conv a b (ls_track st) Hwhole) as (Htr & _).
    destruct Hwhole as (_ & _ & Ha & Hb).
    unfold job_at. cbn [job_itr]. rewrite Htr, trunc_inject_Z. nia. }
  split; [exact Hitr|by apply track_agrees].
Qed.

Lemma worker_track_equals_sequential_track_witness :
  let conv := NewConverter 50 1 1 false "cd" in
  whole_parameters conv 50 1 /\
  exists st gs job,
    loop_reach (flat_env 7) conv st /\ ls_track st = 1%nat /\
    gen_reach (flat_env 7) conv gs /\
    gs_jobs gs !! 1%nat = Some job /\
    processTrack (flat_env 7) quiet_schedule false 100 100 job
    = Ok (symbols_of_track (flat_env 7) st).
Proof.
  intros conv.
  assert (Hwhole : whole_parameters conv 50 1).
  { split; [reflexivity|]. split; [reflexivity|]. split; lia. }
  split; [exact Hwhole|].
  pose proof (run_tracks_reach (flat_env 7) conv 1 (initial_loop conv))
    as Hreach.
  assert (Htrack : (fun st => (ls_track st, ls_zf st))
                     <$> run_tracks (flat_env 7) 1 (initial_loop conv)
                   = Some (1%nat, 0))
    by (vm_compute; reflexivity).
  destruct (run_tracks (flat_env 7) 1 (initial_loop conv))
    as [st|]; [|discriminate].
  injection Htrack as Htrack Hzf.
  specialize (Hreach st (lr_init _ _) eq_refl).
  pose proof (run_gen_reach (flat_env 7) conv 2 (initial_gen conv)) as Hgreach.
  assert (Hlen : (fun gs => length (gs_jobs gs))
                   <$> run_gen (flat_env 7) 2 conv (initial_gen conv)
                 = Some 2%nat)
    by (vm_compute; reflexivity).
  destruct (run_gen (flat_env 7) 2 conv (initial_gen conv))
    as [gs|]; [|discriminate].
  specialize (Hgreach gs (gr_init _ _) eq_refl).
  injection Hlen as Hlen.
  destruct (lookup_lt_is_Some_2 (gs_jobs gs) 1) as [job Hjob]; [lia|].
  exists st, gs, job.
  split; [exact Hreach|]. split; [exact Htrack|]. split; [exact Hgreach|].
  split; [exact Hjob|].
  rewrite <- Htrack in Hjob.
  exact (proj2 (worker_track_equals_sequential_track (flat_env 7)
                  conv 50 1 st gs job quiet_schedule
                  (fresh_new 50 1 1 false "cd") Hwhole eq_refl Hreach Hzf
                  Hgreach Hjob (fun _ => eq_refl))).
Defined.


(** ** The same tracks in both drivers *)

Lemma published_data_length (E : Env) (mix : bool) (jobs : list TrackJob) :
  Forall (fun job => 0 <= job_itr job) jobs ->
  length (concat (res_data <$> published E quiet_schedule mix jobs))
  = sum_list ((fun job => Z.to_nat (job_itr job)) <$> jobs).
Proof.
  induction 1 as [|job jobs Hitr _ IH]; [done|].
  destruct (published_cons E mix job jobs Hitr) as (data & Hdata & ->).
  destruct (processTrack_quiet E mix (env_width E) (env_height E) job Hitr)
    as (data' & Hdata' & Hlen).
  rewrite Hdata in Hdata'. injection Hdata' as <-.
  rewrite !fmap_cons. cbn [concat res_data sum_list sum_list_with].
  by rewrite length_app, IH, Hlen.
Qed.

Lemma jobs_samples (E : Env) (conv : Converter) (n : nat) :
  sum_list ((fun job => Z.to_nat (job_itr job)) <$> (job_at E conv <$> seq 0 n))
  = samples_before conv n.
Proof.
  induction n as [|n IH]; [done|].
  rewrite seq_S, !fmap_app, sum_list_with_app, IH. cbn. lia.
Qed.

Section SameTracks.

Variable E : Env.
Variable conv : Converter.
Hypothesis conv_fresh : fresh conv.
Hypothesis tr0_pos : (0 < tr0 conv)%Q.
Hypothesis dtr_nonneg : (0 <= dtr conv)%Q.
Hypothesis env_quiet : quiet E.
Hypothesis no_cancel :
  forall cb k, cancelCallback conv = Some cb -> cb k = false.

Lemma gen_loop_final fuel : forall gs0 gs,
  gen_loop E fuel conv gs0 = Some gs ->
  loop_guard (totalSize_of (discType conv)) (gs_c gs) (gs_tr gs) = false.
Proof.
  induction fuel as [|fuel IH]; intros gs0 gs Hloop; [done|].
  simpl in Hloop.
  destruct (loop_guard _ (gs_c gs0) _) eqn:Hg.
  - destruct (gen_body_quiet E conv (proj1 (proj2 env_quiet)) no_cancel gs0)
      as [gs1 Hbody].
    rewrite Hbody in Hloop. by apply (IH gs1).
  - by injection Hloop as <-.
Qed.

Lemma same_track_count st gs :
  loop_reach E conv st ->
  loop_guard (totalSize_of (discType conv)) (ls_c st) (ls_tr st) = false ->
  gen_reach E conv gs ->
  loop_guard (totalSize_of (discType conv)) (gs_c gs) (gs_tr gs) = false ->
  gs_trackIndex gs = Z.of_nat (ls_track st).
Proof.
  intros Hst Hgst Hgs Hggs.
  destruct (loop_reach_spiral_at E conv conv_fresh st Hst)
    as (Htr & _ & Hc & _ & _ & Hbelow).
  destruct (gen_reach_spiral_at E conv gs Hgs)
    as (Hn & Gtr & _ & Gc & _ & _ & Gbelow).
  rewrite Htr, Hc in Hgst. rewrite Gtr, Gc in Hggs.
  fold (guard_at conv (ls_track st)) in Hgst.
  fold (guard_at conv (Z.to_nat (gs_trackIndex gs))) in Hggs.
  destruct (lt_eq_lt_dec (ls_track st) (Z.to_nat (gs_trackIndex gs)))
    as [[Hlt|Heq]|Hgt].
  - by rewrite (Gbelow _ Hlt) in Hgst.
  - lia.
  - by rewrite (Hbelow _ Hgt) in Hggs.
Qed.

End SameTracks.

(** X18 (the same tracks, the same number of bytes).  For whole-number
    parameters [tr0 = a > 0] and [dtr = b >= 0] below 2^52, on which the
    additions and comparisons of both track loops are exact in binary64,
    with writes that succeed and nobody cancelling, both drivers return
    [nil], and the job generator has sent exactly one job for each
    iteration the sequential track loop made: job [i] has track index [i]
    and [a + i * b] samples.  Whatever the order in which the results
    arrive, the file of the parallel pipeline has one byte for each byte
    the sequential encoder handed to its interleaver. *)
Theorem drivers_process_same_tracks (E : Env) (conv : Converter) (a b : Z) :
  fresh conv -> whole_parameters conv a b ->
  quiet E -> env_create_ok E = true ->
  (forall cb k, cancelCallback conv = Some cb -> cb k = false) ->
  exists st file gs n,
    (forall fuel, (n < fuel)%nat ->
       Convert E fuel conv = Some (Completed st file)) /\
    (forall fuel arrival, (n < fuel)%nat ->
       ConvertParallel E fuel conv quiet_schedule arrival =
       Some (Returned {| par_ret := None;
                         par_collector := Some (collect E arrival);
                         par_jobs := gs_jobs gs |})) /\
    length (gs_jobs gs) = ls_track st /\
    (forall i job, gs_jobs gs !! i = Some job ->
       job_trackIndex job = Z.of_nat i /\
       job_itr job = a + Z.of_nat i * b) /\
    Z.of_nat (length (ls_fed st)) = whole_samples a b (ls_track st) /\
    forall arrival,
      possible_arrival E quiet_schedule (mixColors conv) (gs_jobs gs) arrival ->
      nextTrackToWrite (collect E arrival) = Z.of_nat (ls_track st) /\
      length (col_file (collect E arrival)) = length (ls_fed st).
Proof.
  intros Hfresh Hwhole Hquiet Hcreate Hnc.
  destruct (whole_parameters_valid conv a b Hwhole) as [Htr Hdtr].
  pose proof (fresh_ring_ok conv Hfresh) as Hok.
  destruct (Convert_completes E conv Hok Htr Hdtr Hquiet Hnc Hcreate)
    as (st & n1 & Hst & Hgst & Hseq).
  destruct (ConvertParallel_generates E conv Htr Hdtr (proj1 (proj2 Hquiet)) Hnc)
    as (gs & n2 & Hgs & Hgen).
  pose proof (gen_loop_final E conv Hquiet Hnc (S n2) _ _ (Hgen (S n2) ltac:(lia)))
    as Hggs.
  pose proof (same_track_count E conv Hfresh st gs Hst Hgst Hgs Hggs) as Hcount.
  destruct (gen_reach_spiral_at E conv gs Hgs) as (_ & _ & _ & _ & _ & Hjobs & _).
  rewrite Hcount, Nat2Z.id in Hjobs.
  destruct (loop_reach_spiral_at E conv Hfresh st Hst) as (_ & _ & _ & _ & Hfed & _).
  pose proof (gen_reach_itr_nonneg E conv Htr Hdtr gs Hgs) as Hitr.
  exists st, (emitted (ls_conv st) (ls_file st)), gs, (n1 + n2)%nat.
  split; [intros fuel Hf; apply Hseq; lia|].
  split.
  { intros fuel arrival Hf. unfold ConvertParallel. rewrite Hcreate.
    rewrite (gen_sent_loop E conv fuel _ _ (Hgen fuel ltac:(lia))).
    rewrite (workers_do_not_panic E quiet_schedule _ _ Hitr).
    by rewrite (Hgen fuel ltac:(lia)). }
  split; [by rewrite Hjobs, length_fmap, length_seq|].
  split.
  { intros i job Hjob.
    destruct (generator_jobs_on_spiral_at E conv a b gs i job Hwhole Hgs Hjob)
      as (H1 & _ & H2 & _).
    by split. }
  split.
  { rewrite Hfed.
    by destruct (spiral_at_whole conv a b (ls_track st) Hwhole) as (_ & _ & _ & ->). }
  intros arrival Harr. unfold possible_arrival in Harr.
  destruct (published_quiet E (mixColors conv) (gs_jobs gs) Hitr)
    as (Herr & Hridx & _).
  destruct (gen_reach_jobs E conv gs Hgs) as (_ & _ & Hidx0 & Hidx).
  pose proof (published_data_length E (mixColors conv) (gs_jobs gs) Hitr) as Hplen.
  set (rs := published E quiet_schedule (mixColors conv) (gs_jobs gs)) in *.
  assert (Hl : length rs = ls_track st).
  { rewrite <- (length_fmap res_trackIndex), Hridx, Hidx, length_seqZ. lia. }
  assert (Hrsidx : res_trackIndex <$> rs = seqZ 0 (Z.of_nat (length rs))).
  { rewrite Hridx, Hidx. f_equal. lia. }
  destruct (collect_in_order E (proj1 Hquiet) rs arrival Herr Hrsidx Harr)
    as [Hnext Hfile].
  split; [by rewrite Hnext, Hl|].
  by rewrite Hfile, Hplen, Hjobs, jobs_samples, Hfed.
Qed.

Lemma drivers_process_same_tracks_witness :
  whole_parameters small_converter 10 1 /\
  exists st file gs n,
    (forall fuel, (n < fuel)%nat ->
       Convert (flat_env 0) fuel small_converter = Some (Completed st file)) /\
    (forall fuel arrival, (n < fuel)%nat ->
       ConvertParallel (flat_env 0) fuel small_converter quiet_schedule arrival =
       Some (Returned {| par_ret := None;
                         par_collector := Some (collect (flat_env 0) arrival);
                         par_jobs := gs_jobs gs |})) /\
    length (gs_jobs gs) = ls_track st.
Proof.
  assert (Hwhole : whole_parameters small_converter 10 1).
  { split; [reflexivity|]. split; [reflexivity|]. split; lia. }
  split; [exact Hwhole|].
  destruct (drivers_process_same_tracks (flat_env 0) small_converter 10 1)
    as (st & file & gs & n & Hseq & Hpar & Hcount & _).
  - apply fresh_new.
  - exact Hwhole.
  - split; [intros; reflexivity|]. split; [intros; reflexivity|].
    intros k. simpl. lia.
  - reflexivity.
  - discriminate.
  - by exists st, file, gs, n.
Defined.


(** * Presets and entry points *)

(** ** Presets *)

Lemma presets_listed :
  exists l, map_to_list GetPresets = l /\
            Forall (fun kp => kp.1 ∈ preset_names /\ preset_ok kp.2) l.
Proof.
  eexists. split; [vm_compute; reflexivity|].
  repeat (apply Forall_cons_2;
          [split;
           [unfold preset_names; set_solver
           |split; [reflexivity|split; [reflexivity|split; [reflexivity|
              first [by left | by right]]]]]|]).
  apply Forall_nil_2.
Qed.

Lemma preset_lookup_ok name p :
  GetPresets !! name = Some p -> name ∈ preset_names /\ preset_ok p.
Proof.
  intros Hp. destruct presets_listed as (l & Hl & Hall).
  apply elem_of_map_to_list in Hp. rewrite Hl in Hp.
  rewrite Forall_forall in Hall. exact (Hall _ Hp).
Qed.

Lemma preset_names_found name :
  name ∈ preset_names -> is_Some (GetPresets !! name).
Proof.
  unfold preset_names. intros Hin.
  repeat (apply elem_of_cons in Hin as [->|Hin];
          [eexists; vm_compute; reflexivity|]).
  by apply elem_of_nil in Hin.
Qed.

(** X19 (lookup of a preset).  [GetPresetByName] finds a preset exactly
    for the eight keys of the table; what it finds has positive [Tr0],
    [Dtr] and [R0] and disc type cd or dvd; for any other name it returns
    the zero preset and [false]. *)
Theorem GetPresetByName_finds_the_presets (name : string) (p : DiscPreset)
    (found : bool) :
  GetPresetByName name = (p, found) ->
  (found = true <-> name ∈ preset_names) /\
  (found = true -> preset_ok p) /\
  (found = false -> p = zero_preset).
Proof.
  unfold GetPresetByName. intros Hget.
  destruct (GetPresets !! name) as [q|] eqn:Hq; injection Hget as <- <-.
  - destruct (preset_lookup_ok name q Hq) as [Hin Hok].
    split; [done|]. split; [done|]. discriminate.
  - split; [|split; [discriminate|done]]. split; [discriminate|].
    intros Hin. apply preset_names_found in Hin as [q' Hq'].
    by rewrite Hq in Hq'.
Qed.

Lemma GetPresetByName_finds_the_presets_witness :
  GetPresetByName "tdk-cd-rw"
  = ({| Name := "TDK CD-RW 4x-12x HIGH SPEED 700MB 80MIN";
        DiscType := "cd"; Tr0 := 23000.145; Dtr := 1.38659775; R0 := 24.5 |},
     true) /\
  "tdk-cd-rw" ∈ preset_names.
Proof.
  assert (H : GetPresetByName "tdk-cd-rw"
              = ({| Name := "TDK CD-RW 4x-12x HIGH SPEED 700MB 80MIN";
                    DiscType := "cd"; Tr0 := 23000.145; Dtr := 1.38659775;
                    R0 := 24.5 |}, true)) by (vm_compute; reflexivity).
  split; [exact H|].
  exact (proj1 (proj1 (GetPresetByName_finds_the_presets _ _ _ H)) eq_refl).
Defined.

(** X20 (default preset).  [GetDefaultPreset] returns the preset
    "generic-dvd-r" for the disc type dvd in any letter case and the preset
    "verbatim-cd-rw-1" for every other string, also one that is no disc
    type; both are in the table, so the result is never the zero preset,
    and its parameters are positive. *)
Theorem GetDefaultPreset_is_a_preset (discType : string) :
  let p := GetDefaultPreset discType in
  let key := if String.eqb (ToLower discType) "dvd"
             then "generic-dvd-r" else "verbatim-cd-rw-1" in
  GetPresetByName key = (p, true) /\
  DiscType p = (if String.eqb (ToLower discType) "dvd" then "dvd" else "cd") /\
  preset_ok p.
Proof.
  cbv zeta. unfold GetDefaultPreset.
  destruct (String.eqb (ToLower discType) "dvd").
  - split; [by vm_compute|]. split; [by vm_compute|].
    split; [reflexivity|]. split; [reflexivity|]. split; [reflexivity|].
    by right.
  - split; [by vm_compute|]. split; [by vm_compute|].
    split; [reflexivity|]. split; [reflexivity|]. split; [reflexivity|].
    by left.
Qed.

(** ** [burnImage] *)

Lemma default_preset_ok (discType : string) : preset_ok (GetDefaultPreset discType).
Proof.
  unfold GetDefaultPreset.
  destruct (String.eqb (ToLower discType) "dvd").
  - split; [reflexivity|]. split; [reflexivity|]. split; [reflexivity|].
    by right.
  - split; [reflexivity|]. split; [reflexivity|]. split; [reflexivity|].
    by left.
Qed.

(** What [burnImage] runs with: a preset of the table or the default preset,
    with positive parameters, or the parameters of the call when no preset
    is named and neither [tr0] nor [dtr] is zero. *)
Lemma choose_preset_final (discType : string) (tr0 dtr : Q) (preset : string)
    (usePreset : option DiscPreset) :
  choose_preset discType tr0 dtr preset = inr usePreset ->
  match usePreset with
  | Some p => preset_ok p
  | None => preset = "" /\ ~ (tr0 == 0)%Q /\ ~ (dtr == 0)%Q
  end.
Proof.
  unfold choose_preset, GetPresetByName. intros Hc.
  destruct (String.eqb preset "") eqn:Hp; cbn [negb] in Hc.
  - apply String.eqb_eq in Hp.
    destruct (Qeq_bool tr0 0) eqn:Htr; cbn [orb] in Hc.
    { injection Hc as <-. apply default_preset_ok. }
    destruct (Qeq_bool dtr 0) eqn:Hdtr.
    { injection Hc as <-. apply default_preset_ok. }
    injection Hc as <-. split; [done|].
    split; intros Heq; apply Qeq_bool_iff in Heq; congruence.
  - destruct (GetPresets !! preset) as [p|] eqn:Hq; cbn [negb] in Hc; [|done].
    destruct (negb (String.eqb (DiscType p) discType)); [done|].
    injection Hc as <-. by destruct (preset_lookup_ok preset p Hq).
Qed.

Section NoWorkerPanic.

Variable E : Env.
Variable conv : Converter.
Hypothesis tr0_pos : (0 < tr0 conv)%Q.
Hypothesis dtr_nonneg : (0 <= dtr conv)%Q.

Lemma gen_body_Return_jobs st st' :
  gen_body E conv st = GenReturn st' -> gs_jobs st' = gs_jobs st.
Proof.
  unfold gen_body. intros Hb.
  destruct (env_ctx_done E (gs_polls st)); [by injection Hb as <-|].
  destruct (match cancelCallback conv with
            | Some cb => cb (Z.to_nat (gs_trackIndex st))
            | None => false
            end); [by injection Hb as <-|].
  destruct (env_ctx_done E (S (gs_polls st))); [by injection Hb as <-|done].
Qed.

Lemma gen_sent_itr_nonneg fuel : forall st,
  gen_reach E conv st ->
  Forall (fun job => 0 <= job_itr job) (gen_sent E fuel conv st).
Proof.
  induction fuel as [|fuel IH]; intros st Hst; simpl.
  - exact (gen_reach_itr_nonneg E conv tr0_pos dtr_nonneg st Hst).
  - destruct (loop_guard _ _ _) eqn:Hg; [|exact (gen_reach_itr_nonneg E conv tr0_pos dtr_nonneg st Hst)].
    destruct (gen_body E conv st) as [st'|st'] eqn:Hb.
    + apply IH. by eapply gr_step.
    + rewrite (gen_body_Return_jobs st st' Hb). exact (gen_reach_itr_nonneg E conv tr0_pos dtr_nonneg st Hst).
Qed.

Lemma ConvertParallel_no_panic fuel sch arrival :
  ConvertParallel E fuel conv sch arrival <> Some WorkerPanic.
Proof.
  unfold ConvertParallel. destruct (env_create_ok E); [|done].
  rewrite workers_do_not_panic
    by (apply gen_sent_itr_nonneg, gr_init).
  by destruct (gen_loop E fuel conv (initial_gen conv)).
Qed.

End NoWorkerPanic.

Lemma lower_ascii_idem (a : Ascii.ascii) : lower_ascii (lower_ascii a) = lower_ascii a.
Proof. by destruct a as [[] [] [] [] [] [] [] []]. Qed.

Lemma ToLower_idem (s : string) : ToLower (ToLower s) = ToLower s.
Proof.
  induction s as [|a s IH]; [done|]. simpl. by rewrite lower_ascii_idem, IH.
Qed.

(** X21 (letter case of the disc type).  [burnImage] treats the disc type
    without regard to letter case: a call with a disc type and the call
    with its lower-case form do the same. *)
Theorem burnImage_ignores_letter_case (E : Env) (discType : string)
    (tr0 dtr r0 : Q) (mix : bool) (preset : string) (multi : bool)
    (fuel : nat) (sch : Schedule) (arrival : list TrackResult) :
  burnImage E discType tr0 dtr r0 mix preset multi fuel sch arrival
  = burnImage E (ToLower discType) tr0 dtr r0 mix preset multi fuel sch arrival.
Proof. unfold burnImage. by rewrite ToLower_idem. Qed.

(** X22 (a preset overrides the parameters).  When a preset is named,
    [burnImage] does not look at the [tr0], [dtr] and [r0] it was given:
    the call does the same for any other three values, and when it gets as
    far as creating a converter, the preset is in the table, is made for
    the disc type of the call, and the converter is created with the three
    parameters [Tr0], [Dtr] and [R0] of that preset. *)
Theorem burnImage_preset_overrides_parameters (E : Env) (discType : string)
    (tr0 dtr r0 tr0' dtr' r0' : Q) (mix : bool) (preset : string)
    (multi : bool) (fuel : nat) (sch : Schedule) (arrival : list TrackResult) :
  preset <> "" ->
  burnImage E discType tr0 dtr r0 mix preset multi fuel sch arrival
  = burnImage E discType tr0' dtr' r0' mix preset multi fuel sch arrival /\
  (forall rep,
     burnImage E discType tr0 dtr r0 mix preset multi fuel sch arrival
     = Some (Ok rep) ->
     burn_started rep <> None ->
     exists p, GetPresets !! preset = Some p /\
               DiscType p = ToLower discType /\
               burn_started rep = Some (Tr0 p, Dtr p, R0 p)).
Proof.
  intros Hp. apply String.eqb_neq in Hp. split.
  - unfold burnImage, choose_preset. rewrite Hp. cbn [negb].
    destruct (negb _ && negb _); [done|].
    destruct (negb (env_load_ok E)); [done|].
    destruct (GetPresetByName preset) as [p found].
    destruct (negb found); [done|].
    by destruct (negb (String.eqb (DiscType p) (ToLower discType))).
  - intros rep Hrun Hst.
    unfold burnImage, choose_preset, GetPresetByName in Hrun.
    rewrite Hp in Hrun. cbn [negb] in Hrun.
    destruct (negb _ && negb _); [by injection Hrun as <-|].
    destruct (negb (env_load_ok E)); [by injection Hrun as <-|].
    destruct (GetPresets !! preset) as [p|] eqn:Hq; cbn [negb] in Hrun;
      [|by injection Hrun as <-].
    destruct (String.eqb (DiscType p) (ToLower discType)) eqn:Hd;
      cbn [negb] in Hrun; [|by injection Hrun as <-].
    apply String.eqb_eq in Hd.
    exists p. split; [done|]. split; [done|].
    destruct multi.
    + destruct (ConvertParallel E fuel _ sch arrival) as [[po|]|];
        [|done|done].
      injection Hrun as <-.
      destruct (par_ret po); [|done]. by destruct (env_interrupted E).
    + destruct (Convert E fuel _) as [[st file|e removed reps|]|];
        [| |done|done]; injection Hrun as <-; [done|].
      by destruct (env_interrupted E).
Qed.

Lemma burnImage_preset_overrides_parameters_witness :
  "tdk-cd-rw" <> "" /\
  exists rep,
    burnImage interrupted_env "cd" 1 2 3 false "tdk-cd-rw" false 1
      quiet_schedule [] = Some (Ok rep) /\
    burn_started rep = Some (23000.145, 1.38659775, 24.5)%Q /\
    burnImage interrupted_env "cd" 1 2 3 false "tdk-cd-rw" false 1
      quiet_schedule []
    = burnImage interrupted_env "cd" 0 0 24.5 false "tdk-cd-rw" false 1
        quiet_schedule [].
Proof.
  assert (Hne : "tdk-cd-rw" <> "") by discriminate.
  split; [exact Hne|].
  destruct (burnImage_preset_overrides_parameters interrupted_env "cd"
              1 2 3 0 0 24.5 false "tdk-cd-rw" false 1 quiet_schedule [] Hne)
    as [Heq Hpar].
  assert (Hrun : exists rep,
             burnImage interrupted_env "cd" 1 2 3 false "tdk-cd-rw" false 1
               quiet_schedule [] = Some (Ok rep) /\ burn_started rep <> None).
  { eexists. split; [vm_compute; reflexivity|discriminate]. }
  destruct Hrun as (rep & Hrun & Hst).
  destruct (Hpar rep Hrun Hst) as (p & Hq & _ & Hstarted).
  assert (Hp : GetPresets !! "tdk-cd-rw"
               = Some {| Name := "TDK CD-RW 4x-12x HIGH SPEED 700MB 80MIN";
                         DiscType := "cd"; Tr0 := 23000.145;
                         Dtr := 1.38659775; R0 := 24.5 |})
    by (vm_compute; reflexivity).
  rewrite Hp in Hq. injection Hq as <-.
  exists rep. split; [exact Hrun|]. split; [exact Hstarted|exact Heq].
Defined.

(** X23 (a preset that cannot be used).  For a disc type that is accepted
    and an image that loads, [burnImage] rejects the name of a preset that
    is not in the table and a preset made for the other disc type; in both
    cases no converter is created and no output is written. *)
Theorem burnImage_rejects_unusable_preset (E : Env) (discType : string)
    (tr0 dtr r0 : Q) (mix : bool) (preset : string) (multi : bool)
    (fuel : nat) (sch : Schedule) (arrival : list TrackResult) :
  valid_disc discType -> env_load_ok E = true -> preset <> "" ->
  (GetPresets !! preset = None ->
   burnImage E discType tr0 dtr r0 mix preset multi fuel sch arrival
   = Some (Ok (rejected ErrPresetUnknown))) /\
  (forall p, GetPresets !! preset = Some p -> DiscType p <> ToLower discType ->
   burnImage E discType tr0 dtr r0 mix preset multi fuel sch arrival
   = Some (Ok (rejected ErrPresetDisc))).
Proof.
  intros Hdisc Hload Hp. apply String.eqb_neq in Hp.
  assert (Hd : negb (String.eqb (ToLower discType) "cd")
               && negb (String.eqb (ToLower discType) "dvd") = false).
  { destruct Hdisc as [-> | ->]; reflexivity. }
  split.
  - intros Hnone. unfold burnImage, choose_preset, GetPresetByName.
    by rewrite Hd, Hload, Hp, Hnone.
  - intros p Hsome Hne. apply String.eqb_neq in Hne.
    unfold burnImage, choose_preset, GetPresetByName.
    by rewrite Hd, Hload, Hp, Hsome, Hne.
Qed.

Lemma burnImage_rejects_unusable_preset_witness :
  valid_disc "CD" /\
  burnImage (flat_env 0) "CD" 0 0 24.5 false "sony-dvd-rw" true 0
    quiet_schedule []
  = Some (Ok (rejected ErrPresetDisc)).
Proof.
  assert (Hd : valid_disc "CD") by (by left).
  split; [exact Hd|].
  destruct (burnImage_rejects_unusable_preset (flat_env 0) "CD" 0 0 24.5 false
              "sony-dvd-rw" true 0 quiet_schedule [] Hd eq_refl
              ltac:(discriminate))
    as [_ H].
  eapply H; [vm_compute; reflexivity|discriminate].
Defined.



(** X25 (errors after an interrupt).  When a signal has arrived by the time
    the conversion returns, [burnImage] returns [nil] whatever error the
    conversion returned, a failed write or a file that could not be created
    included. *)
Theorem burnImage_interrupted_returns_nil (E : Env) (discType : string)
    (tr0 dtr r0 : Q) (mix : bool) (preset : string) (multi : bool)
    (fuel : nat) (sch : Schedule) (arrival : list TrackResult)
    (rep : BurnReport) :
  env_interrupted E = true ->
  burnImage E discType tr0 dtr r0 mix preset multi fuel sch arrival
  = Some (Ok rep) ->
  burn_started rep <> None ->
  burn_ret rep = None.
Proof.
  intros Hint Hrun Hstarted. unfold burnImage in Hrun.
  destruct (negb _ && negb _); [by injection Hrun as <-|].
  destruct (negb (env_load_ok E)); [by injection Hrun as <-|].
  destruct (choose_preset _ _ _ _) as [e|usePreset]; [by injection Hrun as <-|].
  destruct (match usePreset with
            | Some p => (Tr0 p, Dtr p, R0 p)
            | None => (tr0, dtr, r0)
            end) as [[finalTr0 finalDtr] finalR0].
  rewrite Hint in Hrun. destruct multi.
  - unfold ConvertParallel in Hrun.
    destruct (env_create_ok E).
    + destruct (workers_panic E sch _ _); [done|].
      destruct (gen_loop E fuel _ _); [|done]. by injection Hrun as <-.
    + by injection Hrun as <-.
  - destruct (Convert E fuel _) as [[st file|e removed reps|]|]; [| |done|done].
    + by injection Hrun as <-.
    + by injection Hrun as <-.
Qed.

Lemma burnImage_interrupted_returns_nil_witness :
  exists rep,
    burnImage interrupted_env "cd" 0 0 24.5 false "" false 1 quiet_schedule []
    = Some (Ok rep) /\
    burn_ret rep = None /\ burn_output rep = false.
Proof.
  eexists. split; [vm_compute; reflexivity|]. split; [|reflexivity].
  eapply (burnImage_interrupted_returns_nil interrupted_env "cd" 0 0 24.5 false
            "" false 1 quiet_schedule []);
    [reflexivity|vm_compute; reflexivity|discriminate].
Defined.

(** X26 (panics in [burnImage]).  In sequential mode [burnImage] never
    ends in a run-time panic: the converter it creates is a new one, on
    which [Convert] indexes no array out of range.  In parallel mode it can
    end in one: when no preset is named and [tr0] or [dtr] is negative, a
    worker can get a job with a negative sample count and panics when it
    allocates its buffer, as for [tr0 = -1].  This is the only way: a
    panic implies parallel mode, no preset and a negative [tr0] or
    [dtr]. *)
Theorem burnImage_never_panics (E : Env) (discType : string)
    (tr0 dtr r0 : Q) (mix : bool) (preset : string) (multi : bool)
    (fuel : nat) (sch : Schedule) (arrival : list TrackResult) :
  (multi = false ->
   burnImage E discType tr0 dtr r0 mix preset multi fuel sch arrival
   <> Some Panic) /\
  (burnImage E discType tr0 dtr r0 mix preset multi fuel sch arrival
   = Some Panic ->
   multi = true /\ preset = "" /\ ((tr0 < 0)%Q \/ (dtr < 0)%Q)) /\
  burnImage (flat_env 0) "cd" (-1) 1 24.5 false "" true 1 quiet_schedule []
  = Some Panic.
Proof.
  assert (Hseq : burnImage E discType tr0 dtr r0 mix preset false fuel sch
                   arrival <> Some Panic).
  { unfold burnImage.
    destruct (negb _ && negb _); [done|].
    destruct (negb (env_load_ok E)); [done|].
    destruct (choose_preset _ _ _ _) as [e|usePreset]; [done|].
    destruct (match usePreset with
              | Some p => (Tr0 p, Dtr p, R0 p)
              | None => (tr0, dtr, r0)
              end) as [[finalTr0 finalDtr] finalR0].
    set (converter := SetCancelCallback _ _).
    assert (Hok : ring_ok converter)
      by apply fresh_ring_ok, fresh_cancel, fresh_progress, fresh_new.
    unfold Convert. destruct (env_create_ok E); [|done].
    pose proof (track_loop_outcome E converter fuel (initial_loop converter))
      as Hsafe.
    destruct (track_loop E fuel (initial_loop converter))
      as [[st file|e removed reps|]|]; [done|done| |done].
    by destruct (Hsafe Crashed Hok (lr_init _ _) eq_refl). }
  split; [by intros ->|]. split; [|by vm_compute].
  intros Hrun. destruct multi; [|done]. split; [done|].
  unfold burnImage in Hrun.
  destruct (negb _ && negb _); [done|].
  destruct (negb (env_load_ok E)); [done|].
  destruct (choose_preset _ _ _ _) as [e|usePreset] eqn:Hchoose; [done|].
  apply choose_preset_final in Hchoose.
  destruct usePreset as [p|].
  - exfalso. destruct Hchoose as (Hptr & Hpdtr & _).
    destruct (ConvertParallel E fuel _ sch arrival) as [[po|]|] eqn:Hpar;
      [done| |done].
    revert Hpar. apply ConvertParallel_no_panic; cbn; [done|lra].
  - destruct Hchoose as (-> & Htr & Hdtr). split; [done|].
    destruct (Qlt_le_dec tr0 0) as [|Htr']; [by left|].
    destruct (Qlt_le_dec dtr 0) as [|Hdtr']; [by right|].
    exfalso.
    destruct (ConvertParallel E fuel _ sch arrival) as [[po|]|] eqn:Hpar;
      [done| |done].
    revert Hpar. apply ConvertParallel_no_panic; cbn; [|done].
    apply Qle_lteq in Htr' as [|Heq]; [done|]. by destruct Htr.
Qed.

Lemma burnImage_never_panics_witness :
  burnImage (flat_env 0) "cd" (-1) 1 24.5 false "" true 1 quiet_schedule []
  = Some Panic /\
  true = true /\ "" = "" /\ ((-1 < 0)%Q \/ (1 < 0)%Q).
Proof.
  pose proof (burnImage_never_panics (flat_env 0) "cd" (-1) 1 24.5 false ""
                true 1 quiet_schedule []) as (_ & Hpanic & Hrun).
  split; [exact Hrun|exact (Hpanic Hrun)].
Defined.


(** ** [visualizeTrack] *)

Lemma arg_le_zero_false (x : float64_arg) :
  arg_le_zero x = false <-> arg_passes x.
Proof.
  destruct x as [q| | |]; cbn; [|done|done|done].
  rewrite <- not_true_iff_false, Qle_bool_iff. split.
  - apply Qnot_le_lt.
  - intros Hlt Hle. by apply (Qlt_not_le _ _ Hlt).
Qed.

Lemma arg_negative_checks (x : float64_arg) :
  arg_negative x -> arg_eq_zero x = false /\ arg_le_zero x = true.
Proof.
  destruct x as [q| | |]; cbn; [|done|done|done].
  intros Hneg. split.
  - apply not_true_iff_false. rewrite Qeq_bool_iff. lra.
  - apply Qle_bool_iff. lra.
Qed.

(** The two ways [visualizeTrack] can end: rejected before a visualizer
    exists, or a visualizer was created with parameters that passed the
    validation. *)
Lemma visualizeTrack_cases run_ok trackFile discType tr0 dtr r0 preset :
  let rep := visualizeTrack run_ok trackFile discType tr0 dtr r0 preset in
  (exists e, rep = vis_rejected e) \/
  (exists a b,
     rep = {| vis_ret := if run_ok then None else Some VisFailed;
              vis_started := Some (a, b, r0, ToLower discType) |} /\
     trackFile <> "" /\ valid_disc discType /\
     arg_passes a /\ arg_passes b /\ arg_passes r0 /\
     (arg_eq_zero tr0 = false -> a = tr0) /\
     (arg_eq_zero dtr = false -> b = dtr) /\
     (preset <> "" -> is_Some (GetPresets !! preset))).
Proof.
  cbv zeta. unfold visualizeTrack.
  destruct (String.eqb trackFile "") eqn:Htf; [left; by eexists|].
  apply String.eqb_neq in Htf.
  destruct (negb (String.eqb (ToLower discType) "cd")
            && negb (String.eqb (ToLower discType) "dvd")) eqn:Hd;
    [left; by eexists|].
  assert (Hvalid : valid_disc discType).
  { unfold valid_disc.
    destruct (String.eqb_spec (ToLower discType) "cd"); [by left|].
    destruct (String.eqb_spec (ToLower discType) "dvd"); [by right|done]. }
  assert (Hfinal : forall a b,
    (arg_eq_zero tr0 = false -> a = tr0) ->
    (arg_eq_zero dtr = false -> b = dtr) ->
    (preset <> "" -> is_Some (GetPresets !! preset)) ->
    let rep :=
      if arg_le_zero a || arg_le_zero b || arg_le_zero r0
      then vis_rejected VisInvalidParameters
      else {| vis_ret := if run_ok then None else Some VisFailed;
              vis_started := Some (a, b, r0, ToLower discType) |} in
    (exists e, rep = vis_rejected e) \/
    (exists a b,
       rep = {| vis_ret := if run_ok then None else Some VisFailed;
                vis_started := Some (a, b, r0, ToLower discType) |} /\
       trackFile <> "" /\ valid_disc discType /\
       arg_passes a /\ arg_passes b /\ arg_passes r0 /\
       (arg_eq_zero tr0 = false -> a = tr0) /\
       (arg_eq_zero dtr = false -> b = dtr) /\
       (preset <> "" -> is_Some (GetPresets !! preset)))).
  { intros a b Ha Hb Hp. cbv zeta.
    destruct (arg_le_zero a) eqn:H1; [left; by eexists|].
    destruct (arg_le_zero b) eqn:H2; [left; by eexists|].
    destruct (arg_le_zero r0) eqn:H3; [left; by eexists|].
    right. exists a, b. cbn [orb].
    apply arg_le_zero_false in H1, H2, H3. by repeat split. }
  assert (Hkeep : forall (x y : float64_arg),
            arg_eq_zero x = false -> (if arg_eq_zero x then y else x) = x).
  { by intros x y ->. }
  destruct (String.eqb preset "") eqn:Hpre; cbn [negb].
  - apply String.eqb_eq in Hpre.
    destruct (arg_eq_zero tr0 || arg_eq_zero dtr) eqn:Hz.
    + destruct (GetPresets !! (if String.eqb (ToLower discType) "cd"
                                 then "verbatim-cd-rw-1" else "generic-dvd-r"))
        as [dp|].
      * apply Hfinal; [apply Hkeep..|done].
      * apply Hfinal; done.
    + apply Hfinal; done.
  - apply String.eqb_neq in Hpre. unfold GetPresetByName.
    destruct (GetPresets !! preset) as [pd|] eqn:Hpd; cbn [negb].
    + apply Hfinal; [apply Hkeep..|by eexists].
    + left. by eexists.
Qed.

(** X27 (validation in [visualizeTrack]).  [visualizeTrack] creates a
    visualizer only with a track file that is named, a disc type cd or dvd
    and three parameters that got past the check [x <= 0]: each is a
    positive number, plus infinity or NaN.  A [tr0] or [dtr] that is not
    zero, and every [r0], is passed on as given, so a negative one is
    rejected.  The check does not stop NaN, for which every comparison is
    false: with a track file and an accepted disc type, the visualizer is
    created with three NaN parameters. *)
Theorem visualizeTrack_validates (run_ok : bool) (trackFile discType : string)
    (tr0 dtr r0 : float64_arg) (preset : string) (a b c : float64_arg)
    (d : string) :
  (vis_started (visualizeTrack run_ok trackFile discType tr0 dtr r0 preset)
   = Some (a, b, c, d) ->
   trackFile <> "" /\ (d = "cd" \/ d = "dvd") /\ d = ToLower discType /\
   arg_passes a /\ arg_passes b /\ arg_passes c /\ c = r0 /\
   ~ arg_negative tr0 /\ ~ arg_negative dtr /\
   (arg_eq_zero tr0 = false -> a = tr0) /\
   (arg_eq_zero dtr = false -> b = dtr)) /\
  (trackFile <> "" -> valid_disc discType ->
   visualizeTrack run_ok trackFile discType NaN NaN NaN ""
   = {| vis_ret := if run_ok then None else Some VisFailed;
        vis_started := Some (NaN, NaN, NaN, ToLower discType) |}).
Proof.
  split.
  - intros Hs.
    destruct (visualizeTrack_cases run_ok trackFile discType tr0 dtr r0 preset)
      as [[e He]|(a' & b' & Hrep & Htf & Hd & Ha & Hb & Hc & Hka & Hkb & _)].
    + by rewrite He in Hs.
    + rewrite Hrep in Hs. injection Hs as <- <- <- <-.
      split; [done|]. split; [exact Hd|]. split; [done|].
      split; [done|]. split; [done|]. split; [done|]. split; [done|].
      split; [|split; [|done]].
      * intros Hneg. destruct (arg_negative_checks tr0 Hneg) as [Hz Hle].
        rewrite (Hka Hz) in Ha. apply arg_le_zero_false in Ha. congruence.
      * intros Hneg. destruct (arg_negative_checks dtr Hneg) as [Hz Hle].
        rewrite (Hkb Hz) in Hb. apply arg_le_zero_false in Hb. congruence.
  - intros Htf Hd. apply String.eqb_neq in Htf.
    assert (Hdisc : negb (String.eqb (ToLower discType) "cd")
                    && negb (String.eqb (ToLower discType) "dvd") = false).
    { destruct Hd as [-> | ->]; reflexivity. }
    unfold visualizeTrack. by rewrite Htf, Hdisc.
Qed.

Lemma visualizeTrack_validates_witness :
  vis_started (visualizeTrack true "track.raw" "DVD" (Finite 0) (Finite 0)
                 (Finite 24.5) "")
  = Some (Finite 48000.0, Finite 0.74, Finite 24.5, "dvd") /\
  arg_passes (Finite 48000.0) /\
  vis_started (visualizeTrack true "track.raw" "DVD" NaN NaN NaN "")
  = Some (NaN, NaN, NaN, "dvd").
Proof.
  assert (H : vis_started (visualizeTrack true "track.raw" "DVD" (Finite 0)
                             (Finite 0) (Finite 24.5) "")
              = Some (Finite 48000.0, Finite 0.74, Finite 24.5, "dvd"))
    by (vm_compute; reflexivity).
  split; [exact H|].
  destruct (visualizeTrack_validates true "track.raw" "DVD" (Finite 0)
              (Finite 0) (Finite 24.5) "" (Finite 48000.0) (Finite 0.74)
              (Finite 24.5) "dvd") as [Hval Hnan].
  destruct (Hval H) as (_ & _ & _ & Ha & _).
  split; [exact Ha|].
  rewrite (Hnan ltac:(discriminate) ltac:(by right)). reflexivity.
Defined.

(** X28 (rejection of bad parameters).  [visualizeTrack] rejects a negative
    [tr0] or [dtr] and an [r0] that is not positive: it returns an error
    and creates no visualizer.  This holds for the numbers and for minus
    infinity. *)
Theorem visualizeTrack_rejects_bad_parameters (run_ok : bool)
    (trackFile discType : string) (tr0 dtr r0 : float64_arg)
    (preset : string) :
  arg_negative tr0 \/ arg_negative dtr \/ arg_le_zero r0 = true ->
  vis_started (visualizeTrack run_ok trackFile discType tr0 dtr r0 preset) = None /\
  vis_ret (visualizeTrack run_ok trackFile discType tr0 dtr r0 preset) <> None.
Proof.
  intros Hbad.
  destruct (visualizeTrack_cases run_ok trackFile discType tr0 dtr r0 preset)
    as [[e ->]|(a & b & _ & _ & _ & Ha & Hb & Hc & Hka & Hkb & _)]; [done|].
  exfalso. apply arg_le_zero_false in Ha, Hb, Hc.
  destruct Hbad as [H|[H|H]].
  - destruct (arg_negative_checks tr0 H) as [Hz Hle].
    rewrite (Hka Hz) in Ha. congruence.
  - destruct (arg_negative_checks dtr H) as [Hz Hle].
    rewrite (Hkb Hz) in Hb. congruence.
  - congruence.
Qed.

Lemma visualizeTrack_rejects_bad_parameters_witness :
  (arg_negative (Finite (-1)) \/ arg_negative (Finite 1) \/
   arg_le_zero (Finite 24.5) = true) /\
  vis_started (visualizeTrack true "track.raw" "cd" (Finite (-1)) (Finite 1)
                 (Finite 24.5) "") = None /\
  vis_ret (visualizeTrack true "track.raw" "cd" (Finite (-1)) (Finite 1)
             (Finite 24.5) "") <> None.
Proof.
  assert (Hbad : arg_negative (Finite (-1)) \/ arg_negative (Finite 1) \/
                 arg_le_zero (Finite 24.5) = true) by (left; reflexivity).
  split; [exact Hbad|].
  exact (visualizeTrack_rejects_bad_parameters true "track.raw" "cd"
           (Finite (-1)) (Finite 1) (Finite 24.5) "" Hbad).
Defined.

(** X29 (explicit parameters in [visualizeTrack]).  With a track file, an
    accepted disc type and three positive parameters, [visualizeTrack]
    creates its visualizer with exactly these parameters, whether no
    preset is named or one of the table, and whatever disc type that
    preset was made for: unlike [burnImage], it lets the explicit values
    win and does not compare the preset's disc type. *)
Theorem visualizeTrack_keeps_explicit_parameters (run_ok : bool)
    (trackFile discType : string) (tr0 dtr r0 : Q) (preset : string) :
  trackFile <> "" -> valid_disc discType ->
  (0 < tr0)%Q -> (0 < dtr)%Q -> (0 < r0)%Q ->
  preset = "" \/ is_Some (GetPresets !! preset) ->
  visualizeTrack run_ok trackFile discType (Finite tr0) (Finite dtr)
    (Finite r0) preset
  = {| vis_ret := if run_ok then None else Some VisFailed;
       vis_started := Some (Finite tr0, Finite dtr, Finite r0,
                            ToLower discType) |}.
Proof.
  intros Htf Hd Htr Hdtr Hr0 Hp.
  apply String.eqb_neq in Htf.
  assert (Hdisc : negb (String.eqb (ToLower discType) "cd")
                  && negb (String.eqb (ToLower discType) "dvd") = false).
  { destruct Hd as [-> | ->]; reflexivity. }
  assert (H1 : Qeq_bool tr0 0 = false).
  { apply not_true_iff_false. rewrite Qeq_bool_iff. lra. }
  assert (H2 : Qeq_bool dtr 0 = false).
  { apply not_true_iff_false. rewrite Qeq_bool_iff. lra. }
  assert (H3 : Qle_bool tr0 0 = false).
  { apply not_true_iff_false. rewrite Qle_bool_iff. lra. }
  assert (H4 : Qle_bool dtr 0 = false).
  { apply not_true_iff_false. rewrite Qle_bool_iff. lra. }
  assert (H5 : Qle_bool r0 0 = false).
  { apply not_true_iff_false. rewrite Qle_bool_iff. lra. }
  unfold visualizeTrack. rewrite Htf, Hdisc.
  destruct (String.eqb preset "") eqn:Hpre; cbn [negb].
  - cbn [arg_eq_zero]. rewrite H1, H2. cbn [orb]. cbv iota beta.
    cbn [arg_le_zero]. by rewrite H3, H4, H5.
  - destruct Hp as [->|[pd Hpd]]; [done|].
    unfold GetPresetByName. rewrite Hpd. cbn [negb arg_eq_zero arg_le_zero].
    rewrite H1, H2. cbv iota beta. cbn [arg_le_zero]. by rewrite H3, H4, H5.
Qed.

Lemma visualizeTrack_keeps_explicit_parameters_witness :
  visualizeTrack false "track.raw" "cd" (Finite 1000) (Finite 1) (Finite 24.5)
    "sony-dvd-rw"
  = {| vis_ret := Some VisFailed;
       vis_started := Some (Finite 1000, Finite 1, Finite 24.5, "cd") |}.
Proof.
  apply (visualizeTrack_keeps_explicit_parameters false "track.raw" "cd" 1000 1
           24.5 "sony-dvd-rw").
  - discriminate.
  - by left.
  - reflexivity.
  - reflexivity.
  - reflexivity.
  - right. eexists. vm_compute. reflexivity.
Defined.

(** ** The number of workers *)

Lemma SetNumWorkers_range mt n :
  1 <= numWorkers mt <= 16 ->
  1 <= numWorkers (SetNumWorkers mt n) <= 16 /\
  jobs_cap (SetNumWorkers mt n) = jobs_cap mt /\
  results_cap (SetNumWorkers mt n) = results_cap mt /\
  mt_Converter (SetNumWorkers mt n) = mt_Converter mt.
Proof.
  intros Hr. unfold SetNumWorkers.
  destruct (Z.gtb_spec n 0), (Z.leb_spec n 16); cbn; repeat split; lia.
Qed.

(** X30 (worker count).  A multi-threaded converter is created with
    [min (NumCPU, 8)] workers and two channels of twice that capacity.
    [SetNumWorkers] changes the number of workers only to a value from 1 to
    16, so after any calls the count is between 1 and 16; it never touches
    the channels, which keep the capacity they were made with, nor the
    converter. *)
Theorem worker_count_stays_in_range (numCPU : Z) (tr0 dtr r0 : Q) (mix : bool)
    (disc : string) (calls : list Z) :
  1 <= numCPU ->
  let mt0 := NewMultiThreadedConverter numCPU tr0 dtr r0 mix disc in
  let mt := foldl SetNumWorkers mt0 calls in
  numWorkers mt0 = Z.min numCPU 8 /\
  1 <= numWorkers mt <= 16 /\
  jobs_cap mt = 2 * Z.min numCPU 8 /\
  results_cap mt = 2 * Z.min numCPU 8 /\
  mt_Converter mt = NewConverter tr0 dtr r0 mix disc /\
  (forall n, numWorkers (SetNumWorkers mt n)
             = if (0 <? n) && (n <=? 16) then n else numWorkers mt).
Proof.
  intros Hcpu mt0 mt.
  assert (H0 : numWorkers mt0 = Z.min numCPU 8 /\
               jobs_cap mt0 = 2 * Z.min numCPU 8 /\
               results_cap mt0 = 2 * Z.min numCPU 8 /\
               mt_Converter mt0 = NewConverter tr0 dtr r0 mix disc).
  { unfold mt0, NewMultiThreadedConverter. cbn.
    destruct (Z.gtb_spec numCPU 8); repeat split; lia. }
  destruct H0 as (Hw & Hj & Hr & Hc). split; [done|].
  clearbody mt0.
  assert (Hinv : 1 <= numWorkers mt <= 16 /\ jobs_cap mt = jobs_cap mt0 /\
                 results_cap mt = results_cap mt0 /\
                 mt_Converter mt = mt_Converter mt0).
  { unfold mt. clear mt. induction calls as [|n calls IH] using rev_ind.
    - simpl. repeat split; lia.
    - rewrite foldl_app. simpl. destruct IH as (IH1 & IH2 & IH3 & IH4).
      destruct (SetNumWorkers_range (foldl SetNumWorkers mt0 calls) n IH1)
        as (H1 & H2 & H3 & H4).
      repeat split; try lia; congruence. }
  destruct Hinv as (H1 & H2 & H3 & H4). clearbody mt.
  split; [done|]. split; [lia|]. split; [lia|]. split; [congruence|].
  intros n. unfold SetNumWorkers.
  destruct (Z.gtb_spec n 0), (Z.ltb_spec 0 n), (Z.leb_spec n 16); cbn; lia.
Qed.

Lemma worker_count_stays_in_range_witness :
  1 <= 32 /\
  numWorkers (foldl SetNumWorkers
                (NewMultiThreadedConverter 32 1000 1 24.5 false "cd")
                [12; 0; 40]) = 12 /\
  jobs_cap (foldl SetNumWorkers
              (NewMultiThreadedConverter 32 1000 1 24.5 false "cd")
              [12; 0; 40]) = 16.
Proof.
  split; [lia|].
  destruct (worker_count_stays_in_range 32 1000 1 24.5 false "cd" [12; 0; 40])
    as (_ & _ & Hj & _); [lia|].
  split; [reflexivity|exact Hj].
Defined.
